(** * ts2c type inference engine ([src/types.ts]): shallow embedding

    The class [TypeHelper] of [src/types.ts] is embedded as a record of its
    tables together with a heap of the objects it shares by reference
    ([ArrayType], [StructType], [DictType], [TypePromise]).  Methods are
    functions in a state-and-exception monad over that record.  The
    TypeScript compiler API ([ts.Node], [ts.Type], [ts.Symbol],
    [ts.TypeChecker]) is the external front-end: it is modelled by the data
    types of module [ts] and a [TypeChecker] record taken as a parameter.

    The tables of the engine are plain objects: they are embedded as the
    lists of their own properties.  What a plain object inherits from
    [Object.prototype] is not embedded: [Js.prototypeMember] and
    [Js.prototypeSetter] give the keys under which a read or a write meets
    an inherited member.  Only names the program chooses can be such keys,
    in the added properties of a variable and the properties of a struct. *)

From Stdlib Require Import ZArith NArith List String Ascii Bool Lia.
From stdpp Require Import base decidable option list strings pretty.

Open Scope string_scope.
Open Scope list_scope.
#[local] Set Warnings "-register-all".

(** ** JavaScript values and objects used as dictionaries *)

Module Js.

(** References to heap objects (class instances). *)
Abbreviation loc := nat.

Inductive value : Type :=
| VUndef
| VNull
| VBool (b : bool)
| VStr (s : string)
| VRef (l : loc).

#[global] Instance value_eq_dec : EqDecision value.
Proof. solve_decision. Defined.

(** ToBoolean. *)
Definition truthy (v : value) : bool :=
  match v with
  | VUndef | VNull => false
  | VBool b => b
  | VStr s => negb (String.eqb s "")
  | VRef _ => true
  end.

(** [v == s] and [v === s] for a string constant [s] that is not the
    rendering of an object: only the string [s] itself is equal to it. *)
Definition eq_str (v : value) (s : string) : bool :=
  match v with
  | VStr s' => String.eqb s' s
  | _ => false
  end.

(** [v != null] *)
Definition not_nullish (v : value) : bool :=
  match v with
  | VUndef | VNull => false
  | _ => true
  end.

(** [a || b] *)
Definition or_else (a b : value) : value := if truthy a then a else b.

(** Property keys.  [array_index k] is [Some n] when the key is a
    canonical array index: such keys are enumerated first, in ascending
    numeric order, the others after them in insertion order. *)
Class Key (K : Type) := {
  key_eq_dec :: EqDecision K;
  array_index : K -> option N
}.

Definition max_index : N := 4294967295.

Definition digit_of (a : ascii) : option N :=
  let n := N_of_ascii a in
  if ((48 <=? n) && (n <=? 57))%N then Some (n - 48)%N else None.

Fixpoint parse_digits (acc : N) (s : string) : option N :=
  match s with
  | EmptyString => Some acc
  | String a s' =>
      match digit_of a with
      | Some d => parse_digits (10 * acc + d)%N s'
      | None => None
      end
  end.

Definition string_array_index (s : string) : option N :=
  match s with
  | EmptyString => None
  | String a s' =>
      match digit_of a with
      | Some 0%N => match s' with EmptyString => Some 0%N | _ => None end
      | Some d =>
          match parse_digits d s' with
          | Some n => if (n <? max_index)%N then Some n else None
          | None => None
          end
      | None => None
      end
  end.

#[global] Instance string_key : Key string :=
  {| array_index := string_array_index |}.

#[global] Instance N_key : Key N :=
  {| array_index := fun n => if (n <? max_index)%N then Some n else None |}.

(** The keys of the per-function tables: [funcDecl.pos + 1], or ['main']. *)
Inductive ScopeId : Type :=
| FuncScope (n : N)
| MainScope.

#[global] Instance ScopeId_eq_dec : EqDecision ScopeId.
Proof. solve_decision. Defined.

#[global] Instance ScopeId_key : Key ScopeId :=
  {| array_index := fun k =>
       match k with
       | FuncScope n => if (n <? max_index)%N then Some n else None
       | MainScope => None
       end |}.

Section Object.
Context {K V : Type} `{Key K}.

(** An object used as a dictionary: its own properties in enumeration
    order ([Object.keys], [for ... in]). *)
Definition Obj := list (K * V).

(** [o[k]], among the own properties of [o].  The tables of the engine are
    plain objects: for a key that names a member of [Object.prototype]
    (see [prototypeMember] below) and is not an own property, the source
    reads the inherited member, which is none of the values of the
    engine.  The keys of the tables that are positions, scope keys, texts
    of types or names of structs (which end in [_t]) are never such
    names; the names of properties, which the program chooses, can be. *)
Fixpoint get (k : K) (o : list (K * V)) : option V :=
  match o with
  | [] => None
  | (k', v) :: o' => if decide (k = k') then Some v else get k o'
  end.

Fixpoint replace (k : K) (v : V) (o : list (K * V)) : list (K * V) :=
  match o with
  | [] => []
  | (k', v') :: o' =>
      if decide (k = k') then (k, v) :: o' else (k', v') :: replace k v o'
  end.

Fixpoint insert_index (n : N) (k : K) (v : V) (o : list (K * V))
  : list (K * V) :=
  match o with
  | [] => [(k, v)]
  | (k', v') :: o' =>
      match array_index k' with
      | Some n' =>
          if (n' <? n)%N then (k', v') :: insert_index n k v o'
          else (k, v) :: (k', v') :: o'
      | None => (k, v) :: (k', v') :: o'
      end
  end.

(** [o[k] = v], for a key under which [Object.prototype] has no setter:
    the own property is replaced or added.  Under the key [__proto__]
    (see [prototypeSetter] below) the source calls the setter of
    [Object.prototype] and adds no own property. *)
Definition set (k : K) (v : V) (o : list (K * V)) : list (K * V) :=
  match get k o with
  | Some _ => replace k v o
  | None =>
      match array_index k with
      | Some n => insert_index n k v o
      | None => o ++ [(k, v)]
      end
  end.

(** [delete o[k]] *)
Fixpoint delete (k : K) (o : list (K * V)) : list (K * V) :=
  match o with
  | [] => []
  | (k', v') :: o' =>
      if decide (k = k') then delete k o' else (k', v') :: delete k o'
  end.

(** [Object.keys(o)] *)
Definition keys (o : list (K * V)) : list K := map fst o.

End Object.

(** String methods. *)

(** [s.slice(1, -1)] *)
Definition slice_1_m1 (s : string) : string :=
  String.substring 1 (String.length s - 2) s.

(** [s.indexOf(t) > -1] *)
Definition includes (t s : string) : bool :=
  match String.index 0 t s with Some _ => true | None => false end.

(** The names of the members of [Object.prototype], which every plain
    object inherits. *)
Definition prototypeMember (k : string) : bool :=
  existsb (String.eqb k)
    ["constructor"; "__defineGetter__"; "__defineSetter__"; "hasOwnProperty";
     "__lookupGetter__"; "__lookupSetter__"; "isPrototypeOf";
     "propertyIsEnumerable"; "toString"; "valueOf"; "__proto__"; "toLocaleString"].

(** The one member of [Object.prototype] that has a setter. *)
Definition prototypeSetter (k : string) : bool := String.eqb k "__proto__".

(** The text [s.replace(t, r)] puts in the place of the match, for a
    string pattern: in [r], [$$] stands for [$], [$&] for the match, and
    [$`] and [$'] for the text before and after the match; any other [$]
    stands for itself, as a string pattern has no capture group. *)
Fixpoint substitution (matched before after : string) (r : string) : string :=
  match r with
  | EmptyString => EmptyString
  | String a r' =>
      if Ascii.eqb a "$" then
        match r' with
        | String b r'' =>
            if Ascii.eqb b "$"
            then String "$" (substitution matched before after r'')
            else if Ascii.eqb b "&"
            then matched +:+ substitution matched before after r''
            else if Ascii.eqb b "`"
            then before +:+ substitution matched before after r''
            else if Ascii.eqb b "'"
            then after +:+ substitution matched before after r''
            else String a (substitution matched before after r')
        | EmptyString => String a EmptyString
        end
      else String a (substitution matched before after r')
  end.

(** [s.replace(t, r)] for a string pattern [t]: the first occurrence. *)
Definition replace_first (t r s : string) : string :=
  match String.index 0 t s with
  | Some i =>
      let before := String.substring 0 i s in
      let after :=
        String.substring (i + String.length t)
          (String.length s - (i + String.length t)) s in
      before +:+ substitution t before after r +:+ after
  | None => s
  end.

(** [s.replace(/^t/, '')] for a literal prefix [t]. *)
Definition strip_prefix (t s : string) : string :=
  if String.prefix t s
  then String.substring (String.length t) (String.length s - String.length t) s
  else s.

(** [arr[i]] on an array: [undefined] out of range. *)
Definition nth_value (l : list value) (i : nat) : value :=
  match l !! i with Some v => v | None => VUndef end.

(** [arr[i] = v] on an array: the array is extended with holes. *)
Definition set_nth (l : list value) (i : nat) (v : value) : list value :=
  if decide (i < length l) then <[i := v]> l
  else l ++ List.repeat VUndef (i - length l) ++ [v].

End Js.

Import Js.

(** ** The front-end: the part of the TypeScript compiler API the engine uses *)

Module ts.

(** [ts.SyntaxKind]: the kinds the engine distinguishes; every other kind
    is [Other n].  [Unknown] is kind [0], the only falsy one. *)
Module SyntaxKind.
Inductive t : Type :=
| Unknown
| NumericLiteral
| StringLiteral
| TrueKeyword
| FalseKeyword
| Identifier
| EqualsToken
| ArrayLiteralExpression
| ObjectLiteralExpression
| PropertyAccessExpression
| ElementAccessExpression
| CallExpression
| BinaryExpression
| VariableDeclaration
| VariableDeclarationList
| ParameterDecl
| PropertyAssignment
| FunctionDeclaration
| ReturnStatement
| ForOfStatement
| Other (n : nat).

#[global] Instance eq_dec : EqDecision t.
Proof. solve_decision. Defined.

(** [a == b] *)
Definition eqb (a b : t) : bool :=
  match a, b with
  | Unknown, Unknown
  | NumericLiteral, NumericLiteral
  | StringLiteral, StringLiteral
  | TrueKeyword, TrueKeyword
  | FalseKeyword, FalseKeyword
  | Identifier, Identifier
  | EqualsToken, EqualsToken
  | ArrayLiteralExpression, ArrayLiteralExpression
  | ObjectLiteralExpression, ObjectLiteralExpression
  | PropertyAccessExpression, PropertyAccessExpression
  | ElementAccessExpression, ElementAccessExpression
  | CallExpression, CallExpression
  | BinaryExpression, BinaryExpression
  | VariableDeclaration, VariableDeclaration
  | VariableDeclarationList, VariableDeclarationList
  | ParameterDecl, ParameterDecl
  | PropertyAssignment, PropertyAssignment
  | FunctionDeclaration, FunctionDeclaration
  | ReturnStatement, ReturnStatement
  | ForOfStatement, ForOfStatement => true
  | Other n, Other m => Nat.eqb n m
  | _, _ => false
  end.
End SyntaxKind.

(** [ts.TypeFlags] (TypeScript 1.8): the flags the engine tests. *)
Module TypeFlags.
Definition Any : Z := 1.
Definition String : Z := 2.
Definition Number : Z := 4.
Definition Boolean : Z := 8.
Definition Void : Z := 16.
Definition Class_ : Z := 1024.
Definition Interface : Z := 2048.
Definition Reference : Z := 4096.
Definition Tuple : Z := 8192.
Definition Anonymous : Z := 65536.
Definition ObjectType : Z :=
  Z.lor Class_ (Z.lor Interface (Z.lor Reference (Z.lor Tuple Anonymous))).
End TypeFlags.

(** [ts.Node].  [children] are the nodes [getChildren()] yields, without
    the punctuation tokens and with syntax lists flattened; the named
    fields of each kind are read from them by position:
    - [CallExpression]: the callee, then the arguments;
    - [PropertyAccessExpression]: [expression], [name];
    - [ElementAccessExpression]: [expression], [argumentExpression];
    - [BinaryExpression]: [left], [operatorToken], [right];
    - [VariableDeclaration], [ParameterDecl] (kind [Parameter]),
      [PropertyAssignment]: [name],
      then the [initializer] if there is one;
    - [ReturnStatement]: the [expression] if there is one;
    - [ForOfStatement]: [initializer], [expression], [statement];
    - [VariableDeclarationList]: the [declarations];
    - [ArrayLiteralExpression]: the [elements];
    - a function-like node: its [parameters] are its children of kind
      [ParameterDecl].
    [node.parent] is not a field: the traversal carries the ancestors. *)
Inductive Node : Type :=
  mkNode (kind : SyntaxKind.t) (pos : N) (text : string) (children : list Node).

Definition kind (n : Node) : SyntaxKind.t := let 'mkNode k _ _ _ := n in k.
Definition pos (n : Node) : N := let 'mkNode _ p _ _ := n in p.
Definition getText (n : Node) : string := let 'mkNode _ _ s _ := n in s.
Definition getChildren (n : Node) : list Node := let 'mkNode _ _ _ c := n in c.

Definition child (i : nat) (n : Node) : option Node := getChildren n !! i.

Definition is_kind (k : SyntaxKind.t) (n : Node) : bool :=
  SyntaxKind.eqb (kind n) k.

(** [node.expression] *)
Definition expression (n : Node) : option Node :=
  match kind n with
  | SyntaxKind.CallExpression
  | SyntaxKind.PropertyAccessExpression
  | SyntaxKind.ElementAccessExpression
  | SyntaxKind.ReturnStatement => child 0 n
  | SyntaxKind.ForOfStatement => child 1 n
  | _ => None
  end.

(** [call.arguments] *)
Definition arguments (n : Node) : list Node :=
  match kind n with
  | SyntaxKind.CallExpression => tail (getChildren n)
  | _ => []
  end.

(** [node.name] *)
Definition name (n : Node) : option Node :=
  match kind n with
  | SyntaxKind.PropertyAccessExpression => child 1 n
  | SyntaxKind.VariableDeclaration
  | SyntaxKind.ParameterDecl
  | SyntaxKind.PropertyAssignment => child 0 n
  | _ => None
  end.

(** [elemAccess.argumentExpression] *)
Definition argumentExpression (n : Node) : option Node :=
  match kind n with
  | SyntaxKind.ElementAccessExpression => child 1 n
  | _ => None
  end.

(** [node.initializer] *)
Definition initializer (n : Node) : option Node :=
  match kind n with
  | SyntaxKind.VariableDeclaration
  | SyntaxKind.ParameterDecl
  | SyntaxKind.PropertyAssignment => child 1 n
  | SyntaxKind.ForOfStatement => child 0 n
  | _ => None
  end.

Definition left (n : Node) : option Node :=
  match kind n with SyntaxKind.BinaryExpression => child 0 n | _ => None end.
Definition operatorToken (n : Node) : option Node :=
  match kind n with SyntaxKind.BinaryExpression => child 1 n | _ => None end.
Definition right (n : Node) : option Node :=
  match kind n with SyntaxKind.BinaryExpression => child 2 n | _ => None end.

(** [arrLiteral.elements] *)
Definition elements (n : Node) : list Node :=
  match kind n with
  | SyntaxKind.ArrayLiteralExpression => getChildren n
  | _ => []
  end.

(** [declList.declarations] *)
Definition declarations (n : Node) : list Node :=
  match kind n with
  | SyntaxKind.VariableDeclarationList => getChildren n
  | _ => []
  end.

(** [funcDecl.parameters], for any function-like node. *)
Definition parameters (n : Node) : list Node :=
  List.filter (is_kind SyntaxKind.ParameterDecl) (getChildren n).

(** [ts.Symbol], for the symbols that have a value declaration. *)
Record Symbol : Type := mkSymbol {
  symbolName : string;
  valueDeclaration : Node;
  symbolDeclarations : list Node
}.

(** [ts.Type].  [getProperties] lists, for each property symbol, the type
    the checker gives it ([getTypeOfSymbolAtLocation]) and, when its
    declaration is initialised with an array literal, the type the checker
    gives the first element of that literal.  [intrinsicName] and
    [signatures] record whether the object has the fields of an intrinsic
    type, or [callSignatures] and [constructSignatures]. *)
Inductive Type_ : Type :=
  mkType (flags : Z) (intrinsicName : option string) (signatures : bool)
         (getProperties : list (Symbol * Type_ * option Type_)).

Definition flags (t : Type_) : Z := let 'mkType f _ _ _ := t in f.
Definition intrinsicName (t : Type_) : option string :=
  let 'mkType _ i _ _ := t in i.
Definition signatures (t : Type_) : bool := let 'mkType _ _ s _ := t in s.
Definition getProperties (t : Type_) : list (Symbol * Type_ * option Type_) :=
  let 'mkType _ _ _ p := t in p.

(** [ts.TypeChecker] *)
Record TypeChecker : Type := mkTypeChecker {
  getTypeAtLocation : Node -> option Type_;
  getSymbolAtLocation : Node -> option Symbol
}.

End ts.

(** ** Type values and the state of the engine *)

Definition UniversalVarType : string := "struct js_var *".
Definition PointerVarType : string := "void *".
Definition StringVarType : string := "const char *".
Definition NumberVarType : string := "int16_t".
Definition BooleanVarType : string := "uint8_t".

(** A [CType] is a [value]: a string, or a reference to an [ArrayType],
    [StructType] or [DictType] object.  These objects and the [TypePromise]s
    are shared and mutated in place, so they live in a heap.  Boolean fields
    that are only ever tested for truthiness hold [false] for [undefined]. *)
Inductive HeapObj : Type :=
| ArrayType (elementType : value) (capacity : N) (isDynamicArray : bool)
| StructType (structName : string) (properties : list (string * value))
| DictType (elementType : value)
| TypePromise (resolved : bool) (associatedProperty : option string)
    (arrayOf : bool) (associatedNode : ts.Node) (element : value).

Record VariableInfo : Type := mkVariableInfo {
  name : string;
  type : value;
  references : list ts.Node;
  declaration : option ts.Node;
  requiresAllocation : bool
}.

Record VariableData : Type := mkVariableData {
  tsType : option ts.Type_;
  assignmentTypes : list (string * value);
  typePromises : list loc;
  addedProperties : list (string * value);
  parameterIndex : option nat;
  parameterFuncDeclPos : option N;
  objLiteralAssigned : bool;
  isDynamicArray : bool;
  isDict : bool
}.

Record TypeHelper : Type := mkTypeHelper {
  heap : list HeapObj;
  variables : list (N * VariableInfo);
  userStructs : list (string * loc);
  variablesData : list (N * VariableData);
  functionCallsData : list (N * list value);
  functionReturnsData : list (ScopeId * value);
  functionReturnTypes : list (ScopeId * value);
  functionPrototypes : list (N * ts.Node);
  arrayLiteralsTypes : list (N * value);
  objectLiteralsTypes : list (N * value);
  temporaryVariables : list (ScopeId * list string)
}.

(** [new TypeHelper(typeChecker)] *)
Definition newTypeHelper : TypeHelper :=
  mkTypeHelper [] [] [] [] [] [] [] [] [] [] [].

(** [new VariableInfo()], [new VariableData()] *)
Definition newVariableInfo : VariableInfo :=
  mkVariableInfo "" VUndef [] None false.
Definition newVariableData : VariableData :=
  mkVariableData None [] [] [] None None false false false.

Definition with_heap (f : list HeapObj -> list HeapObj) (s : TypeHelper) :=
  mkTypeHelper (f (heap s)) (variables s) (userStructs s) (variablesData s)
    (functionCallsData s) (functionReturnsData s) (functionReturnTypes s)
    (functionPrototypes s) (arrayLiteralsTypes s) (objectLiteralsTypes s)
    (temporaryVariables s).
Definition with_variables f (s : TypeHelper) :=
  mkTypeHelper (heap s) (f (variables s)) (userStructs s) (variablesData s)
    (functionCallsData s) (functionReturnsData s) (functionReturnTypes s)
    (functionPrototypes s) (arrayLiteralsTypes s) (objectLiteralsTypes s)
    (temporaryVariables s).
Definition with_userStructs f (s : TypeHelper) :=
  mkTypeHelper (heap s) (variables s) (f (userStructs s)) (variablesData s)
    (functionCallsData s) (functionReturnsData s) (functionReturnTypes s)
    (functionPrototypes s) (arrayLiteralsTypes s) (objectLiteralsTypes s)
    (temporaryVariables s).
Definition with_variablesData f (s : TypeHelper) :=
  mkTypeHelper (heap s) (variables s) (userStructs s) (f (variablesData s))
    (functionCallsData s) (functionReturnsData s) (functionReturnTypes s)
    (functionPrototypes s) (arrayLiteralsTypes s) (objectLiteralsTypes s)
    (temporaryVariables s).
Definition with_functionCallsData f (s : TypeHelper) :=
  mkTypeHelper (heap s) (variables s) (userStructs s) (variablesData s)
    (f (functionCallsData s)) (functionReturnsData s) (functionReturnTypes s)
    (functionPrototypes s) (arrayLiteralsTypes s) (objectLiteralsTypes s)
    (temporaryVariables s).
Definition with_functionReturnsData f (s : TypeHelper) :=
  mkTypeHelper (heap s) (variables s) (userStructs s) (variablesData s)
    (functionCallsData s) (f (functionReturnsData s)) (functionReturnTypes s)
    (functionPrototypes s) (arrayLiteralsTypes s) (objectLiteralsTypes s)
    (temporaryVariables s).
Definition with_functionReturnTypes f (s : TypeHelper) :=
  mkTypeHelper (heap s) (variables s) (userStructs s) (variablesData s)
    (functionCallsData s) (functionReturnsData s) (f (functionReturnTypes s))
    (functionPrototypes s) (arrayLiteralsTypes s) (objectLiteralsTypes s)
    (temporaryVariables s).
Definition with_functionPrototypes f (s : TypeHelper) :=
  mkTypeHelper (heap s) (variables s) (userStructs s) (variablesData s)
    (functionCallsData s) (functionReturnsData s) (functionReturnTypes s)
    (f (functionPrototypes s)) (arrayLiteralsTypes s) (objectLiteralsTypes s)
    (temporaryVariables s).
Definition with_arrayLiteralsTypes f (s : TypeHelper) :=
  mkTypeHelper (heap s) (variables s) (userStructs s) (variablesData s)
    (functionCallsData s) (functionReturnsData s) (functionReturnTypes s)
    (functionPrototypes s) (f (arrayLiteralsTypes s)) (objectLiteralsTypes s)
    (temporaryVariables s).
Definition with_objectLiteralsTypes f (s : TypeHelper) :=
  mkTypeHelper (heap s) (variables s) (userStructs s) (variablesData s)
    (functionCallsData s) (functionReturnsData s) (functionReturnTypes s)
    (functionPrototypes s) (arrayLiteralsTypes s) (f (objectLiteralsTypes s))
    (temporaryVariables s).

(** ** The monad of the methods: state, and the exceptions of the runtime *)

Inductive Exn : Type :=
| TypeError
| Error (message : string).

Inductive Res (A : Type) : Type :=
| Ok (a : A) (s : TypeHelper)
| Throw (e : Exn).
Arguments Ok {A} a s.
Arguments Throw {A} e.

Definition M (A : Type) : Type := TypeHelper -> Res A.

Definition ret {A} (a : A) : M A := fun s => Ok a s.
Definition bind {A B} (m : M A) (k : A -> M B) : M B :=
  fun s => match m s with Ok a s' => k a s' | Throw e => Throw e end.
Definition throw {A} (e : Exn) : M A := fun _ => Throw e.
Definition gets {A} (f : TypeHelper -> A) : M A := fun s => Ok (f s) s.
Definition modify (f : TypeHelper -> TypeHelper) : M unit := fun s => Ok tt (f s).

Declare Scope engine_scope.
Delimit Scope engine_scope with engine.
Notation "x <- m ;; k" := (bind m (fun x => k))
  (at level 100, m at next level, right associativity) : engine_scope.
Notation "m ;; k" := (bind m (fun _ => k))
  (at level 100, right associativity) : engine_scope.
Open Scope engine_scope.

(** Reading a field of something that may be [undefined]. *)
Definition defined {A} (o : option A) : M A :=
  match o with Some a => ret a | None => throw TypeError end.

(** [for (x of l) body(x)] *)
Fixpoint forEach {A} (body : A -> M unit) (l : list A) : M unit :=
  match l with
  | [] => ret tt
  | x :: l' => body x ;; forEach body l'
  end.

(** [new C(...)] *)
Definition new (o : HeapObj) : M loc :=
  fun s => Ok (length (heap s)) (with_heap (fun h => h ++ [o]) s).

Definition object_at (h : list HeapObj) (v : value) : option HeapObj :=
  match v with VRef l => h !! l | _ => None end.

(** [v instanceof ArrayType] and the like. *)
Definition instanceof_ArrayType (h : list HeapObj) (v : value) : bool :=
  match object_at h v with Some (ArrayType _ _ _) => true | _ => false end.
Definition instanceof_StructType (h : list HeapObj) (v : value) : bool :=
  match object_at h v with Some (StructType _ _) => true | _ => false end.
Definition instanceof_DictType (h : list HeapObj) (v : value) : bool :=
  match object_at h v with Some (DictType _) => true | _ => false end.
Definition instanceof_TypePromise (h : list HeapObj) (v : value) : bool :=
  match object_at h v with Some (TypePromise _ _ _ _ _) => true | _ => false end.

(** ** Textual form of a type *)

(** [obj.getText()] for the object at [l].  The recursion follows
    [elementType] references; [fuel] bounds it by the size of the heap, and
    [None] stands for the exception of a call on something that has no
    [getText] method (or of a cyclic chain). *)
Fixpoint getText_fuel (fuel : nat) (h : list HeapObj) (l : loc) : option string :=
  match fuel with
  | O => None
  | S fuel' =>
      let elementTypeText (elementType : value) : option string :=
        match elementType with
        | VStr s => Some s
        | VRef l' => getText_fuel fuel' h l'
        | _ => None
        end in
      match h !! l with
      | Some (ArrayType elementType capacity isDynamicArray) =>
          match elementTypeText elementType with
          | Some t =>
              if isDynamicArray then Some ("ARRAY(" +:+ t +:+ ")")
              else Some ("static " +:+ t +:+ " {var}[" +:+ pretty capacity +:+ "]")
          | None => None
          end
      | Some (StructType structName _) => Some structName
      | Some (DictType elementType) =>
          match elementTypeText elementType with
          | Some t => Some ("DICT(" +:+ t +:+ ")")
          | None => None
          end
      | _ => None
      end
  end.

Definition getText (h : list HeapObj) (l : loc) : option string :=
  getText_fuel (S (length h)) h l.

(** [typeof t === 'string' ? t : t.getText()] *)
Definition typeText (h : list HeapObj) (t : value) : option string :=
  match t with
  | VStr s => Some s
  | VRef l => getText h l
  | _ => None
  end.

Definition getTextM (l : loc) : M string :=
  h <- gets heap ;; defined (getText h l).
Definition typeTextM (t : value) : M string :=
  h <- gets heap ;; defined (typeText h t).

(** ** The methods of [TypeHelper] *)

Definition newline : string := String (ascii_of_nat 10) EmptyString.

(** The line of one property in [getStructureBodyString]. *)
Definition structureBodyLine (h : list HeapObj) (propName : string)
    (propType : value) : option string :=
  match propType with
  | VStr s => Some ("    " +:+ s +:+ " " +:+ propName +:+ ";" +:+ newline)
  | VRef l =>
      match getText h l with
      | Some propTypeText =>
          if instanceof_ArrayType h propType && includes "{var}" propTypeText
          then Some ("    "
                 +:+ replace_first "{var}" propName (strip_prefix "static " propTypeText)
                 +:+ ";" +:+ newline)
          else Some ("    " +:+ propTypeText +:+ " " +:+ propName +:+ ";" +:+ newline)
      | None => None
      end
  | _ => None
  end.

Fixpoint structureBodyLines (h : list HeapObj) (properties : list (string * value))
    (userStructCode : string) : option string :=
  match properties with
  | [] => Some userStructCode
  | (propName, propType) :: properties' =>
      match structureBodyLine h propName propType with
      | Some line => structureBodyLines h properties' (userStructCode +:+ line)
      | None => None
      end
  end.

Definition structureBodyString (h : list HeapObj)
    (properties : list (string * value)) : option string :=
  match structureBodyLines h properties ("{" +:+ newline) with
  | Some userStructCode => Some (userStructCode +:+ "};" +:+ newline)
  | None => None
  end.

Definition getStructureBodyString (properties : list (string * value)) : M string :=
  h <- gets heap ;; defined (structureBodyString h properties).

(** The [while] loop of [generateStructure] that looks for the first [i]
    from [2] on with no struct named [varName_i_t].  Among [length keys + 1]
    candidates one is free, which bounds the search. *)
Fixpoint freeStructIndex (fuel : nat) (userStructs : list (string * loc))
    (varName : string) (i : N) : N :=
  match fuel with
  | O => i
  | S fuel' =>
      match Js.get (varName +:+ "_" +:+ pretty i +:+ "_t") userStructs with
      | Some _ => freeStructIndex fuel' userStructs varName (i + 1)%N
      | None => i
      end
  end.

(** The search of [generateStructure] for a registered struct with the
    body [userStructCode]: the name and the object of the first one. *)
Fixpoint findStructure (h : list HeapObj) (userStructCode : string)
    (structs : list (string * loc)) : M (option string) :=
  match structs with
  | [] => ret None
  | (s, l) :: structs' =>
      match h !! l with
      | Some (StructType _ properties) =>
          code <- defined (structureBodyString h properties) ;;
          if String.eqb code userStructCode then ret (Some s)
          else findStructure h userStructCode structs'
      | _ => throw TypeError
      end
  end.

Section TypeHelper.

Variable typeChecker : ts.TypeChecker.

(** [convertType], with [generateStructure] as a parameter: the two
    methods call each other. *)
Definition convertType_with
    (generateStructure : ts.Type_ -> option ts.Node -> M value)
    (tsType : option ts.Type_) (ident : option ts.Node) : M value :=
  match tsType with
  | None => ret (VStr "void")
  | Some t =>
      if (ts.flags t =? ts.TypeFlags.Void)%Z then ret (VStr "void")
      else if (ts.flags t =? ts.TypeFlags.String)%Z then ret (VStr StringVarType)
      else if (ts.flags t =? ts.TypeFlags.Number)%Z then ret (VStr NumberVarType)
      else if (ts.flags t =? ts.TypeFlags.Boolean)%Z then ret (VStr BooleanVarType)
      else if negb (Z.land (ts.flags t) ts.TypeFlags.ObjectType =? 0)%Z
              && (0 <? length (ts.getProperties t))%nat
      then generateStructure t ident
      else if (ts.flags t =? ts.TypeFlags.Any)%Z then ret (VStr PointerVarType)
      else ret (VStr UniversalVarType)
  end.

(** [determineArrayType], with the conversion and the checker's type of
    the first element as parameters. *)
Definition determineArrayType_with
    (convertType : option ts.Type_ -> option ts.Node -> M value)
    (arrLiteral : ts.Node) (firstElementType : option ts.Type_) : M value :=
  if (0 <? length (ts.elements arrLiteral))%nat
  then
    elementType <- convertType firstElementType None ;;
    let cap := N.of_nat (length (ts.elements arrLiteral)) in
    l <- new (ArrayType elementType cap false) ;;
    modify (with_arrayLiteralsTypes (Js.set (ts.pos arrLiteral) (VRef l))) ;;
    ret (VRef l)
  else ret (VStr UniversalVarType).

(** The name [generateStructure] first gives to the struct. *)
Definition proposedStructName (userStructs : list (string * loc))
    (ident : option ts.Node) : string :=
  let structName := "struct_" +:+ pretty (N.of_nat (length (Js.keys userStructs))) +:+ "_t" in
  match ident with
  | Some id =>
      let varName := ts.getText id in
      if String.eqb varName "" then structName
      else
        match Js.get (varName +:+ "_t") userStructs with
        | None => varName +:+ "_t"
        | Some _ =>
            let i := freeStructIndex (S (length userStructs)) userStructs varName 2 in
            varName +:+ "_" +:+ pretty i +:+ "_t"
        end
  | None => structName
  end.

(** The tail of [generateStructure], once [userStructInfo] is built. *)
Definition registerStructure (structName : string)
    (userStructInfo : list (string * value)) : M value :=
  userStructCode <- getStructureBodyString userStructInfo ;;
  found <- (if (0 <? length (Js.keys userStructInfo))%nat
            then h <- gets heap ;; us <- gets userStructs ;;
                 findStructure h userStructCode us
            else ret None) ;;
  match found with
  | Some s =>
      us <- gets userStructs ;;
      ret (match Js.get s us with Some l => VRef l | None => VUndef end)
  | None =>
      l <- new (StructType ("struct " +:+ structName +:+ " *") userStructInfo) ;;
      modify (with_userStructs (Js.set structName l)) ;;
      ret (VRef l)
  end.

Fixpoint generateStructure (tsType : ts.Type_) (ident : option ts.Node)
    {struct tsType} : M value :=
  us <- gets userStructs ;;
  let structName := proposedStructName us ident in
  userStructInfo <-
    (let 'ts.mkType _ _ _ props := tsType in
     (fix properties_loop (props : list (ts.Symbol * ts.Type_ * option ts.Type_))
          (userStructInfo : list (string * value)) {struct props}
        : M (list (string * value)) :=
        match props with
        | [] => ret userStructInfo
        | (prop, propTsType, firstElementType) :: props' =>
            let decl := ts.valueDeclaration prop in
            propType <- convertType_with generateStructure (Some propTsType) (ts.name decl) ;;
            propType <-
              (if eq_str propType UniversalVarType
                  && ts.is_kind ts.SyntaxKind.PropertyAssignment decl
               then
                 match ts.initializer decl with
                 | Some init =>
                     if ts.is_kind ts.SyntaxKind.ArrayLiteralExpression init
                     then determineArrayType_with (convertType_with generateStructure)
                            init firstElementType
                     else ret propType
                 | None => ret propType
                 end
               else ret propType) ;;
            properties_loop props' (Js.set (ts.symbolName prop) propType userStructInfo)
        end) props []) ;;
  registerStructure structName userStructInfo.

Definition convertType : option ts.Type_ -> option ts.Node -> M value :=
  convertType_with generateStructure.

(** The loop of [generateStructure] over [tsType.getProperties()], which
    builds [userStructInfo]. *)
Fixpoint propertiesInfo (props : list (ts.Symbol * ts.Type_ * option ts.Type_))
    (userStructInfo : list (string * value)) : M (list (string * value)) :=
  match props with
  | [] => ret userStructInfo
  | (prop, propTsType, firstElementType) :: props' =>
      let decl := ts.valueDeclaration prop in
      propType <- convertType (Some propTsType) (ts.name decl) ;;
      propType <-
        (if eq_str propType UniversalVarType
            && ts.is_kind ts.SyntaxKind.PropertyAssignment decl
         then
           match ts.initializer decl with
           | Some init =>
               if ts.is_kind ts.SyntaxKind.ArrayLiteralExpression init
               then determineArrayType_with convertType init firstElementType
               else ret propType
           | None => ret propType
           end
         else ret propType) ;;
      propertiesInfo props' (Js.set (ts.symbolName prop) propType userStructInfo)
  end.

Definition determineArrayType (arrLiteral : ts.Node) : M value :=
  determineArrayType_with convertType arrLiteral
    (match ts.elements arrLiteral with
     | e :: _ => ts.getTypeAtLocation typeChecker e
     | [] => None
     end).

(** [getVariableInfo]: [None] is [null] (no symbol) or [undefined] (no
    entry in [variables]). *)
Definition getVariableInfo (node : ts.Node) : M (option VariableInfo) :=
  match ts.getSymbolAtLocation typeChecker node with
  | Some symbol =>
      gets (fun s => Js.get (ts.pos (ts.valueDeclaration symbol)) (variables s))
  | None => ret None
  end.

(** [table[k]]: the own entry, [undefined] when there is none (see
    [Js.get] for the keys that name a member of [Object.prototype]). *)
Definition lookup_value {K} `{Key K} (k : K) (table : list (K * value)) : value :=
  match Js.get k table with Some v => v | None => VUndef end.

Fixpoint getCType (node : ts.Node) : M value :=
  let 'ts.mkNode kind pos _ children := node in
  match kind with
  | ts.SyntaxKind.Unknown => ret VNull
  | ts.SyntaxKind.NumericLiteral => ret (VStr NumberVarType)
  | ts.SyntaxKind.TrueKeyword
  | ts.SyntaxKind.FalseKeyword => ret (VStr BooleanVarType)
  | ts.SyntaxKind.StringLiteral => ret (VStr StringVarType)
  | ts.SyntaxKind.Identifier =>
      varInfo <- getVariableInfo node ;;
      match varInfo with
      | Some vi => ret (or_else (type vi) VNull)
      | None => ret VNull
      end
  | ts.SyntaxKind.ElementAccessExpression =>
      match children with
      | expression :: _ =>
          parentObjectType <- getCType expression ;;
          h <- gets heap ;;
          match object_at h parentObjectType with
          | Some (ArrayType elementType _ _) => ret elementType
          | Some (StructType _ properties) =>
              arg <- defined (ts.argumentExpression node) ;;
              ret (lookup_value (slice_1_m1 (ts.getText arg)) properties)
          | Some (DictType elementType) => ret elementType
          | _ => ret VNull
          end
      | [] => throw TypeError
      end
  | ts.SyntaxKind.PropertyAccessExpression =>
      match children with
      | expression :: _ =>
          parentObjectType <- getCType expression ;;
          h <- gets heap ;;
          match object_at h parentObjectType with
          | Some (StructType _ properties) =>
              nm <- defined (ts.name node) ;;
              ret (lookup_value (ts.getText nm) properties)
          | Some (ArrayType _ _ _) =>
              nm <- defined (ts.name node) ;;
              if String.eqb (ts.getText nm) "length" then ret (VStr NumberVarType)
              else ret VNull
          | _ =>
              if eq_str parentObjectType StringVarType
              then
                nm <- defined (ts.name node) ;;
                if String.eqb (ts.getText nm) "length" then ret (VStr NumberVarType)
                else ret VNull
              else ret VNull
          end
      | [] => throw TypeError
      end
  | ts.SyntaxKind.CallExpression =>
      match children with
      | callee :: args =>
          let 'ts.mkNode calleeKind _ _ calleeChildren := callee in
          match calleeKind with
          | ts.SyntaxKind.PropertyAccessExpression =>
              nm <- defined (ts.name callee) ;;
              let method := ts.getText nm in
              let receiverType : M value :=
                match calleeChildren with
                | receiver :: _ => getCType receiver
                | [] => throw TypeError
                end in
              if String.eqb method "pop" && (length args =? 0)%nat then
                arrType <- receiverType ;;
                h <- gets heap ;;
                match object_at h arrType with
                | Some (ArrayType elementType _ _) => ret elementType
                | _ => ret VNull
                end
              else if String.eqb method "push" && (length args =? 1)%nat then
                arrType <- receiverType ;;
                h <- gets heap ;;
                if instanceof_ArrayType h arrType then ret (VStr NumberVarType)
                else ret VNull
              else if String.eqb method "indexOf" && (length args =? 1)%nat then
                arrType <- receiverType ;;
                h <- gets heap ;;
                if eq_str arrType StringVarType || instanceof_ArrayType h arrType
                then ret (VStr NumberVarType)
                else ret VNull
              else ret VNull
          | ts.SyntaxKind.Identifier =>
              match ts.getSymbolAtLocation typeChecker callee with
              | Some funcSymbol =>
                  let funcDeclPos := (ts.pos (ts.valueDeclaration funcSymbol) + 1)%N in
                  gets (fun s => lookup_value (FuncScope funcDeclPos) (functionReturnTypes s))
              | None => ret VNull
              end
          | _ => ret VNull
          end
      | [] => throw TypeError
      end
  | ts.SyntaxKind.ArrayLiteralExpression =>
      gets (fun s => lookup_value pos (arrayLiteralsTypes s))
  | ts.SyntaxKind.ObjectLiteralExpression =>
      gets (fun s => lookup_value pos (objectLiteralsTypes s))
  | ts.SyntaxKind.FunctionDeclaration =>
      gets (fun s => or_else (lookup_value (FuncScope (pos + 1)) (functionReturnTypes s))
                       (VStr "void"))
  | _ =>
      match ts.getTypeAtLocation typeChecker node with
      | Some tsType =>
          type <- convertType (Some tsType) None ;;
          if negb (eq_str type UniversalVarType) && negb (eq_str type PointerVarType)
          then ret type
          else ret VNull
      | None => ret VUndef
      end
  end.

(** What [getTypeString] may be given: a type value, or one of the
    front-end's objects. *)
Inductive Source : Type :=
| SourceValue (v : value)
| SourceType (t : ts.Type_)
| SourceNode (n : ts.Node)
| SourceSymbol (s : ts.Symbol).

(** The first statement of [getTypeString]: a front-end object is
    replaced by a type value.  Types carry [flags] and either
    [intrinsicName] or the two signature lists; nodes carry [kind] and
    [flags]; symbols carry [name], [flags], [valueDeclaration] and
    [declarations]; type values carry none of these; reading [flags] of
    [null] or [undefined] is an exception. *)
Definition convertSource (source : Source) : M Source :=
  match source with
  | SourceValue VUndef | SourceValue VNull => throw TypeError
  | SourceValue v => ret (SourceValue v)
  | SourceType t =>
      match ts.intrinsicName t with
      | Some _ => v <- convertType (Some t) None ;; ret (SourceValue v)
      | None =>
          if ts.signatures t
          then v <- convertType (Some t) None ;; ret (SourceValue v)
          else ret (SourceType t)
      end
  | SourceNode n => v <- getCType n ;; ret (SourceValue v)
  | SourceSymbol sym =>
      vi <- gets (fun s => Js.get (ts.pos (ts.valueDeclaration sym)) (variables s)) ;;
      vi <- defined vi ;;
      ret (SourceValue (type vi))
  end.

Definition getTypeString (source : Source) : M string :=
  source <- convertSource source ;;
  h <- gets heap ;;
  match source with
  | SourceValue v =>
      match object_at h v with
      | Some (ArrayType _ _ _)
      | Some (StructType _ _)
      | Some (DictType _) => typeTextM v
      | _ =>
          match v with
          | VStr s => ret s
          | _ => throw (Error "Unrecognized type source")
          end
      end
  | _ => throw (Error "Unrecognized type source")
  end.

Definition determineType (left right : option ts.Node) : M value :=
  match right with
  | Some r =>
      let tsType := ts.getTypeAtLocation typeChecker r in
      if ts.is_kind ts.SyntaxKind.ObjectLiteralExpression r then
        t <- defined tsType ;;
        type <- generateStructure t left ;;
        modify (with_objectLiteralsTypes (Js.set (ts.pos r) type)) ;;
        ret type
      else if ts.is_kind ts.SyntaxKind.ArrayLiteralExpression r then
        determineArrayType r
      else
        type <- convertType tsType left ;;
        if (eq_str type PointerVarType || eq_str type UniversalVarType)
           && (ts.is_kind ts.SyntaxKind.PropertyAccessExpression r
               || ts.is_kind ts.SyntaxKind.ElementAccessExpression r
               || ts.is_kind ts.SyntaxKind.Identifier r
               || ts.is_kind ts.SyntaxKind.CallExpression r)
        then l <- new (TypePromise false None false r (VBool false)) ;; ret (VRef l)
        else ret type
  | None =>
      l <- defined left ;;
      convertType (ts.getTypeAtLocation typeChecker l) left
  end.

(** Updates of the objects the tables and the heap hold. *)

Definition updateHeap (l : loc) (f : HeapObj -> HeapObj) : M unit :=
  h <- gets heap ;;
  o <- defined (h !! l) ;;
  modify (with_heap (fun h => <[l := f o]> h)).

Definition variableData (varPos : N) : M VariableData :=
  vd <- gets (fun s => Js.get varPos (variablesData s)) ;; defined vd.

Definition variableInfo (varPos : N) : M VariableInfo :=
  vi <- gets (fun s => Js.get varPos (variables s)) ;; defined vi.

Definition updateVariableData (varPos : N) (f : VariableData -> VariableData) : M unit :=
  vd <- variableData varPos ;;
  modify (with_variablesData (Js.set varPos (f vd))).

Definition updateVariableInfo (varPos : N) (f : VariableInfo -> VariableInfo) : M unit :=
  vi <- variableInfo varPos ;;
  modify (with_variables (Js.set varPos (f vi))).

Definition set_assignmentTypes f (vd : VariableData) :=
  mkVariableData (tsType vd) (f (assignmentTypes vd)) (typePromises vd)
    (addedProperties vd) (parameterIndex vd) (parameterFuncDeclPos vd)
    (objLiteralAssigned vd) (isDynamicArray vd) (isDict vd).
Definition set_typePromises f (vd : VariableData) :=
  mkVariableData (tsType vd) (assignmentTypes vd) (f (typePromises vd))
    (addedProperties vd) (parameterIndex vd) (parameterFuncDeclPos vd)
    (objLiteralAssigned vd) (isDynamicArray vd) (isDict vd).
Definition set_addedProperties f (vd : VariableData) :=
  mkVariableData (tsType vd) (assignmentTypes vd) (typePromises vd)
    (f (addedProperties vd)) (parameterIndex vd) (parameterFuncDeclPos vd)
    (objLiteralAssigned vd) (isDynamicArray vd) (isDict vd).
Definition set_parameter (i : nat) (funcDeclPos : N) (vd : VariableData) :=
  mkVariableData (tsType vd) (assignmentTypes vd) (typePromises vd)
    (addedProperties vd) (Some i) (Some funcDeclPos)
    (objLiteralAssigned vd) (isDynamicArray vd) (isDict vd).
Definition set_objLiteralAssigned (vd : VariableData) :=
  mkVariableData (tsType vd) (assignmentTypes vd) (typePromises vd)
    (addedProperties vd) (parameterIndex vd) (parameterFuncDeclPos vd)
    true (isDynamicArray vd) (isDict vd).
Definition set_isDynamicArray (vd : VariableData) :=
  mkVariableData (tsType vd) (assignmentTypes vd) (typePromises vd)
    (addedProperties vd) (parameterIndex vd) (parameterFuncDeclPos vd)
    (objLiteralAssigned vd) true (isDict vd).
Definition set_isDict (vd : VariableData) :=
  mkVariableData (tsType vd) (assignmentTypes vd) (typePromises vd)
    (addedProperties vd) (parameterIndex vd) (parameterFuncDeclPos vd)
    (objLiteralAssigned vd) (isDynamicArray vd) true.

Definition set_type (t : value) (vi : VariableInfo) :=
  mkVariableInfo (name vi) t (references vi) (declaration vi) (requiresAllocation vi).
Definition set_requiresAllocation (vi : VariableInfo) :=
  mkVariableInfo (name vi) (type vi) (references vi) (declaration vi) true.
Definition add_reference (n : ts.Node) (vi : VariableInfo) :=
  mkVariableInfo (name vi) (type vi) (references vi ++ [n]) (declaration vi)
    (requiresAllocation vi).

(** [promise.arrayOf = true], [promise.associatedProperty = p],
    [promise.resolved = true], [arr.isDynamicArray = b],
    [arr.elementType = t], [struct.properties[k] = t] *)
Definition mark_arrayOf (o : HeapObj) : HeapObj :=
  match o with
  | TypePromise r p _ n e => TypePromise r p true n e
  | _ => o
  end.
Definition put_associatedProperty (p : string) (o : HeapObj) : HeapObj :=
  match o with
  | TypePromise r _ a n e => TypePromise r (Some p) a n e
  | _ => o
  end.
Definition mark_resolved (o : HeapObj) : HeapObj :=
  match o with
  | TypePromise _ p a n e => TypePromise true p a n e
  | _ => o
  end.
Definition put_isDynamicArray (b : bool) (o : HeapObj) : HeapObj :=
  match o with
  | ArrayType t c _ => ArrayType t c b
  | _ => o
  end.
Definition put_elementType (t : value) (o : HeapObj) : HeapObj :=
  match o with
  | ArrayType _ c d => ArrayType t c d
  | _ => o
  end.
Definition put_property (k : string) (t : value) (o : HeapObj) : HeapObj :=
  match o with
  | StructType nm properties => StructType nm (Js.set k t properties)
  | _ => o
  end.

(** The promise [v] refers to, if [v instanceof TypePromise]. *)
Definition as_promise (h : list HeapObj) (v : value) : option loc :=
  match v with
  | VRef l => match h !! l with Some (TypePromise _ _ _ _ _) => Some l | _ => None end
  | _ => None
  end.

Definition addTypeToVariable (varPos : N) (left right : option ts.Node) : M unit :=
  determinedType <- determineType left right ;;
  h <- gets heap ;;
  match as_promise h determinedType with
  | Some l => updateVariableData varPos (set_typePromises (fun ps => ps ++ [l]))
  | None =>
      _ <- variableData varPos ;;
      key <- getTypeString (SourceValue determinedType) ;;
      updateVariableData varPos (set_assignmentTypes (Js.set key determinedType))
  end.

(** [findParentFunction], on a node and its ancestors. *)
Definition findParentFunction (path : list ts.Node) : option ts.Node :=
  List.find (ts.is_kind ts.SyntaxKind.FunctionDeclaration) path.

(** [parentFunc && parentFunc.pos + 1 || 'main'] *)
Definition scopeIdOf (path : list ts.Node) : ScopeId :=
  match findParentFunction path with
  | Some parentFunc => FuncScope (ts.pos parentFunc + 1)
  | None => MainScope
  end.

Definition kind_is (k : ts.SyntaxKind.t) (n : option ts.Node) : bool :=
  match n with Some n => ts.is_kind k n | None => false end.

(** The call-expression case of [findVariablesRecursively]. *)
Definition recordCallArgument (funcDeclPos : N) (i : nat) (arg : ts.Node) : M unit :=
  determinedType <- determineType None (Some arg) ;;
  callData <- gets (fun s => default [] (Js.get funcDeclPos (functionCallsData s))) ;;
  modify (with_functionCallsData (Js.set funcDeclPos callData)) ;;
  h <- gets heap ;;
  let old := nth_value callData i in
  if negb (truthy old) || eq_str old UniversalVarType || instanceof_TypePromise h old
  then modify (with_functionCallsData
                 (Js.set funcDeclPos (set_nth callData i determinedType)))
  else ret tt.

Fixpoint recordCallArguments (funcDeclPos : N) (i : nat) (args : list ts.Node) : M unit :=
  match args with
  | [] => ret tt
  | arg :: args' =>
      recordCallArgument funcDeclPos i arg ;;
      recordCallArguments funcDeclPos (S i) args'
  end.

Definition visitCallExpression (call : ts.Node) : M unit :=
  callee <- defined (ts.expression call) ;;
  if ts.is_kind ts.SyntaxKind.Identifier callee then
    match ts.getSymbolAtLocation typeChecker callee with
    | Some funcSymbol =>
        let funcDeclPos := (ts.pos (ts.valueDeclaration funcSymbol) + 1)%N in
        (if (ts.pos call <? funcDeclPos)%N
         then modify (with_functionPrototypes
                        (Js.set funcDeclPos (ts.valueDeclaration funcSymbol)))
         else ret tt) ;;
        recordCallArguments funcDeclPos 0 (ts.arguments call)
    | None => ret tt
    end
  else ret tt.

(** The return-statement case of [findVariablesRecursively]. *)
Definition visitReturnStatement (ancestors : list ts.Node) (ret_ : ts.Node) : M unit :=
  let scopeId := scopeIdOf (ret_ :: ancestors) in
  match ts.expression ret_ with
  | Some expression =>
      determinedType <- determineType None (Some expression) ;;
      determinedType <-
        (if eq_str determinedType UniversalVarType || eq_str determinedType PointerVarType
         then l <- new (TypePromise false None false expression (VBool false)) ;;
              ret (VRef l)
         else ret determinedType) ;;
      retData <- gets (fun s => lookup_value scopeId (functionReturnsData s)) ;;
      h <- gets heap ;;
      if negb (truthy retData) || eq_str retData UniversalVarType
         || instanceof_TypePromise h retData
      then modify (with_functionReturnsData (Js.set scopeId determinedType))
      else ret tt
  | None =>
      modify (with_functionReturnsData (Js.set scopeId (VStr "void")))
  end.

(** The identifier case of [findVariablesRecursively], by the kind of the
    parent.  [ancestors] lists [node.parent], [node.parent.parent], ... *)

Definition pushPromise (varPos : N) (l : loc) : M unit :=
  updateVariableData varPos (set_typePromises (fun ps => ps ++ [l])).

Definition visitVariableDeclarationName (ancestors : list ts.Node) (varPos : N)
    (node varDecl : ts.Node) : M unit :=
  nm <- defined (ts.name varDecl) ;;
  if String.eqb (ts.getText nm) (ts.getText node) then
    addTypeToVariable varPos (Some nm) (ts.initializer varDecl) ;;
    (if kind_is ts.SyntaxKind.ObjectLiteralExpression (ts.initializer varDecl)
     then updateVariableData varPos set_objLiteralAssigned
     else ret tt) ;;
    match ancestors !! 2 with
    | Some forOfStatement =>
        if ts.is_kind ts.SyntaxKind.ForOfStatement forOfStatement then
          forOfInitializer <- defined (ts.initializer forOfStatement) ;;
          if ts.is_kind ts.SyntaxKind.VariableDeclarationList forOfInitializer then
            first <- defined (head (ts.declarations forOfInitializer)) ;;
            if (ts.pos first =? ts.pos varDecl)%N then
              iterated <- defined (ts.expression forOfStatement) ;;
              l <- new (TypePromise false None false iterated (VBool true)) ;;
              pushPromise varPos l
            else ret tt
          else ret tt
        else ret tt
    | None => ret tt
    end
  else ret tt.

Fixpoint findParameter (p : N) (i : nat) (params : list ts.Node)
  : option (nat * ts.Node) :=
  match params with
  | [] => None
  | param :: params' =>
      if (ts.pos param =? p)%N then Some (i, param)
      else findParameter p (S i) params'
  end.

Definition visitParameterName (ancestors : list ts.Node) (varPos : N)
    (node : ts.Node) : M unit :=
  funcDecl <- defined (ancestors !! 1) ;;
  match findParameter (ts.pos node) 0 (ts.parameters funcDecl) with
  | Some (i, param) =>
      updateVariableData varPos (set_parameter i (ts.pos funcDecl + 1)) ;;
      addTypeToVariable varPos (Some node) (ts.initializer param)
  | None => ret tt
  end.

Definition visitAssignmentTarget (varPos : N) (node binExpr : ts.Node) : M unit :=
  left <- defined (ts.left binExpr) ;;
  if ts.is_kind ts.SyntaxKind.Identifier left
     && String.eqb (ts.getText left) (ts.getText node)
  then
    operatorToken <- defined (ts.operatorToken binExpr) ;;
    if ts.is_kind ts.SyntaxKind.EqualsToken operatorToken then
      addTypeToVariable varPos (Some left) (ts.right binExpr) ;;
      if kind_is ts.SyntaxKind.ObjectLiteralExpression (ts.right binExpr)
      then updateVariableData varPos set_objLiteralAssigned
      else ret tt
    else ret tt
  else ret tt.

(** The search of the [push] case for an array candidate whose element
    type has the text [dtString]. *)
Fixpoint arrayOfFound (h : list HeapObj) (dtString : string)
    (candidates : list (string * value)) : option bool :=
  match candidates with
  | [] => Some false
  | (_, at_) :: candidates' =>
      match object_at h at_ with
      | Some (ArrayType atElementType _ _) =>
          match typeText h atElementType with
          | Some atElementTypeString =>
              if String.eqb atElementTypeString dtString then Some true
              else arrayOfFound h dtString candidates'
          | None => None
          end
      | _ => arrayOfFound h dtString candidates'
      end
  end.

Definition visitPropertyAccessTarget (ancestors : list ts.Node) (varPos : N)
    (node propAccess : ts.Node) : M unit :=
  receiver <- defined (ts.expression propAccess) ;;
  (if (ts.pos receiver =? ts.pos node)%N then
     parent <- defined (ancestors !! 1) ;;
     if ts.is_kind ts.SyntaxKind.BinaryExpression parent then
       left <- defined (ts.left parent) ;;
       if (ts.pos left =? ts.pos propAccess)%N then
         operatorToken <- defined (ts.operatorToken parent) ;;
         if ts.is_kind ts.SyntaxKind.EqualsToken operatorToken then
           determinedType <- determineType (ts.name propAccess) (ts.right parent) ;;
           h <- gets heap ;;
           if instanceof_TypePromise h determinedType then ret tt
           else
             nm <- defined (ts.name propAccess) ;;
             updateVariableData varPos
               (set_addedProperties (Js.set (ts.getText nm) determinedType))
         else ret tt
       else ret tt
     else ret tt
   else ret tt) ;;
  (if ts.is_kind ts.SyntaxKind.Identifier receiver then
     nm <- defined (ts.name propAccess) ;;
     if String.eqb (ts.getText nm) "push" then
       updateVariableData varPos set_isDynamicArray ;;
       determinedType <-
         (match ancestors !! 1 with
          | Some call =>
              if ts.is_kind ts.SyntaxKind.CallExpression call then
                match ts.arguments call with
                | [arg] => determineType (Some receiver) (Some arg)
                | _ => ret (VStr UniversalVarType)
                end
              else ret (VStr UniversalVarType)
          | None => ret (VStr UniversalVarType)
          end) ;;
       h <- gets heap ;;
       match as_promise h determinedType with
       | Some l => updateHeap l mark_arrayOf ;; pushPromise varPos l
       | None =>
           (match determinedType with
            | VRef l =>
                if instanceof_ArrayType h determinedType
                then updateHeap l (put_isDynamicArray true)
                else ret tt
            | _ => ret tt
            end) ;;
           dtString <- typeTextM determinedType ;;
           vd <- variableData varPos ;;
           h <- gets heap ;;
           found <- defined (arrayOfFound h dtString (assignmentTypes vd)) ;;
           if found then ret tt
           else
             l <- new (ArrayType determinedType 0 true) ;;
             key <- getTextM l ;;
             updateVariableData varPos (set_assignmentTypes (Js.set key (VRef l)))
       end
     else ret tt
   else ret tt) ;;
  (if ts.is_kind ts.SyntaxKind.Identifier receiver then
     nm <- defined (ts.name propAccess) ;;
     if String.eqb (ts.getText nm) "pop"
     then updateVariableData varPos set_isDynamicArray
     else ret tt
   else ret tt).

(** [for (atKey in assignmentTypes)] of the numeric-index case: the
    element type of each array candidate that is still the universal
    fallback becomes [determinedType]. *)
Definition refineElementType (determinedType : value) (at_ : value) : M unit :=
  h <- gets heap ;;
  match at_ with
  | VRef l =>
      match h !! l with
      | Some (ArrayType elementType _ _) =>
          if eq_str elementType UniversalVarType
          then updateHeap l (put_elementType determinedType)
          else ret tt
      | _ => ret tt
      end
  | _ => ret tt
  end.

(** [for (atKey in assignmentTypes)] of the dynamic-key case: each struct
    candidate is deleted and a [DictType] candidate is added. *)
Definition replaceStructByDict (varPos : N) (determinedType : value)
    (atKey : string) : M unit :=
  vd <- variableData varPos ;;
  h <- gets heap ;;
  match Js.get atKey (assignmentTypes vd) with
  | Some at_ =>
      if instanceof_StructType h at_ then
        updateVariableData varPos (set_assignmentTypes (Js.delete atKey)) ;;
        l <- new (DictType determinedType) ;;
        key <- getTextM l ;;
        updateVariableData varPos (set_assignmentTypes (Js.set key (VRef l)))
      else ret tt
  | None => ret tt
  end.

(** The statements of the element-access case that record the write
    [target[argument] = ...], whose derived type is [determinedType]. *)
Definition recordElementWrite (varPos : N) (argument : ts.Node)
    (determinedType : value) : M unit :=
  h <- gets heap ;;
  if ts.is_kind ts.SyntaxKind.StringLiteral argument then
    let propName := slice_1_m1 (ts.getText argument) in
    (match as_promise h determinedType with
     | Some l => updateHeap l (put_associatedProperty propName) ;; pushPromise varPos l
     | None => ret tt
     end) ;;
    vd <- variableData varPos ;;
    let old := or_else (lookup_value propName (addedProperties vd))
                 (VStr UniversalVarType) in
    updateVariableData varPos (set_addedProperties (Js.set propName old)) ;;
    if negb (instanceof_TypePromise h determinedType) && eq_str old UniversalVarType
    then updateVariableData varPos (set_addedProperties (Js.set propName determinedType))
    else ret tt
  else if ts.is_kind ts.SyntaxKind.NumericLiteral argument then
    match as_promise h determinedType with
    | Some l => updateHeap l mark_arrayOf ;; pushPromise varPos l
    | None =>
        vd <- variableData varPos ;;
        forEach (refineElementType determinedType) (map snd (assignmentTypes vd))
    end
  else
    updateVariableData varPos set_isDict ;;
    match as_promise h determinedType with
    | Some l => updateHeap l mark_arrayOf ;; pushPromise varPos l
    | None =>
        vd <- variableData varPos ;;
        forEach (replaceStructByDict varPos determinedType)
          (Js.keys (assignmentTypes vd))
    end.

Definition visitElementAccessTarget (ancestors : list ts.Node) (varPos : N)
    (node elemAccess : ts.Node) : M unit :=
  receiver <- defined (ts.expression elemAccess) ;;
  if (ts.pos receiver =? ts.pos node)%N then
    determinedType <-
      (match ancestors !! 1 with
       | Some binExpr =>
           if ts.is_kind ts.SyntaxKind.BinaryExpression binExpr then
             left <- defined (ts.left binExpr) ;;
             if (ts.pos left =? ts.pos elemAccess)%N then
               operatorToken <- defined (ts.operatorToken binExpr) ;;
               if ts.is_kind ts.SyntaxKind.EqualsToken operatorToken
               then determineType (Some receiver) (ts.right binExpr)
               else ret (VStr UniversalVarType)
             else ret (VStr UniversalVarType)
           else ret (VStr UniversalVarType)
       | None => ret (VStr UniversalVarType)
       end) ;;
    argument <- defined (ts.argumentExpression elemAccess) ;;
    recordElementWrite varPos argument determinedType
  else ret tt.

Definition visitForOfTarget (varPos : N) (node forOfStatement : ts.Node) : M unit :=
  init <- defined (ts.initializer forOfStatement) ;;
  if ts.is_kind ts.SyntaxKind.Identifier init && (ts.pos init =? ts.pos node)%N then
    iterated <- defined (ts.expression forOfStatement) ;;
    l <- new (TypePromise false None false iterated (VBool true)) ;;
    pushPromise varPos l
  else ret tt.

Definition visitIdentifier (ancestors : list ts.Node) (node : ts.Node) : M unit :=
  match ts.getSymbolAtLocation typeChecker node with
  | Some symbol =>
      let varPos := ts.pos (ts.valueDeclaration symbol) in
      known <- gets (fun s => Js.get varPos (variables s)) ;;
      (match known with
       | Some _ => ret tt
       | None =>
           modify (with_variables
             (Js.set varPos
                (mkVariableInfo (ts.getText node) VUndef []
                   (head (ts.symbolDeclarations symbol)) false))) ;;
           modify (with_variablesData
             (Js.set varPos
                (mkVariableData (ts.getTypeAtLocation typeChecker node)
                   [] [] [] None None false false false)))
       end) ;;
      _ <- variableData varPos ;;
      updateVariableInfo varPos (add_reference node) ;;
      match ancestors with
      | parent :: _ =>
          match ts.kind parent with
          | ts.SyntaxKind.VariableDeclaration =>
              visitVariableDeclarationName ancestors varPos node parent
          | ts.SyntaxKind.ParameterDecl =>
              visitParameterName ancestors varPos node
          | ts.SyntaxKind.BinaryExpression =>
              visitAssignmentTarget varPos node parent
          | ts.SyntaxKind.PropertyAccessExpression =>
              visitPropertyAccessTarget ancestors varPos node parent
          | ts.SyntaxKind.ElementAccessExpression =>
              visitElementAccessTarget ancestors varPos node parent
          | ts.SyntaxKind.ForOfStatement =>
              visitForOfTarget varPos node parent
          | _ => ret tt
          end
      | [] => ret tt
      end
  | None => ret tt
  end.

(** The body of [findVariablesRecursively] for one node. *)
Definition visit (ancestors : list ts.Node) (node : ts.Node) : M unit :=
  match ts.kind node with
  | ts.SyntaxKind.CallExpression => visitCallExpression node
  | ts.SyntaxKind.ReturnStatement => visitReturnStatement ancestors node
  | ts.SyntaxKind.ArrayLiteralExpression =>
      known <- gets (fun s => lookup_value (ts.pos node) (arrayLiteralsTypes s)) ;;
      if truthy known then ret tt
      else _ <- determineArrayType node ;; ret tt
  | ts.SyntaxKind.ObjectLiteralExpression =>
      known <- gets (fun s => lookup_value (ts.pos node) (objectLiteralsTypes s)) ;;
      if truthy known then ret tt
      else
        t <- defined (ts.getTypeAtLocation typeChecker node) ;;
        type <- generateStructure t None ;;
        modify (with_objectLiteralsTypes (Js.set (ts.pos node) type))
  | ts.SyntaxKind.Identifier => visitIdentifier ancestors node
  | _ => ret tt
  end.

Fixpoint findVariablesRecursively (ancestors : list ts.Node) (node : ts.Node)
    {struct node} : M unit :=
  visit ancestors node ;;
  let 'ts.mkNode _ _ _ children := node in
  (fix each (cs : list ts.Node) : M unit :=
     match cs with
     | [] => ret tt
     | c :: cs' => findVariablesRecursively (node :: ancestors) c ;; each cs'
     end) children.

(** ** The fixed-point resolver *)

(** [finalType = !(type instanceof TypePromise) && type], then, for a
    promise, [finalType = getCType(type.associatedNode) || finalType] and
    [type.resolved = true] when that is truthy. *)
Definition evidenceType (type : value) : M value :=
  h <- gets heap ;;
  match type with
  | VRef l =>
      match h !! l with
      | Some (TypePromise _ _ _ associatedNode _) =>
          t <- getCType associatedNode ;;
          let finalType := or_else t (VBool false) in
          (if truthy finalType then updateHeap l mark_resolved else ret tt) ;;
          ret finalType
      | _ => ret type
      end
  | _ => ret type
  end.

(** First part of [tryResolvePromises]: the call-site evidence of a
    parameter. *)
Definition resolveParameter (varPos : N) : M bool :=
  vd <- variableData varPos ;;
  match parameterFuncDeclPos vd with
  | Some funcDeclPos =>
      if (funcDeclPos =? 0)%N then ret false
      else
        callData <- gets (fun s => Js.get funcDeclPos (functionCallsData s)) ;;
        match callData with
        | Some callData =>
            let type :=
              match parameterIndex vd with
              | Some paramIndex => nth_value callData paramIndex
              | None => VUndef
              end in
            finalType <- evidenceType type ;;
            if truthy finalType then
              vd <- variableData varPos ;;
              key <- getTypeString (SourceValue finalType) ;;
              if truthy (lookup_value key (assignmentTypes vd)) then ret false
              else
                updateVariableData varPos (set_assignmentTypes (Js.set key finalType)) ;;
                ret true
            else ret false
        | None => ret false
        end
  | None => ret false
  end.

(** Second part: one iteration of the loop over [functionReturnsData]. *)
Definition resolveReturn (funcDeclPos : ScopeId) : M bool :=
  type <- gets (fun s => lookup_value funcDeclPos (functionReturnsData s)) ;;
  finalType <- evidenceType type ;;
  known <- gets (fun s => lookup_value funcDeclPos (functionReturnTypes s)) ;;
  (if truthy known then ret tt
   else modify (with_functionReturnTypes (Js.set funcDeclPos (VStr PointerVarType)))) ;;
  known <- gets (fun s => lookup_value funcDeclPos (functionReturnTypes s)) ;;
  if truthy finalType && negb (eq_str finalType PointerVarType)
     && eq_str known PointerVarType
  then
    modify (with_functionReturnTypes (Js.set funcDeclPos finalType)) ;;
    ret true
  else ret false.

(** [for (x of l) some = body(x) || some], every [body(x)] being run. *)
Fixpoint anyOf {A} (body : A -> M bool) (l : list A) : M bool :=
  match l with
  | [] => ret false
  | x :: l' => b <- body x ;; b' <- anyOf body l' ;; ret (b || b')
  end.

(** Third part: one iteration of the loop over the promises that were
    unresolved when the loop was entered. *)
Definition resolvePromise (varPos : N) (promise : loc) : M bool :=
  h <- gets heap ;;
  o <- defined (h !! promise) ;;
  match o with
  | TypePromise _ associatedProperty arrayOf associatedNode element =>
      resolvedType <- getCType associatedNode ;;
      if not_nullish resolvedType then
        updateHeap promise mark_resolved ;;
        h <- gets heap ;;
        finalType <-
          (if arrayOf then l <- new (ArrayType resolvedType 0 true) ;; ret (VRef l)
           else
             match object_at h resolvedType with
             | Some (StructType _ properties) =>
                 if truthy element then
                   match element with
                   | VStr propName => ret (lookup_value propName properties)
                   | _ => ret resolvedType
                   end
                 else ret resolvedType
             | Some (ArrayType elementType _ _) =>
                 if truthy element then ret elementType else ret resolvedType
             | _ => ret resolvedType
             end) ;;
        (match associatedProperty with
         | Some p =>
             if String.eqb p "" then
               key <- typeTextM finalType ;;
               updateVariableData varPos (set_assignmentTypes (Js.set key finalType))
             else
               updateVariableData varPos (set_addedProperties (Js.set p finalType))
         | None =>
             key <- typeTextM finalType ;;
             updateVariableData varPos (set_assignmentTypes (Js.set key finalType))
         end) ;;
        ret true
      else ret false
  | _ => throw TypeError
  end.

Definition unresolved (h : list HeapObj) (promise : loc) : bool :=
  match h !! promise with
  | Some (TypePromise resolved _ _ _ _) => negb resolved
  | _ => true
  end.

Definition tryResolvePromises (varPos : N) : M bool :=
  fromCalls <- resolveParameter varPos ;;
  returns <- gets (fun s => Js.keys (functionReturnsData s)) ;;
  fromReturns <- anyOf resolveReturn returns ;;
  vd <- variableData varPos ;;
  h <- gets heap ;;
  fromPromises <- anyOf (resolvePromise varPos) (List.filter (unresolved h) (typePromises vd)) ;;
  ret (fromCalls || fromReturns || fromPromises).

(** [for (addPropKey in addedProperties)] of the finalization. *)
Definition mergeAddedProperty (varType : loc) (entry : string * value) : M unit :=
  h <- gets heap ;;
  if instanceof_TypePromise h (snd entry) then ret tt
  else updateHeap varType (put_property (fst entry) (snd entry)).

(** The finalization of one variable: the statements of the loop body of
    [resolvePromisesAndFinalizeTypes] before [tryResolvePromises]. *)
Definition finalizeVariable (k : N) : M unit :=
  vd <- variableData k ;;
  let types :=
    List.filter
      (fun t => negb (String.eqb t PointerVarType) && negb (String.eqb t UniversalVarType))
      (Js.keys (assignmentTypes vd)) in
  match types with
  | [t] =>
      let varType := lookup_value t (assignmentTypes vd) in
      h <- gets heap ;;
      (match varType, object_at h varType with
       | VRef l, Some (ArrayType _ _ dyn) =>
           updateHeap l (put_isDynamicArray (dyn || isDynamicArray vd)) ;;
           if isDynamicArray vd then updateVariableInfo k set_requiresAllocation
           else ret tt
       | VRef l, Some (StructType _ _) =>
           (if objLiteralAssigned vd then updateVariableInfo k set_requiresAllocation
            else ret tt) ;;
           forEach (mergeAddedProperty l) (addedProperties vd)
       | VRef l, Some (DictType _) => updateVariableInfo k set_requiresAllocation
       | _, _ => ret tt
       end) ;;
      updateVariableInfo k (set_type varType)
  | [] => updateVariableInfo k (set_type (VStr PointerVarType))
  | _ =>
      updateVariableInfo k set_requiresAllocation ;;
      updateVariableInfo k (set_type (VStr UniversalVarType))
  end.

(** One pass of the [do ... while] loop: its result is
    [somePromisesAreResolved]. *)
Fixpoint resolvePass (somePromisesAreResolved : bool) (ks : list N) : M bool :=
  match ks with
  | [] => ret somePromisesAreResolved
  | k :: ks' =>
      finalizeVariable k ;;
      some <- (if somePromisesAreResolved then ret true else tryResolvePromises k) ;;
      resolvePass some ks'
  end.

(** [resolvePromisesAndFinalizeTypes]: the loop, run for at most [fuel]
    passes; [None] when it has not stopped by then. *)
Fixpoint resolvePromisesAndFinalizeTypes (fuel : nat) (s : TypeHelper)
  : option (Res unit) :=
  match fuel with
  | O => None
  | S fuel' =>
      match resolvePass false (Js.keys (variables s)) s with
      | Ok true s' => resolvePromisesAndFinalizeTypes fuel' s'
      | Ok false s' => Some (Ok tt s')
      | Throw e => Some (Throw e)
      end
  end.

(** [figureOutVariablesAndTypes]: the collection pass over the sources,
    then the resolver. *)
Definition figureOutVariablesAndTypes (fuel : nat) (sources : list ts.Node)
    (s : TypeHelper) : option (Res unit) :=
  match forEach (findVariablesRecursively []) sources s with
  | Ok _ s' => resolvePromisesAndFinalizeTypes fuel s'
  | Throw e => Some (Throw e)
  end.

End TypeHelper.

(** ** Vocabulary of the properties *)

(** A method respects a relation when the states before and after every
    run that returns are related by it. *)
Definition respects (R : TypeHelper -> TypeHelper -> Prop) {A} (m : M A) : Prop :=
  forall s a s', m s = Ok a s' -> R s s'.

(** What the type conversion leaves alone: every table but [userStructs]
    and [arrayLiteralsTypes], and every object already in the heap. *)
Record frame (s s' : TypeHelper) : Prop := mkFrame {
  frame_heap : exists ext, heap s' = heap s ++ ext;
  frame_variables : variables s' = variables s;
  frame_variablesData : variablesData s' = variablesData s;
  frame_functionCallsData : functionCallsData s' = functionCallsData s;
  frame_functionReturnsData : functionReturnsData s' = functionReturnsData s;
  frame_functionReturnTypes : functionReturnTypes s' = functionReturnTypes s;
  frame_functionPrototypes : functionPrototypes s' = functionPrototypes s;
  frame_objectLiteralsTypes : objectLiteralsTypes s' = objectLiteralsTypes s;
  frame_temporaryVariables : temporaryVariables s' = temporaryVariables s
}.

Abbreviation framed := (respects frame).
Abbreviation pure := (respects eq).

(** Whether the evaluation of [getCType] on a node ends in the default
    branch of its [switch], where the front-end's type is converted. *)
Fixpoint reachesDefaultBranch (node : ts.Node) : bool :=
  let 'ts.mkNode kind _ _ children := node in
  match kind with
  | ts.SyntaxKind.Unknown
  | ts.SyntaxKind.NumericLiteral
  | ts.SyntaxKind.TrueKeyword
  | ts.SyntaxKind.FalseKeyword
  | ts.SyntaxKind.StringLiteral
  | ts.SyntaxKind.Identifier
  | ts.SyntaxKind.ArrayLiteralExpression
  | ts.SyntaxKind.ObjectLiteralExpression
  | ts.SyntaxKind.FunctionDeclaration => false
  | ts.SyntaxKind.ElementAccessExpression
  | ts.SyntaxKind.PropertyAccessExpression =>
      match children with
      | expression :: _ => reachesDefaultBranch expression
      | [] => false
      end
  | ts.SyntaxKind.CallExpression =>
      match children with
      | callee :: _ =>
          let 'ts.mkNode calleeKind _ _ calleeChildren := callee in
          match calleeKind, calleeChildren with
          | ts.SyntaxKind.PropertyAccessExpression, receiver :: _ =>
              reachesDefaultBranch receiver
          | _, _ => false
          end
      | [] => false
      end
  | _ => true
  end.

(** The two fallback types. *)
Definition fallback (v : value) : bool :=
  eq_str v PointerVarType || eq_str v UniversalVarType.

(** The kinds of expression whose type may become known later. *)
Definition deferrable (r : ts.Node) : bool :=
  ts.is_kind ts.SyntaxKind.PropertyAccessExpression r
  || ts.is_kind ts.SyntaxKind.ElementAccessExpression r
  || ts.is_kind ts.SyntaxKind.Identifier r
  || ts.is_kind ts.SyntaxKind.CallExpression r.

(** The state after [new TypePromise(node, element)]. *)
Definition withPromise (node : ts.Node) (element : value) (s : TypeHelper) : TypeHelper :=
  with_heap (fun h => h ++ [TypePromise false None false node element]) s.

(** The objects that are types. *)
Definition is_type_object (h : list HeapObj) (l : loc) : bool :=
  instanceof_ArrayType h (VRef l) || instanceof_StructType h (VRef l)
  || instanceof_DictType h (VRef l).

(** What [getTypeString] renders: a type object or a string. *)
Definition recognized (h : list HeapObj) (source : Source) : Prop :=
  (exists l, source = SourceValue (VRef l) /\ is_type_object h l = true)
  \/ (exists str, source = SourceValue (VStr str)).

(** The premise of the induction on the front-end's types: the property
    holds of the type of a property and of its first element. *)
Definition holds_below (P : ts.Type_ -> Prop)
    (p : ts.Symbol * ts.Type_ * option ts.Type_) : Prop :=
  let '(_, t, e) := p in
  P t /\ match e with Some t' => P t' | None => True end.

(** The properties of a struct after the merge of [addedProperties]. *)
Definition mergeInto (h : list HeapObj) (properties added : list (string * value))
  : list (string * value) :=
  fold_left
    (fun ps entry => if instanceof_TypePromise h (snd entry) then ps
                     else Js.set (fst entry) (snd entry) ps)
    added properties.

(** The candidates of a variable: the keys of its evidence set other than
    the two fallbacks. *)
Definition candidates (vd : VariableData) : list string :=
  List.filter
    (fun t => negb (String.eqb t PointerVarType) && negb (String.eqb t UniversalVarType))
    (Js.keys (assignmentTypes vd)).

(** The merge of [addedProperties] into [properties]: every added entry
    that is not a promise is there, and the other properties are kept. *)
Definition merges (h : list HeapObj) (added properties properties' : list (string * value))
  : Prop :=
  (forall p v, NoDup (Js.keys added) -> In (p, v) added ->
     instanceof_TypePromise h v = false -> Js.get p properties' = Some v)
  /\ (forall p, (forall v, In (p, v) added -> instanceof_TypePromise h v = true) ->
        Js.get p properties' = Js.get p properties).

(** The result of the search of [generateStructure], as a function. *)
Fixpoint firstStructure (h : list HeapObj) (userStructCode : string)
    (structs : list (string * loc)) : option (option string) :=
  match structs with
  | [] => Some None
  | (s, l) :: structs' =>
      match h !! l with
      | Some (StructType _ properties) =>
          match structureBodyString h properties with
          | Some code =>
              if String.eqb code userStructCode then Some (Some s)
              else firstStructure h userStructCode structs'
          | None => None
          end
      | _ => None
      end
  end.

(** An entry whose struct has the body [code]. *)
Definition hasBody (h : list HeapObj) (code : string) (entry : string * loc) : Prop :=
  exists snm ps, h !! snd entry = Some (StructType snm ps)
                 /\ structureBodyString h ps = Some code.

(** An entry whose struct has another body. *)
Definition hasOtherBody (h : list HeapObj) (code : string) (entry : string * loc) : Prop :=
  exists snm ps c, h !! snd entry = Some (StructType snm ps)
                   /\ structureBodyString h ps = Some c /\ String.eqb c code = false.

(** What [determineType] leaves alone: the evidence tables and every
    object already in the heap. *)
Record evidenceKept (s s' : TypeHelper) : Prop := mkEvidenceKept {
  kept_heap : exists ext, heap s' = heap s ++ ext;
  kept_variables : variables s' = variables s;
  kept_variablesData : variablesData s' = variablesData s;
  kept_functionCallsData : functionCallsData s' = functionCallsData s;
  kept_functionReturnsData : functionReturnsData s' = functionReturnsData s;
  kept_functionReturnTypes : functionReturnTypes s' = functionReturnTypes s
}.

(** The recorded values that later evidence replaces: none, the universal
    fallback, or a promise. *)
Definition superseded (h : list HeapObj) (old : value) : bool :=
  negb (truthy old) || eq_str old UniversalVarType || instanceof_TypePromise h old.

(** [functionCallsData[funcDeclPos] || []] *)
Definition callDataOf (funcDeclPos : N) (s : TypeHelper) : list value :=
  default [] (Js.get funcDeclPos (functionCallsData s)).

(** The recorded return evidence that a return with an expression keeps:
    anything but none, the universal fallback, or a promise. *)
Definition keptReturn (h : list HeapObj) (retData : value) : bool :=
  negb (superseded h retData).

(** ** Array literals and [push] *)

(** [name = [e1, e2, e3]], the statement [var name = [e1, e2, e3];], and the
    statement [receiver.push(arg);]. *)
Definition arrayDeclaration (pDecl : N) (tDecl : string) (name : ts.Node)
    (pArr : N) (tArr : string) (e1 e2 e3 : ts.Node) : ts.Node :=
  ts.mkNode ts.SyntaxKind.VariableDeclaration pDecl tDecl
    [name; ts.mkNode ts.SyntaxKind.ArrayLiteralExpression pArr tArr [e1; e2; e3]].

Definition declarationStatement (k : nat) (pStmt : N) (tStmt : string)
    (pList : N) (tList : string) (decl : ts.Node) : ts.Node :=
  ts.mkNode (ts.SyntaxKind.Other k) pStmt tStmt
    [ts.mkNode ts.SyntaxKind.VariableDeclarationList pList tList [decl]].

Definition pushStatement (k : nat) (pStmt : N) (tStmt : string)
    (pCall : N) (tCall : string) (pAccess : N) (tAccess : string)
    (receiver : ts.Node) (pPush : N) (arg : ts.Node) : ts.Node :=
  ts.mkNode (ts.SyntaxKind.Other k) pStmt tStmt
    [ts.mkNode ts.SyntaxKind.CallExpression pCall tCall
       [ts.mkNode ts.SyntaxKind.PropertyAccessExpression pAccess tAccess
          [receiver; ts.mkNode ts.SyntaxKind.Identifier pPush "push" []];
        arg]].

(** ** Names of temporaries *)

Definition with_temporaryVariables f (s : TypeHelper) :=
  mkTypeHelper (heap s) (variables s) (userStructs s) (variablesData s)
    (functionCallsData s) (functionReturnsData s) (functionReturnTypes s)
    (functionPrototypes s) (arrayLiteralsTypes s) (objectLiteralsTypes s)
    (f (temporaryVariables s)).

(** [names.indexOf(x) > -1] *)
Definition indexOf_found (x : string) (names : list string) : bool :=
  existsb (String.eqb x) names.

(** The [while] loops of [addNewIteratorVariable] and
    [addNewTemporaryVariable] that look for the first [i] from [2] on with
    no name [proposedName_i].  Among [length names + 1] candidates one is
    free, which bounds the search. *)
Fixpoint freeNameIndex (fuel : nat) (existingSymbolNames : list string)
    (proposedName : string) (i : N) : N :=
  match fuel with
  | O => i
  | S fuel' =>
      if indexOf_found (proposedName +:+ "_" +:+ pretty i) existingSymbolNames
      then freeNameIndex fuel' existingSymbolNames proposedName (i + 1)%N
      else i
  end.

Definition iteratorVarNames : list string := ["i"; "j"; "k"; "l"; "m"; "n"].

Section Temporaries.

(** [typeChecker.getSymbolsInScope(scopeNode, ts.SymbolFlags.Variable)] *)
Variable getSymbolsInScope : ts.Node -> list ts.Symbol.

(** The first statements of both methods: the scope, the entry of the
    scope in [temporaryVariables], created empty when there is none, and
    the names that are taken. *)
Definition existingSymbolNames (ancestors : list ts.Node) (scopeNode : ts.Node)
  : M (ScopeId * list string * list string) :=
  let scopeId := scopeIdOf (scopeNode :: ancestors) in
  let existingSymbolNames := map ts.symbolName (getSymbolsInScope scopeNode) in
  known <- gets (fun s => Js.get scopeId (temporaryVariables s)) ;;
  (match known with
   | Some _ => ret tt
   | None => modify (with_temporaryVariables (Js.set scopeId []))
   end) ;;
  temporaries <- gets (fun s => Js.get scopeId (temporaryVariables s)) ;;
  temporaries <- defined temporaries ;;
  ret (scopeId, temporaries, existingSymbolNames ++ temporaries).

Definition addNewIteratorVariable (ancestors : list ts.Node) (scopeNode : ts.Node)
  : M string :=
  scope <- existingSymbolNames ancestors scopeNode ;;
  let '(scopeId, temporaries, existingSymbolNames) := scope in
  let iteratorVarName :=
    match List.find (fun nm => negb (indexOf_found nm existingSymbolNames))
            iteratorVarNames with
    | Some nm => nm
    | None =>
        "i_" +:+ pretty (freeNameIndex (S (length existingSymbolNames))
                           existingSymbolNames "i" 2)
    end in
  modify (with_temporaryVariables (Js.set scopeId (temporaries ++ [iteratorVarName]))) ;;
  ret iteratorVarName.

Definition addNewTemporaryVariable (ancestors : list ts.Node) (scopeNode : ts.Node)
    (proposedName : string) : M string :=
  scope <- existingSymbolNames ancestors scopeNode ;;
  let '(scopeId, temporaries, existingSymbolNames) := scope in
  let proposedName :=
    if indexOf_found proposedName existingSymbolNames
    then proposedName +:+ "_"
           +:+ pretty (freeNameIndex (S (length existingSymbolNames))
                         existingSymbolNames proposedName 2)
    else proposedName in
  modify (with_temporaryVariables (Js.set scopeId (temporaries ++ [proposedName]))) ;;
  ret proposedName.

End Temporaries.

(** ** What [figureOutVariablesAndTypes] returns *)

(** [l.filter(p)] and [l.map(f)] with callbacks that read the state. *)
Fixpoint filterM {A} (p : A -> M bool) (l : list A) : M (list A) :=
  match l with
  | [] => ret []
  | x :: l' =>
      b <- p x ;;
      rest <- filterM p l' ;;
      ret (if b then x :: rest else rest)
  end.

Fixpoint mapM {A B} (f : A -> M B) (l : list A) : M (list B) :=
  match l with
  | [] => ret []
  | x :: l' => y <- f x ;; rest <- mapM f l' ;; ret (y :: rest)
  end.

(** [this.userStructs[k].properties] *)
Definition structProperties (k : string) : M (list (string * value)) :=
  l <- gets (fun s => Js.get k (userStructs s)) ;;
  l <- defined l ;;
  o <- gets (fun s => heap s !! l) ;;
  o <- defined o ;;
  match o with
  | StructType _ properties => ret properties
  | _ => throw TypeError
  end.

(** The [structs] of the result: the registered structs that have a
    property, each with its name and the list of its properties. *)
Definition reportedStructs : M (list (string * list (string * value))) :=
  names <- gets (fun s => Js.keys (userStructs s)) ;;
  names <- filterM (fun k => properties <- structProperties k ;;
                             ret (0 <? length (Js.keys properties))%nat) names ;;
  mapM (fun k =>
          properties <- structProperties k ;;
          ret (k, map (fun pk => (pk, lookup_value pk properties)) (Js.keys properties)))
       names.

(** The [functionPrototypes] of the result. *)
Definition reportedPrototypes : M (list ts.Node) :=
  positions <- gets (fun s => Js.keys (functionPrototypes s)) ;;
  mapM (fun k => decl <- gets (fun s => Js.get k (functionPrototypes s)) ;; defined decl)
       positions.

(** The temporaries of every scope are pairwise distinct. *)
Definition temporariesDistinct (s : TypeHelper) : Prop :=
  Forall (fun scope => NoDup (snd scope)) (temporaryVariables s).

(** ** How the state changes over a run *)

(** What an object of the heap may become: it keeps its class; an array
    keeps its capacity, stays dynamic once it is, and keeps its element
    type unless that was the universal fallback; a struct keeps its name
    and the names of its properties; a dict is not changed; a promise keeps
    its node and its [element], and stays resolved and [arrayOf] once it
    is. *)
Definition objectEvolves (o o' : HeapObj) : Prop :=
  match o, o' with
  | ArrayType t c d, ArrayType t' c' d' =>
      c' = c /\ (d = true -> d' = true)
      /\ (t' = t \/ eq_str t UniversalVarType = true)
  | StructType nm ps, StructType nm' ps' =>
      nm' = nm /\ forall p, is_Some (Js.get p ps) -> is_Some (Js.get p ps')
  | DictType t, DictType t' => t' = t
  | TypePromise r _ a n e, TypePromise r' _ a' n' e' =>
      n' = n /\ e' = e /\ (r = true -> r' = true) /\ (a = true -> a' = true)
  | _, _ => False
  end.

(** What the entry of a variable may become: the name and the declaration
    are kept, references are only added, and [requiresAllocation] is not
    cleared. *)
Definition infoEvolves (vi vi' : VariableInfo) : Prop :=
  name vi' = name vi
  /\ declaration vi' = declaration vi
  /\ (exists more, references vi' = references vi ++ more)
  /\ (requiresAllocation vi = true -> requiresAllocation vi' = true).

(** The keys of a table are kept. *)
Definition keysKept {K V} `{Key K} (o o' : list (K * V)) : Prop :=
  forall k, is_Some (Js.get k o) -> is_Some (Js.get k o').

Record evolves (s s' : TypeHelper) : Prop := mkEvolves {
  evolves_heap :
    forall l o, heap s !! l = Some o ->
      exists o', heap s' !! l = Some o' /\ objectEvolves o o';
  evolves_variables :
    forall k vi, Js.get k (variables s) = Some vi ->
      exists vi', Js.get k (variables s') = Some vi' /\ infoEvolves vi vi';
  evolves_variablesData : keysKept (variablesData s) (variablesData s');
  evolves_userStructs : keysKept (userStructs s) (userStructs s');
  evolves_functionCallsData : keysKept (functionCallsData s) (functionCallsData s');
  evolves_functionReturnsData :
    keysKept (functionReturnsData s) (functionReturnsData s');
  evolves_functionReturnTypes :
    keysKept (functionReturnTypes s) (functionReturnTypes s');
  evolves_functionPrototypes :
    keysKept (functionPrototypes s) (functionPrototypes s');
  evolves_arrayLiteralsTypes : keysKept (arrayLiteralsTypes s) (arrayLiteralsTypes s');
  evolves_objectLiteralsTypes :
    keysKept (objectLiteralsTypes s) (objectLiteralsTypes s');
  evolves_temporaryVariables : temporaryVariables s' = temporaryVariables s;
  evolves_newVariables :
    forall k, is_Some (Js.get k (variables s')) ->
      is_Some (Js.get k (variables s)) \/ is_Some (Js.get k (variablesData s'));
  evolves_newStructs :
    forall nm l, Js.get nm (userStructs s') = Some l ->
      Js.get nm (userStructs s) = Some l
      \/ instanceof_StructType (heap s') (VRef l) = true
}.

(** Every variable has its data. *)
Definition dataComplete (s : TypeHelper) : Prop :=
  forall k, is_Some (Js.get k (variables s)) -> is_Some (Js.get k (variablesData s)).

(** Every registered name is the name of a struct of the heap. *)
Definition structsRegistered (s : TypeHelper) : Prop :=
  forall nm l, Js.get nm (userStructs s) = Some l ->
    instanceof_StructType (heap s) (VRef l) = true.

(** The type of a variable agrees with its evidence: it is the candidate
    when there is exactly one, the opaque pointer when there is none, and
    the universal type, with [requiresAllocation] set, when there are
    several. *)
Definition typeAgrees (vi : VariableInfo) (vd : VariableData) : Prop :=
  match candidates vd with
  | [] => type vi = VStr PointerVarType
  | [t] => type vi = lookup_value t (assignmentTypes vd)
  | _ :: _ :: _ => type vi = VStr UniversalVarType /\ requiresAllocation vi = true
  end.

(** What the finalization of the variable [k] leaves alone. *)
Definition besides (k : N) (s s' : TypeHelper) : Prop :=
  variablesData s' = variablesData s
  /\ Js.keys (variables s') = Js.keys (variables s)
  /\ forall k', k' <> k -> Js.get k' (variables s') = Js.get k' (variables s).

(** ** The nodes of a tree *)

(** A node and the nodes below it, in the order of the traversal. *)
Fixpoint subnodes (n : ts.Node) : list ts.Node :=
  let 'ts.mkNode _ _ _ children := n in
  n :: flat_map subnodes children.

(** The variable of [symbol] has an entry that lists [node] among its
    references. *)
Definition referenced (node : ts.Node) (symbol : ts.Symbol) (s : TypeHelper) : Prop :=
  exists vi,
    Js.get (ts.pos (ts.valueDeclaration symbol)) (variables s) = Some vi
    /\ In node (references vi).

(** The collection leaves the types to the resolver: an entry that was
    there keeps its type and its [requiresAllocation], and a new entry has
    no type and [requiresAllocation] unset. *)
Definition typesLeft (s s' : TypeHelper) : Prop :=
  keysKept (variables s) (variables s')
  /\ forall k vi', Js.get k (variables s') = Some vi' ->
       match Js.get k (variables s) with
       | Some vi =>
           type vi' = type vi /\ requiresAllocation vi' = requiresAllocation vi
       | None => type vi' = VUndef /\ requiresAllocation vi' = false
       end.

(** What the collection records about calls, returns, object literals and
    temporaries, which the resolver only reads. *)
Definition collectedTables (s : TypeHelper) :=
  (functionCallsData s, functionReturnsData s, functionPrototypes s,
   objectLiteralsTypes s, temporaryVariables s).


(** ** Programs and front-end answers used as instances *)

Module Example.

Definition node (k : ts.SyntaxKind.t) (p : N) (text : string) (cs : list ts.Node) :=
  ts.mkNode k p text cs.
Definition num (p : N) (text : string) : ts.Node :=
  ts.mkNode ts.SyntaxKind.NumericLiteral p text [].
Definition ident (p : N) (text : string) : ts.Node :=
  ts.mkNode ts.SyntaxKind.Identifier p text [].

(** Front-end types: [number], [any], and [{ x: number }]. *)
Definition numberType : ts.Type_ :=
  ts.mkType ts.TypeFlags.Number (Some "number") false [].
Definition anyType : ts.Type_ :=
  ts.mkType ts.TypeFlags.Any (Some "any") false [].
Definition xDecl : ts.Node :=
  ts.mkNode ts.SyntaxKind.PropertyAssignment 2 "x: 1" [ident 2 "x"; num 4 "1"].
Definition pointType : ts.Type_ :=
  ts.mkType ts.TypeFlags.Anonymous None true
    [(ts.mkSymbol "x" xDecl [xDecl], numberType, None)].

(** [(p)], a parenthesized expression whose type is [{ x: number }]. *)
Definition paren : ts.Node := ts.mkNode (ts.SyntaxKind.Other 0) 10 "(p)" [ident 11 "p"].

(** A checker that knows no symbol, and types numeric literals and
    [paren]. *)
Definition checker : ts.TypeChecker :=
  ts.mkTypeChecker
    (fun n =>
       match ts.kind n with
       | ts.SyntaxKind.NumericLiteral => Some numberType
       | ts.SyntaxKind.Other 0 => Some pointType
       | _ => Some anyType
       end)
    (fun _ => None).

(** The state in which [struct_0_t], the struct of [{ x: number }], is
    registered. *)
Definition pointRegistered : TypeHelper :=
  mkTypeHelper [StructType "struct struct_0_t *" [("x", VStr NumberVarType)]]
    [] [("struct_0_t", 0)] [] [] [] [] [] [] [] [].

(** The state after [{ x: number }] is registered for a variable [a]. *)
Definition pointOfA : TypeHelper :=
  mkTypeHelper [StructType "struct a_t *" [("x", VStr NumberVarType)]]
    [] [("a_t", 0)] [] [] [] [] [] [] [] [].




(** [function f(p) { var a = []; a[0] = p; } f(5);] *)
Definition paramP : ts.Node := node ts.SyntaxKind.ParameterDecl 11 "p" [ident 11 "p"].
Definition declA : ts.Node :=
  node ts.SyntaxKind.VariableDeclaration 18 "a = []"
    [ident 18 "a"; node ts.SyntaxKind.ArrayLiteralExpression 22 "[]" []].
Definition assignA0 : ts.Node :=
  node ts.SyntaxKind.BinaryExpression 26 "a[0] = p"
    [node ts.SyntaxKind.ElementAccessExpression 26 "a[0]" [ident 26 "a"; num 28 "0"];
     node ts.SyntaxKind.EqualsToken 30 "=" [];
     ident 32 "p"].
Definition funcF : ts.Node :=
  node ts.SyntaxKind.FunctionDeclaration 0 "function f(p) { var a = []; a[0] = p; }"
    [ident 9 "f"; paramP;
     node (ts.SyntaxKind.Other 1) 13 "{ var a = []; a[0] = p; }"
       [node (ts.SyntaxKind.Other 2) 14 "var a = [];"
          [node ts.SyntaxKind.VariableDeclarationList 14 "var a = []" [declA]];
        node (ts.SyntaxKind.Other 3) 26 "a[0] = p;" [assignA0]]].
Definition callF5 : ts.Node :=
  node ts.SyntaxKind.CallExpression 40 "f(5)" [ident 40 "f"; num 42 "5"].
Definition program : ts.Node :=
  node (ts.SyntaxKind.Other 4) 0 "function f(p) { var a = []; a[0] = p; } f(5);"
    [funcF; node (ts.SyntaxKind.Other 3) 40 "f(5);" [callF5]].

(** A checker that resolves [f], [p] and [a], types numeric literals as
    [number] and everything else as [any]. *)
Definition checkerF : ts.TypeChecker :=
  ts.mkTypeChecker
    (fun n =>
       match ts.kind n with
       | ts.SyntaxKind.NumericLiteral => Some numberType
       | _ => Some anyType
       end)
    (fun n =>
       match ts.kind n with
       | ts.SyntaxKind.Identifier =>
           if String.eqb (ts.getText n) "f" then Some (ts.mkSymbol "f" funcF [funcF])
           else if String.eqb (ts.getText n) "p" then Some (ts.mkSymbol "p" paramP [paramP])
           else if String.eqb (ts.getText n) "a" then Some (ts.mkSymbol "a" declA [declA])
           else None
       | _ => None
       end).

(** The state the engine reaches on [program]. *)
Definition programResolved : TypeHelper :=
  Eval vm_compute in
    match figureOutVariablesAndTypes checkerF 3 [program] newTypeHelper with
    | Some (Ok _ s) => s
    | _ => newTypeHelper
    end.

(** [f(x + y)], whose argument has the type [any], and [return 5;],
    [return;]. *)
Definition callFxy : ts.Node :=
  node ts.SyntaxKind.CallExpression 50 "f(x + y)"
    [ident 50 "f";
     node ts.SyntaxKind.BinaryExpression 52 "x + y"
       [ident 52 "x"; node (ts.SyntaxKind.Other 5) 54 "+" []; ident 56 "y"]].
Definition return5 : ts.Node := node ts.SyntaxKind.ReturnStatement 70 "return 5;" [num 77 "5"].
Definition returnBare : ts.Node := node ts.SyntaxKind.ReturnStatement 80 "return;" [].

(** A state in which the variable declared at [18] waits for a promise
    over [p]. *)
Definition promisePending : TypeHelper :=
  mkTypeHelper [TypePromise false None false (ident 32 "p") (VBool false)]
    [(18%N, newVariableInfo)] [] [(18%N, newVariableData)] [] [] [] [] [] [] [].

(** [var a = [1, 2, 3]; a.push(4);] *)
Definition declA123 : ts.Node :=
  arrayDeclaration 4 "a = [1, 2, 3]" (ident 4 "a") 8 "[1, 2, 3]"
    (num 9 "1") (num 12 "2") (num 15 "3").
Definition pushProgram : ts.Node :=
  node (ts.SyntaxKind.Other 0) 0 "var a = [1, 2, 3]; a.push(4);"
    [declarationStatement 1 0 "var a = [1, 2, 3];" 0 "var a = [1, 2, 3]" declA123;
     pushStatement 2 19 "a.push(4);" 19 "a.push(4)" 19 "a.push" (ident 19 "a") 21
       (num 26 "4")].

(** A checker that resolves [a] to that declaration and types numeric
    literals. *)
Definition checkerA : ts.TypeChecker :=
  ts.mkTypeChecker
    (fun n =>
       match ts.kind n with
       | ts.SyntaxKind.NumericLiteral => Some numberType
       | _ => Some anyType
       end)
    (fun n =>
       if ts.is_kind ts.SyntaxKind.Identifier n && (ts.getText n =? "a")
       then Some (ts.mkSymbol "a" declA123 [declA123])
       else None).

(** [{ x: 1 }], and a checker that types object literals as
    [{ x: number }] and knows no symbol. *)
Definition pointLiteral : ts.Node :=
  node ts.SyntaxKind.ObjectLiteralExpression 8 "{ x: 1 }" [xDecl].
Definition checkerLiteral : ts.TypeChecker :=
  ts.mkTypeChecker
    (fun n =>
       match ts.kind n with
       | ts.SyntaxKind.NumericLiteral => Some numberType
       | ts.SyntaxKind.ObjectLiteralExpression => Some pointType
       | _ => Some anyType
       end)
    (fun _ => None).

(** [g(1); function g(q) { }], and a checker that resolves [g]. *)
Definition funcG : ts.Node :=
  node ts.SyntaxKind.FunctionDeclaration 5 "function g(q) { }"
    [ident 15 "g"; node ts.SyntaxKind.ParameterDecl 17 "q" [ident 17 "q"]].
Definition callG1 : ts.Node :=
  node ts.SyntaxKind.CallExpression 0 "g(1)" [ident 0 "g"; num 2 "1"].
Definition checkerG : ts.TypeChecker :=
  ts.mkTypeChecker
    (fun n =>
       match ts.kind n with
       | ts.SyntaxKind.NumericLiteral => Some numberType
       | _ => Some anyType
       end)
    (fun n =>
       if ts.is_kind ts.SyntaxKind.Identifier n && (ts.getText n =? "g")
       then Some (ts.mkSymbol "g" funcG [funcG])
       else None).

(** The state the engine reaches on [program] after the collection, before
    the resolver. *)
Definition programCollected : TypeHelper :=
  Eval vm_compute in
    match forEach (findVariablesRecursively checkerF []) [program] newTypeHelper with
    | Ok _ s => s
    | Throw _ => newTypeHelper
    end.

(** [a.push(4)], and the state after the visit of its receiver [a], a
    variable without evidence. *)
Definition pushAccess : ts.Node :=
  node ts.SyntaxKind.PropertyAccessExpression 19 "a.push" [ident 19 "a"; ident 21 "push"].
Definition pushCall : ts.Node :=
  node ts.SyntaxKind.CallExpression 19 "a.push(4)" [pushAccess; num 26 "4"].
Definition beforePush : TypeHelper :=
  mkTypeHelper [] [(4%N, newVariableInfo)] [] [(4%N, newVariableData)]
    [] [] [] [] [] [] [].
Definition pushVisited : TypeHelper :=
  Eval vm_compute in
    match visitPropertyAccessTarget checkerA [pushAccess; pushCall] 4 (ident 19 "a")
            pushAccess beforePush with
    | Ok _ s => s
    | Throw _ => newTypeHelper
    end.

(** A variable at 5 whose evidence is one static array of two elements
    whose element type is still the universal fallback, and the index [0]. *)
Definition arrayOfUniversal : TypeHelper :=
  with_variablesData
    (Js.set 5%N
       (mkVariableData None
          [("static struct js_var * {var}[2]", VRef 0)] [] [] None None false false false))
    (with_heap (fun _ => [ArrayType (VStr UniversalVarType) 2 false]) newTypeHelper).
Definition index0 : ts.Node := num 9 "0".

(** The state after the visit of the name of the parameter [p] of [f], a
    variable without evidence. *)
Definition paramFresh : TypeHelper :=
  mkTypeHelper [] [(11%N, newVariableInfo)] [] [(11%N, newVariableData)]
    [] [] [] [] [] [] [].
Definition paramVisited : TypeHelper :=
  Eval vm_compute in
    match visitParameterName checkerF [paramP; funcF] 11 (ident 11 "p") paramFresh with
    | Ok _ s => s
    | Throw _ => newTypeHelper
    end.

(** [a.x = 5] *)
Definition accessAx : ts.Node :=
  node ts.SyntaxKind.PropertyAccessExpression 19 "a.x" [ident 19 "a"; ident 21 "x"].
Definition assignAx : ts.Node :=
  node ts.SyntaxKind.BinaryExpression 19 "a.x = 5"
    [accessAx; node ts.SyntaxKind.EqualsToken 23 "=" []; num 25 "5"].



End Example.
(** * Properties *)

(** ** Objects used as dictionaries *)

Section ObjectFacts.
Context {K V : Type} `{Key K}.
Implicit Types (k : K) (v : V) (o : list (K * V)).

Lemma get_replace_eq k v o :
  is_Some (Js.get k o) -> Js.get k (Js.replace k v o) = Some v.
Proof.
  induction o as [|[k' v'] o IH]; simpl; intros [x Hx]; [discriminate|].
  destruct (decide (k = k')) as [->|Hne]; simpl.
  - destruct (decide (k' = k')); congruence.
  - destruct (decide (k = k')); [congruence|]. apply IH; eauto.
Qed.

Lemma get_replace_ne k k' v o :
  k <> k' -> Js.get k' (Js.replace k v o) = Js.get k' o.
Proof.
  intros Hne. induction o as [|[k0 v0] o IH]; simpl; [reflexivity|].
  destruct (decide (k = k0)) as [Heq|Hk]; simpl.
  - destruct (decide (k' = k0)); [congruence|].
    destruct (decide (k' = k)); congruence.
  - destruct (decide (k' = k0)); [reflexivity|]. apply IH.
Qed.

Lemma get_insert_index_eq n k v o :
  Js.get k o = None -> Js.get k (Js.insert_index n k v o) = Some v.
Proof.
  induction o as [|[k' v'] o IH]; simpl; intros Hg.
  - destruct (decide (k = k)); congruence.
  - destruct (decide (k = k')) as [->|Hne]; [discriminate|].
    destruct (array_index k') as [n'|]; [destruct (n' <? n)%N|]; simpl;
      repeat (destruct (decide _)); try congruence; auto.
Qed.

Lemma get_insert_index_ne n k k' v o :
  k <> k' -> Js.get k' (Js.insert_index n k v o) = Js.get k' o.
Proof.
  intros Hne. induction o as [|[k0 v0] o IH]; simpl.
  - destruct (decide (k' = k)); congruence.
  - destruct (array_index k0) as [n'|]; [destruct (n' <? n)%N|]; simpl;
      repeat (destruct (decide _)); try congruence; auto.
Qed.

Lemma get_app k o o' :
  Js.get k (o ++ o') = match Js.get k o with Some x => Some x | None => Js.get k o' end.
Proof.
  induction o as [|[k0 v0] o IH]; simpl; [reflexivity|].
  destruct (decide (k = k0)); auto.
Qed.

Lemma get_set_eq k v o : Js.get k (Js.set k v o) = Some v.
Proof.
  unfold Js.set. destruct (Js.get k o) eqn:Hg.
  - apply get_replace_eq. rewrite Hg. eauto.
  - destruct (array_index k).
    + apply get_insert_index_eq, Hg.
    + rewrite get_app, Hg. simpl. destruct (decide (k = k)); congruence.
Qed.

Lemma get_set_ne k k' v o : k <> k' -> Js.get k' (Js.set k v o) = Js.get k' o.
Proof.
  intros Hne. unfold Js.set. destruct (Js.get k o) eqn:Hg.
  - apply get_replace_ne, Hne.
  - destruct (array_index k).
    + apply get_insert_index_ne, Hne.
    + rewrite get_app. destruct (Js.get k' o); [reflexivity|]. simpl.
      destruct (decide (k' = k)); congruence.
Qed.

Lemma get_delete_eq k o : Js.get k (Js.delete k o) = None.
Proof.
  induction o as [|[k0 v0] o IH]; simpl; [reflexivity|].
  destruct (decide (k = k0)) as [->|Hne]; simpl; [exact IH|].
  destruct (decide (k = k0)); congruence.
Qed.

Lemma get_delete_ne k k' o : k <> k' -> Js.get k' (Js.delete k o) = Js.get k' o.
Proof.
  intros Hne. induction o as [|[k0 v0] o IH]; simpl; [reflexivity|].
  destruct (decide (k = k0)) as [Heq|Hk]; simpl.
  - destruct (decide (k' = k0)); congruence.
  - destruct (decide (k' = k0)); congruence.
Qed.

End ObjectFacts.

(** ** Reasoning in the monad *)

Lemma bind_Ok {A B} (m : M A) (k : A -> M B) s b s' :
  bind m k s = Ok b s' -> exists a s1, m s = Ok a s1 /\ k a s1 = Ok b s'.
Proof. unfold bind. destruct (m s) as [a s1|e]; [eauto|discriminate]. Qed.

Lemma bind_eq {A B} (m : M A) (k : A -> M B) s a s1 :
  m s = Ok a s1 -> bind m k s = k a s1.
Proof. unfold bind. intros ->. reflexivity. Qed.

Lemma bind_Throw {A B} (m : M A) (k : A -> M B) s e :
  m s = Throw e -> bind m k s = Throw e.
Proof. unfold bind. intros ->. reflexivity. Qed.

Lemma defined_Ok {A} (o : option A) s a s' :
  defined o s = Ok a s' -> o = Some a /\ s' = s.
Proof. destruct o; simpl; unfold ret, throw; intros H; inversion H; auto. Qed.

Section Respects.
Variable R : TypeHelper -> TypeHelper -> Prop.
Hypothesis R_refl : forall s, R s s.
Hypothesis R_trans : forall s1 s2 s3, R s1 s2 -> R s2 s3 -> R s1 s3.

Lemma respects_ret {A} (a : A) : respects R (ret a).
Proof. intros s a' s' H. inversion H. apply R_refl. Qed.

Lemma respects_throw {A} e : respects R (@throw A e).
Proof. intros s a' s' H. discriminate. Qed.

Lemma respects_gets {A} (f : TypeHelper -> A) : respects R (gets f).
Proof. intros s a' s' H. inversion H. apply R_refl. Qed.

Lemma respects_defined {A} (o : option A) : respects R (defined o).
Proof. destruct o; [apply respects_ret|apply respects_throw]. Qed.

Lemma respects_bind {A B} (m : M A) (k : A -> M B) :
  respects R m -> (forall a, respects R (k a)) -> respects R (bind m k).
Proof.
  intros Hm Hk s b s' H. apply bind_Ok in H as (a & s1 & H1 & H2).
  eapply R_trans; [eapply Hm|eapply Hk]; eauto.
Qed.

Lemma respects_forEach {A} (body : A -> M unit) l :
  (forall x, respects R (body x)) -> respects R (forEach body l).
Proof.
  intros Hb. induction l; simpl; [apply respects_ret|].
  apply respects_bind; auto.
Qed.

End Respects.

(** ** Induction on nodes and on the front-end's types *)

Section NodeInduction.
Variable P : ts.Node -> Prop.
Hypothesis Hstep : forall k p t ch, Forall P ch -> P (ts.mkNode k p t ch).

Lemma Node_induction : forall n, P n.
Proof.
  fix IH 1. intros [k p t ch]. apply Hstep.
  refine ((fix go (cs : list ts.Node) : Forall P cs :=
             match cs with
             | [] => @Stdlib.Lists.List.Forall_nil _ P
             | c :: cs' => @Stdlib.Lists.List.Forall_cons _ P c cs' (IH c) (go cs')
             end) ch).
Qed.

End NodeInduction.

(** The same, with the property also at hand for the grandchildren. *)
Lemma Node_induction2 (P : ts.Node -> Prop) :
  (forall k p t ch,
     Forall (fun c => P c /\ Forall P (ts.getChildren c)) ch -> P (ts.mkNode k p t ch)) ->
  forall n, P n.
Proof.
  intros Hstep n.
  enough (P n /\ Forall P (ts.getChildren n)) as [H _] by exact H.
  induction n as [k p t ch IH] using Node_induction. split.
  - apply Hstep, IH.
  - simpl. eapply Forall_impl; [exact IH|]. intros c [Hc _]. exact Hc.
Qed.

Section TypeInduction.
Variable P : ts.Type_ -> Prop.
Hypothesis Hstep : forall f i sg props,
  Forall (holds_below P) props -> P (ts.mkType f i sg props).

Lemma Type_induction : forall t, P t.
Proof.
  fix IH 1. intros [f i sg props]. apply Hstep.
  refine ((fix go (ps : list (ts.Symbol * ts.Type_ * option ts.Type_)) :
             Forall (holds_below P) ps :=
             match ps with
             | [] => @Stdlib.Lists.List.Forall_nil _ (holds_below P)
             | (sym, t1, e) :: ps' =>
                 @Stdlib.Lists.List.Forall_cons _ (holds_below P) (sym, t1, e) ps' _ (go ps')
             end) props).
  split; [apply IH|]. destruct e; [apply IH|exact I].
Qed.

End TypeInduction.

(** ** What the type conversion and [getCType] leave alone *)

Lemma frame_refl s : frame s s.
Proof. constructor; auto. exists []. symmetry. apply app_nil_r. Qed.

Lemma frame_trans s1 s2 s3 : frame s1 s2 -> frame s2 s3 -> frame s1 s3.
Proof.
  intros [[e1 H1] ? ? ? ? ? ? ? ?] [[e2 H2] ? ? ? ? ? ? ? ?].
  constructor; try congruence.
  exists (e1 ++ e2). rewrite H2, H1. symmetry. apply app_assoc.
Qed.

Lemma framed_new o : framed (new o).
Proof.
  intros s a s' H. inversion H; subst. constructor; simpl; auto. eauto.
Qed.

Lemma framed_modify_userStructs f : framed (modify (with_userStructs f)).
Proof.
  intros s a s' H. inversion H; subst. constructor; simpl; auto.
  exists []. symmetry; apply app_nil_r.
Qed.

Lemma framed_modify_arrayLiteralsTypes f : framed (modify (with_arrayLiteralsTypes f)).
Proof.
  intros s a s' H. inversion H; subst. constructor; simpl; auto.
  exists []. symmetry; apply app_nil_r.
Qed.

Create HintDb framed discriminated.
Create HintDb pure discriminated.

Ltac framed_step :=
  first
    [ apply respects_ret; [apply frame_refl]
    | apply respects_throw
    | apply respects_gets; [apply frame_refl]
    | apply respects_defined; [apply frame_refl]
    | apply framed_new
    | apply framed_modify_userStructs
    | apply framed_modify_arrayLiteralsTypes
    | apply respects_bind; [apply frame_trans| |intros ?]
    | match goal with
      | |- respects _ (match ?x with _ => _ end) => destruct x
      | |- respects _ (if ?x then _ else _) => destruct x
      end
    | solve [auto with framed] ].

Ltac framed_auto := repeat framed_step.

Ltac pure_step :=
  first
    [ apply respects_ret; [reflexivity]
    | apply respects_throw
    | apply respects_gets; [reflexivity]
    | apply respects_defined; [reflexivity]
    | apply respects_bind; [intros ? ? ?; apply eq_trans| |intros ?]
    | match goal with
      | |- respects _ (match ?x with _ => _ end) => destruct x
      | |- respects _ (if ?x then _ else _) => destruct x
      end
    | solve [auto with pure] ].

Ltac pure_auto := repeat pure_step.

Arguments convertType_with : simpl never.
Arguments convertType : simpl never.
Arguments determineArrayType_with : simpl never.
Arguments registerStructure : simpl never.

Lemma generateStructure_eq tsType ident :
  generateStructure tsType ident =
  (us <- gets userStructs ;;
   userStructInfo <- propertiesInfo (ts.getProperties tsType) [] ;;
   registerStructure (proposedStructName us ident) userStructInfo).
Proof. destruct tsType. reflexivity. Qed.

Lemma framed_findStructure h code us : framed (findStructure h code us).
Proof. induction us as [|[nm l] us IH]; simpl; framed_auto. Qed.
#[local] Hint Resolve framed_findStructure : framed.

Lemma framed_registerStructure nm info : framed (registerStructure nm info).
Proof. unfold registerStructure, getStructureBodyString. framed_auto. Qed.
#[local] Hint Resolve framed_registerStructure : framed.

Lemma framed_convertType_with gen tsType ident :
  (forall t, tsType = Some t -> framed (gen t ident)) ->
  framed (convertType_with gen tsType ident).
Proof. intros Hgen. unfold convertType_with. framed_auto. Qed.

Lemma framed_determineArrayType_with conv arrLiteral first :
  framed (conv first None) ->
  framed (determineArrayType_with conv arrLiteral first).
Proof. intros Hc. unfold determineArrayType_with. framed_auto. Qed.

Lemma framed_generateStructure tsType :
  forall ident, framed (generateStructure tsType ident).
Proof.
  induction tsType as [f i sg props IH] using Type_induction.
  intros ident. rewrite generateStructure_eq. simpl.
  framed_step; [framed_auto|]. framed_step; [|framed_auto].
  generalize (@nil (string * value)).
  induction IH as [|[[prop t1] e] props [Ht He] _ IHprops]; intros info; simpl.
  - framed_auto.
  - framed_step.
    + apply framed_convertType_with. intros t [= <-]. apply Ht.
    + framed_step; [|apply IHprops].
      framed_auto; apply framed_determineArrayType_with;
        apply framed_convertType_with; intros t ->; apply He.
Qed.
#[local] Hint Resolve framed_generateStructure : framed.

Lemma framed_convertType tsType ident : framed (convertType tsType ident).
Proof. apply framed_convertType_with. auto with framed. Qed.
#[local] Hint Resolve framed_convertType : framed.

Lemma framed_determineArrayType tc arrLiteral :
  framed (determineArrayType tc arrLiteral).
Proof. apply framed_determineArrayType_with. auto with framed. Qed.
#[local] Hint Resolve framed_determineArrayType : framed.

Lemma framed_getVariableInfo tc node : framed (getVariableInfo tc node).
Proof. unfold getVariableInfo. framed_auto. Qed.
#[local] Hint Resolve framed_getVariableInfo : framed.

Lemma framed_getCType tc node : framed (getCType tc node).
Proof.
  induction node as [k p t ch IH] using Node_induction2.
  assert (Hfirst : forall e rest, ch = e :: rest ->
            framed (getCType tc e) /\
            forall e' rest', ts.getChildren e = e' :: rest' ->
              framed (getCType tc e')).
  { intros e rest ->. inversion IH as [|? ? [He Hch] _]; subst. split; [exact He|].
    intros e' rest' Heq. rewrite Heq in Hch. inversion Hch; subst. assumption. }
  clear IH.
  destruct k; simpl; try solve [framed_auto].
  - destruct ch as [|e rest]; [framed_auto|].
    destruct (Hfirst e rest eq_refl) as [He _]. framed_auto.
  - destruct ch as [|e rest]; [framed_auto|].
    destruct (Hfirst e rest eq_refl) as [He _]. framed_auto.
  - destruct ch as [|e rest]; [framed_auto|].
    destruct (Hfirst e rest eq_refl) as [He Hsub].
    destruct e as [ck cp ct cch]. simpl in Hsub.
    destruct cch as [|r rest'].
    + framed_auto.
    + pose proof (Hsub r rest' eq_refl) as Hr. framed_auto.
Qed.
#[local] Hint Resolve framed_getCType : framed.

Lemma pure_getVariableInfo tc node : pure (getVariableInfo tc node).
Proof. unfold getVariableInfo. pure_auto. Qed.
#[local] Hint Resolve pure_getVariableInfo : pure.

Lemma pure_getCType tc node :
  reachesDefaultBranch node = false -> pure (getCType tc node).
Proof.
  induction node as [k p t ch IH] using Node_induction2.
  assert (Hfirst : forall e rest, ch = e :: rest ->
            (reachesDefaultBranch e = false -> pure (getCType tc e)) /\
            forall e' rest', ts.getChildren e = e' :: rest' ->
              reachesDefaultBranch e' = false -> pure (getCType tc e')).
  { intros e rest ->. inversion IH as [|? ? [He Hch] _]; subst. split; [exact He|].
    intros e' rest' Heq. rewrite Heq in Hch. inversion Hch; subst. assumption. }
  clear IH. intros Hpath.
  destruct k; simpl in Hpath |- *; try discriminate; try solve [pure_auto].
  - destruct ch as [|e rest]; [pure_auto|].
    destruct (Hfirst e rest eq_refl) as [He _]. specialize (He Hpath). pure_auto.
  - destruct ch as [|e rest]; [pure_auto|].
    destruct (Hfirst e rest eq_refl) as [He _]. specialize (He Hpath). pure_auto.
  - destruct ch as [|e rest]; [pure_auto|].
    destruct (Hfirst e rest eq_refl) as [_ Hsub].
    destruct e as [ck cp ct cch]. simpl in Hsub.
    destruct cch as [|r rest'].
    + pure_auto.
    + pose proof (Hsub r rest' eq_refl) as Hr.
      destruct ck; pure_auto.
Qed.

(** C8, as amended: [getCType] leaves [variables], [variablesData],
    [functionCallsData], [functionReturnsData], [functionReturnTypes],
    [functionPrototypes], [objectLiteralsTypes], [temporaryVariables] and
    every object already in the heap as they were; and it leaves the whole
    state as it was unless the evaluation ends in the default branch, where
    the conversion of the front-end's type may register structs in
    [userStructs] and array types in [arrayLiteralsTypes]. *)
Theorem getCType_frame tc node s v s' :
  getCType tc node s = Ok v s' ->
  frame s s' /\ (reachesDefaultBranch node = false -> s' = s).
Proof.
  intros H. split.
  - eapply framed_getCType, H.
  - intros Hpath. symmetry. eapply pure_getCType; eauto.
Qed.

Lemma getCType_frame_witness :
  frame newTypeHelper Example.pointRegistered
  /\ (reachesDefaultBranch Example.paren = false ->
      Example.pointRegistered = newTypeHelper).
Proof.
  apply (getCType_frame Example.checker Example.paren newTypeHelper
           (VRef 0) Example.pointRegistered).
  reflexivity.
Defined.

(** C8, as stated, fails: in the default branch [getCType] registers the
    struct of the front-end's type in [userStructs]. *)
Lemma getCType_registers_struct :
  exists v s',
    getCType Example.checker Example.paren newTypeHelper = Ok v s'
    /\ userStructs s' <> userStructs newTypeHelper.
Proof.
  exists (VRef 0), Example.pointRegistered. split; [reflexivity|discriminate].
Qed.

(** ** [determineType] and [getTypeString] *)

(** C7: when [right] is neither an object literal nor an array literal,
    [determineType] converts the front-end's type of [right] (of [left] when
    there is no [right]); if the conversion gives a fallback and [right] is a
    property access, an element access, an identifier or a call, the result
    is a new promise over [right]; in every other case it is the converted
    type itself. *)
Theorem determineType_defers tc left right n s type s1 :
  kind_is ts.SyntaxKind.ObjectLiteralExpression right = false ->
  kind_is ts.SyntaxKind.ArrayLiteralExpression right = false ->
  match right with Some r => Some r | None => left end = Some n ->
  convertType (ts.getTypeAtLocation tc n) left s = Ok type s1 ->
  (forall r, right = Some r -> fallback type = true -> deferrable r = true ->
     determineType tc left right s
     = Ok (VRef (length (heap s1))) (withPromise r (VBool false) s1)
     /\ as_promise (heap (withPromise r (VBool false) s1)) (VRef (length (heap s1)))
        = Some (length (heap s1)))
  /\ ((fallback type = false
       \/ match right with Some r => deferrable r = false | None => True end) ->
      determineType tc left right s = Ok type s1).
Proof.
  intros Hobj Harr Hn Hconv. unfold determineType. split.
  - intros r -> Hfb Hdef. simpl in *. injection Hn as ->.
    rewrite Hobj, Harr. erewrite bind_eq by exact Hconv.
    unfold fallback, deferrable in *. rewrite Hfb, Hdef. simpl. split.
    + reflexivity.
    + rewrite lookup_app_r by reflexivity.
      replace (length (heap s1) - length (heap s1)) with 0 by lia. reflexivity.
  - intros Hcase. destruct right as [r|]; simpl in *.
    + injection Hn as ->. rewrite Hobj, Harr. erewrite bind_eq by exact Hconv.
      unfold fallback, deferrable in *.
      destruct Hcase as [-> | ->]; [reflexivity|].
      rewrite andb_false_r. reflexivity.
    + subst left. simpl. exact Hconv.
Qed.

Lemma determineType_defers_witness :
  determineType Example.checker None (Some (Example.ident 11 "p")) newTypeHelper
  = Ok (VRef 0) (withPromise (Example.ident 11 "p") (VBool false) newTypeHelper)
  /\ determineType Example.checker None (Some Example.paren) newTypeHelper
     = Ok (VRef 0) Example.pointRegistered.
Proof.
  split.
  - destruct (determineType_defers Example.checker None (Some (Example.ident 11 "p"))
                (Example.ident 11 "p") newTypeHelper (VStr PointerVarType) newTypeHelper)
      as [H _]; [reflexivity..|].
    apply (H (Example.ident 11 "p")); reflexivity.
  - destruct (determineType_defers Example.checker None (Some Example.paren)
                Example.paren newTypeHelper (VRef 0) Example.pointRegistered)
      as [_ H]; [reflexivity..|].
    apply H. left. reflexivity.
Defined.

Lemma getTypeString_eq tc source s source' s' :
  convertSource tc source s = Ok source' s' ->
  getTypeString tc source s =
  match source' with
  | SourceValue v =>
      match object_at (heap s') v with
      | Some (ArrayType _ _ _) | Some (StructType _ _) | Some (DictType _) =>
          typeTextM v s'
      | _ =>
          match v with
          | VStr str => Ok str s'
          | _ => Throw (Error "Unrecognized type source")
          end
      end
  | _ => Throw (Error "Unrecognized type source")
  end.
Proof.
  intros Hc. unfold getTypeString. erewrite bind_eq by exact Hc.
  unfold bind, gets. destruct source' as [v| | |]; try reflexivity.
  destruct (object_at (heap s') v) as [[]|]; try reflexivity;
    destruct v; reflexivity.
Qed.

Lemma typeTextM_object h l s :
  heap s = h -> is_type_object h l = true ->
  match object_at h (VRef l) with
  | Some (ArrayType _ _ _) | Some (StructType _ _) | Some (DictType _) =>
      typeTextM (VRef l) s
  | _ => Throw (Error "Unrecognized type source")
  end
  = match getText h l with
    | Some text => Ok text s
    | None => Throw TypeError
    end.
Proof.
  intros <- Hl.
  unfold is_type_object, instanceof_ArrayType, instanceof_StructType,
    instanceof_DictType in Hl.
  destruct (object_at (heap s) (VRef l)) as [[]|]; try discriminate;
    unfold typeTextM, bind, gets, typeText; destruct (getText (heap s) l); reflexivity.
Qed.

(** C9: once the front-end objects are converted, [getTypeString] throws
    its error exactly when what is left is neither a type object ([ArrayType],
    [StructType], [DictType]) nor a string; a type object is rendered by its
    [getText], and a string is returned as it is. *)
Theorem getTypeString_throws_iff tc source s source' s' :
  convertSource tc source s = Ok source' s' ->
  (getTypeString tc source s = Throw (Error "Unrecognized type source")
   <-> ~ recognized (heap s') source')
  /\ (forall l, source' = SourceValue (VRef l) -> is_type_object (heap s') l = true ->
      getTypeString tc source s
      = match getText (heap s') l with
        | Some text => Ok text s'
        | None => Throw TypeError
        end)
  /\ (forall str, source' = SourceValue (VStr str) ->
      getTypeString tc source s = Ok str s').
Proof.
  intros Hc. rewrite (getTypeString_eq _ _ _ _ _ Hc).
  split; [|split].
  - split.
    + intros Hthrow [(l & -> & Hl) | (str & ->)].
      * rewrite (typeTextM_object _ l s' eq_refl Hl) in Hthrow.
        destruct (getText (heap s') l); discriminate.
      * simpl in Hthrow. discriminate.
    + intros Hnot. destruct source' as [v| | |]; try reflexivity.
      destruct v as [| | |str|l]; try reflexivity.
      * exfalso. apply Hnot. right. eauto.
      * destruct (is_type_object (heap s') l) eqn:Hl.
        -- exfalso. apply Hnot. left. eauto.
        -- unfold is_type_object, instanceof_ArrayType, instanceof_StructType,
             instanceof_DictType in Hl.
           destruct (object_at (heap s') (VRef l)) as [[]|]; try discriminate; reflexivity.
  - intros l -> Hl. apply (typeTextM_object _ l s' eq_refl Hl).
  - intros str ->. reflexivity.
Qed.

Lemma getTypeString_throws_iff_witness :
  getTypeString Example.checker (SourceNode Example.paren) newTypeHelper
  = Ok "struct struct_0_t *" Example.pointRegistered
  /\ getTypeString Example.checker (SourceValue (VBool true)) newTypeHelper
     = Throw (Error "Unrecognized type source").
Proof.
  split.
  - destruct (getTypeString_throws_iff Example.checker (SourceNode Example.paren)
                newTypeHelper (SourceValue (VRef 0)) Example.pointRegistered)
      as (_ & H & _); [reflexivity|].
    apply (H 0); reflexivity.
  - destruct (getTypeString_throws_iff Example.checker (SourceValue (VBool true))
                newTypeHelper (SourceValue (VBool true)) newTypeHelper)
      as ([_ H] & _ & _); [reflexivity|].
    apply H. intros [(l & Hl & _) | (str & Hs)]; discriminate.
Defined.

Lemma variableData_eq k s vd :
  Js.get k (variablesData s) = Some vd -> variableData k s = Ok vd s.
Proof. unfold variableData, bind, gets. intros ->. reflexivity. Qed.

Lemma variableInfo_eq k s vi :
  Js.get k (variables s) = Some vi -> variableInfo k s = Ok vi s.
Proof. unfold variableInfo, bind, gets. intros ->. reflexivity. Qed.

Lemma updateVariableInfo_eq k f s vi :
  Js.get k (variables s) = Some vi ->
  updateVariableInfo k f s = Ok tt (with_variables (Js.set k (f vi)) s).
Proof.
  intros H. unfold updateVariableInfo. erewrite bind_eq by (apply variableInfo_eq, H).
  reflexivity.
Qed.

Lemma updateVariableData_eq k f s vd :
  Js.get k (variablesData s) = Some vd ->
  updateVariableData k f s = Ok tt (with_variablesData (Js.set k (f vd)) s).
Proof.
  intros H. unfold updateVariableData. erewrite bind_eq by (apply variableData_eq, H).
  reflexivity.
Qed.

Lemma updateHeap_eq l f s o :
  heap s !! l = Some o ->
  updateHeap l f s = Ok tt (with_heap (fun h => <[l := f o]> h) s).
Proof.
  intros H. unfold updateHeap, bind, gets. rewrite H. reflexivity.
Qed.

Lemma instanceof_TypePromise_struct h (l : loc) nm ps nm' ps' v :
  h !! l = Some (StructType nm ps) ->
  instanceof_TypePromise (<[l := StructType nm' ps']> h) v = instanceof_TypePromise h v.
Proof.
  intros Hl. unfold instanceof_TypePromise, object_at.
  destruct v as [| | | |l']; try reflexivity. simpl.
  destruct (decide (l = l')) as [<-|Hne].
  - rewrite list_lookup_insert_eq by (eapply lookup_lt_Some; eauto).
    rewrite Hl. reflexivity.
  - rewrite list_lookup_insert_ne by assumption. reflexivity.
Qed.

Lemma mergeInto_ext h h' properties added :
  (forall v, instanceof_TypePromise h' v = instanceof_TypePromise h v) ->
  mergeInto h' properties added = mergeInto h properties added.
Proof.
  intros Hext. unfold mergeInto. revert properties.
  induction added as [|[p v] added IH]; intros ps; cbn [fold_left fst snd]; [reflexivity|].
  rewrite Hext. apply IH.
Qed.

Lemma forEach_mergeAddedProperty l added : forall s nm properties,
  heap s !! l = Some (StructType nm properties) ->
  forEach (mergeAddedProperty l) added s
  = Ok tt (with_heap
             (fun h => <[l := StructType nm (mergeInto (heap s) properties added)]> h) s).
Proof.
  induction added as [|[p v] added IH]; intros s nm properties Hl; simpl.
  - unfold ret, mergeInto. simpl. f_equal. destruct s as [hp vs us vds fcd frd frt fp alt olt tv]; unfold with_heap; simpl in *.
    f_equal. symmetry. apply list_insert_id, Hl.
  - unfold bind at 1. unfold mergeAddedProperty at 1. unfold bind, gets. simpl.
    destruct (instanceof_TypePromise (heap s) v) eqn:Hp.
    + unfold ret. rewrite (IH s nm properties Hl). unfold mergeInto.
      cbn [fold_left fst snd]. try rewrite Hp. reflexivity.
    + rewrite (updateHeap_eq _ _ _ _ Hl). simpl.
      erewrite IH.
      2:{ simpl. apply list_lookup_insert_eq. eapply lookup_lt_Some; eauto. }
      f_equal. destruct s as [hp vs us vds fcd frd frt fp alt olt tv]; unfold with_heap; simpl in *. f_equal.
      rewrite list_insert_insert_eq. f_equal. f_equal.
      rewrite (mergeInto_ext hp).
      * unfold mergeInto. cbn [fold_left fst snd]. try rewrite Hp. reflexivity.
      * intros v0. eapply instanceof_TypePromise_struct, Hl.
Qed.

Lemma mergeInto_get_absent h p added : forall properties,
  ~ In p (Js.keys added) ->
  Js.get p (mergeInto h properties added) = Js.get p properties.
Proof.
  unfold mergeInto.
  induction added as [|[p' v'] added IH]; intros ps Hnot; cbn [fold_left fst snd];
    [reflexivity|].
  simpl in Hnot. rewrite IH by tauto.
  destruct (instanceof_TypePromise h v'); [reflexivity|].
  apply get_set_ne. intros ->. tauto.
Qed.

Lemma mergeInto_get_added h p v added : forall properties,
  NoDup (Js.keys added) -> In (p, v) added ->
  instanceof_TypePromise h v = false ->
  Js.get p (mergeInto h properties added) = Some v.
Proof.
  induction added as [|[p' v'] added IH]; intros ps Hnd Hin Hv; [destruct Hin|].
  simpl in Hnd. apply NoDup_cons in Hnd as [Hfresh Hnd].
  destruct Hin as [[= -> ->]|Hin].
  - unfold mergeInto. cbn [fold_left fst snd]. rewrite Hv.
    fold (mergeInto h (Js.set p v ps) added).
    rewrite mergeInto_get_absent.
    + apply get_set_eq.
    + unfold Js.keys. rewrite <- list_elem_of_In. exact Hfresh.
  - unfold mergeInto. cbn [fold_left fst snd]. apply IH; assumption.
Qed.

Lemma mergeInto_get_promises h p added : forall properties,
  (forall v, In (p, v) added -> instanceof_TypePromise h v = true) ->
  Js.get p (mergeInto h properties added) = Js.get p properties.
Proof.
  unfold mergeInto.
  induction added as [|[p' v'] added IH]; intros ps Hall; cbn [fold_left fst snd];
    [reflexivity|].
  rewrite IH by (intros v Hin; apply Hall; right; exact Hin).
  destruct (instanceof_TypePromise h v') eqn:Hv'; [reflexivity|].
  apply get_set_ne. intros ->. rewrite (Hall v') in Hv'; [discriminate|left; reflexivity].
Qed.

(** ** Finalization of a variable *)

(** C1, as amended: the finalization of a variable looks at the keys of its
    evidence set other than the two fallbacks.  With exactly one, the type of
    the variable is that candidate; an array candidate gets the
    [isDynamicArray] usage flag of the variable or-ed into its own, and
    [requiresAllocation] is set when that usage flag is set; for a dict
    candidate [requiresAllocation] is set; for a struct candidate it is set
    when an object literal was assigned, and every entry of
    [addedProperties] that is not a promise is merged into its properties.
    With none, the type is the opaque pointer; with two or more it is the
    universal type and [requiresAllocation] is set.  [requiresAllocation] is
    never cleared, and [isDict] is not looked at. *)
Theorem finalizeVariable_spec k s vd vi :
  Js.get k (variablesData s) = Some vd ->
  Js.get k (variables s) = Some vi ->
  exists s' vi',
    finalizeVariable k s = Ok tt s'
    /\ Js.get k (variables s') = Some vi'
    /\ (forall k', k' <> k -> Js.get k' (variables s') = Js.get k' (variables s))
    /\ variablesData s' = variablesData s
    /\ match candidates vd with
       | [] =>
           type vi' = VStr PointerVarType
           /\ requiresAllocation vi' = requiresAllocation vi
           /\ heap s' = heap s
       | [t] =>
           let varType := lookup_value t (assignmentTypes vd) in
           type vi' = varType
           /\ match object_at (heap s) varType with
              | Some (ArrayType elementType capacity dynamic) =>
                  (exists l,
                     varType = VRef l
                     /\ heap s'
                        = <[l := ArrayType elementType capacity
                                   (dynamic || isDynamicArray vd)]> (heap s))
                  /\ requiresAllocation vi' = requiresAllocation vi || isDynamicArray vd
              | Some (StructType structName properties) =>
                  (exists l properties',
                     varType = VRef l
                     /\ heap s' = <[l := StructType structName properties']> (heap s)
                     /\ merges (heap s) (addedProperties vd) properties properties')
                  /\ requiresAllocation vi' = requiresAllocation vi || objLiteralAssigned vd
              | Some (DictType _) =>
                  heap s' = heap s /\ requiresAllocation vi' = true
              | _ =>
                  heap s' = heap s /\ requiresAllocation vi' = requiresAllocation vi
              end
       | _ :: _ :: _ =>
           type vi' = VStr UniversalVarType
           /\ requiresAllocation vi' = true
           /\ heap s' = heap s
       end.
Proof.
  intros Hvd Hvi. unfold finalizeVariable.
  erewrite bind_eq by (apply variableData_eq, Hvd).
  fold (candidates vd). destruct (candidates vd) as [|t [|t' rest]].
  - rewrite (updateVariableInfo_eq _ _ _ _ Hvi).
    eexists _, _. split; [reflexivity|]. simpl.
    split; [apply get_set_eq|]. split; [intros k' Hk'; apply get_set_ne; congruence|].
    auto.
  - set (varType := lookup_value t (assignmentTypes vd)).
    unfold bind at 1. unfold gets at 1.
    destruct varType as [| | | |l] eqn:HvT;
      try (simpl; unfold bind at 1, ret at 1;
           rewrite (updateVariableInfo_eq _ _ _ _ Hvi);
           eexists _, _; split; [reflexivity|]; simpl;
           split; [apply get_set_eq|];
           split; [intros k' Hk'; apply get_set_ne; congruence|]; auto).
    simpl. destruct (heap s !! l) as [o|] eqn:Hl.
    2:{ unfold bind at 1, ret at 1. rewrite (updateVariableInfo_eq _ _ _ _ Hvi).
        eexists _, _. split; [reflexivity|]. simpl.
        split; [apply get_set_eq|].
        split; [intros k' Hk'; apply get_set_ne; congruence|]. auto. }
    destruct o as [elementType capacity dynamic|structName properties|elementType|].
    + (* array *)
      unfold bind at 1. unfold bind at 1. rewrite (updateHeap_eq _ _ _ _ Hl). simpl.
      destruct (isDynamicArray vd) eqn:Hdyn.
      * erewrite updateVariableInfo_eq by exact Hvi. simpl.
        erewrite updateVariableInfo_eq by (simpl; apply get_set_eq).
        eexists _, _. split; [reflexivity|]. simpl.
        split; [apply get_set_eq|].
        split; [intros k' Hk'; rewrite !get_set_ne by congruence; reflexivity|].
        split; [reflexivity|]. split; [reflexivity|].
        split; [|rewrite orb_true_r; reflexivity].
        eexists. split; reflexivity.
      * unfold ret. erewrite updateVariableInfo_eq by exact Hvi.
        eexists _, _. split; [reflexivity|]. simpl.
        split; [apply get_set_eq|].
        split; [intros k' Hk'; rewrite !get_set_ne by congruence; reflexivity|].
        split; [reflexivity|]. split; [reflexivity|].
        split; [|rewrite orb_false_r; reflexivity].
        eexists. split; reflexivity.
    + (* struct *)
      unfold bind at 1. unfold bind at 1.
      assert (Hmerge : merges (heap s) (addedProperties vd) properties
                         (mergeInto (heap s) properties (addedProperties vd))).
      { split.
        - intros p v Hnd Hin Hv. apply mergeInto_get_added; assumption.
        - intros p Hall. apply mergeInto_get_promises, Hall. }
      destruct (objLiteralAssigned vd) eqn:Hobj.
      * erewrite updateVariableInfo_eq by exact Hvi.
        erewrite forEach_mergeAddedProperty by (simpl; exact Hl). simpl.
        erewrite updateVariableInfo_eq by (simpl; apply get_set_eq).
        eexists _, _. split; [reflexivity|]. simpl.
        split; [apply get_set_eq|].
        split; [intros k' Hk'; rewrite !get_set_ne by congruence; reflexivity|].
        split; [reflexivity|]. split; [reflexivity|].
        split; [|rewrite orb_true_r; reflexivity].
        eexists _, _. split; [reflexivity|]. split; [reflexivity|exact Hmerge].
      * unfold ret at 1.
        erewrite forEach_mergeAddedProperty by (simpl; exact Hl). simpl.
        erewrite updateVariableInfo_eq by (simpl; exact Hvi).
        eexists _, _. split; [reflexivity|]. simpl.
        split; [apply get_set_eq|].
        split; [intros k' Hk'; rewrite !get_set_ne by congruence; reflexivity|].
        split; [reflexivity|]. split; [reflexivity|].
        split; [|rewrite orb_false_r; reflexivity].
        eexists _, _. split; [reflexivity|]. split; [reflexivity|exact Hmerge].
    + (* dict *)
      unfold bind at 1. erewrite updateVariableInfo_eq by exact Hvi. simpl.
      erewrite updateVariableInfo_eq by (simpl; apply get_set_eq).
      eexists _, _. split; [reflexivity|]. simpl.
      split; [apply get_set_eq|].
      split; [intros k' Hk'; rewrite !get_set_ne by congruence; reflexivity|]. auto.
    + (* a promise is not a type *)
      unfold bind at 1, ret at 1. rewrite (updateVariableInfo_eq _ _ _ _ Hvi).
      eexists _, _. split; [reflexivity|]. simpl.
      split; [apply get_set_eq|].
      split; [intros k' Hk'; apply get_set_ne; congruence|]. auto.
  - unfold bind at 1. erewrite updateVariableInfo_eq by exact Hvi. simpl.
    erewrite updateVariableInfo_eq by (simpl; apply get_set_eq).
    eexists _, _. split; [reflexivity|]. simpl.
    split; [apply get_set_eq|].
    split; [intros k' Hk'; rewrite !get_set_ne by congruence; reflexivity|]. auto.
Qed.

(** ** Registration of structs *)

Lemma findStructure_eq h code us s :
  findStructure h code us s
  = match firstStructure h code us with
    | Some r => Ok r s
    | None => Throw TypeError
    end.
Proof.
  induction us as [|[nm l] us IH]; simpl; [reflexivity|].
  destruct (h !! l) as [[]|]; try reflexivity.
  unfold bind, defined. destruct (structureBodyString h properties); [|reflexivity].
  simpl. destruct (String.eqb s0 code); [reflexivity|apply IH].
Qed.

(** Rendering does not depend on the objects created later. *)

Lemma getText_fuel_mono n : forall m h l t,
  getText_fuel n h l = Some t -> n <= m -> getText_fuel m h l = Some t.
Proof.
  induction n as [|n IH]; intros m h l t H Hle; [discriminate|].
  destruct m as [|m]; [lia|]. simpl in *.
  destruct (h !! l) as [[elementType cap dyn|nm ps|elementType|]|]; try discriminate.
  - destruct elementType as [| | |str|l']; try discriminate; [exact H|].
    destruct (getText_fuel n h l') eqn:He; [|discriminate].
    erewrite (IH m) by (try exact He; lia). exact H.
  - exact H.
  - destruct elementType as [| | |str|l']; try discriminate; [exact H|].
    destruct (getText_fuel n h l') eqn:He; [|discriminate].
    erewrite (IH m) by (try exact He; lia). exact H.
Qed.

Lemma getText_fuel_ext n : forall h ext l t,
  getText_fuel n h l = Some t -> getText_fuel n (h ++ ext) l = Some t.
Proof.
  induction n as [|n IH]; intros h ext l t H; [discriminate|].
  simpl in *.
  destruct (h !! l) as [o|] eqn:Hl; [|discriminate].
  rewrite (lookup_app_l_Some _ _ _ _ Hl).
  destruct o as [elementType cap dyn|nm ps|elementType|]; try discriminate.
  - destruct elementType as [| | |str|l']; try discriminate; [exact H|].
    destruct (getText_fuel n h l') eqn:He; [|discriminate].
    erewrite IH by exact He. exact H.
  - exact H.
  - destruct elementType as [| | |str|l']; try discriminate; [exact H|].
    destruct (getText_fuel n h l') eqn:He; [|discriminate].
    erewrite IH by exact He. exact H.
Qed.

Lemma getText_ext h ext l t :
  getText h l = Some t -> getText (h ++ ext) l = Some t.
Proof.
  unfold getText. intros H.
  apply getText_fuel_mono with (n := S (length h)).
  - apply getText_fuel_ext, H.
  - rewrite length_app. lia.
Qed.

Lemma getText_defined h l t : getText h l = Some t -> is_Some (h !! l).
Proof.
  unfold getText. simpl. destruct (h !! l); [eauto|discriminate].
Qed.

Lemma structureBodyLine_ext h ext p v line :
  structureBodyLine h p v = Some line -> structureBodyLine (h ++ ext) p v = Some line.
Proof.
  unfold structureBodyLine. destruct v as [| | |str|l]; try discriminate; [auto|].
  destruct (getText h l) as [t|] eqn:Ht; [|discriminate].
  rewrite (getText_ext _ ext _ _ Ht).
  destruct (getText_defined _ _ _ Ht) as [o Ho].
  unfold instanceof_ArrayType, object_at.
  rewrite (lookup_app_l_Some _ _ _ _ Ho), Ho. auto.
Qed.

Lemma structureBodyLines_ext h ext ps : forall acc code,
  structureBodyLines h ps acc = Some code ->
  structureBodyLines (h ++ ext) ps acc = Some code.
Proof.
  induction ps as [|[p v] ps IH]; intros acc code H; simpl in *; [exact H|].
  destruct (structureBodyLine h p v) as [line|] eqn:Hline; [|discriminate].
  rewrite (structureBodyLine_ext _ ext _ _ _ Hline). apply IH, H.
Qed.

Lemma structureBodyString_ext h ext ps code :
  structureBodyString h ps = Some code ->
  structureBodyString (h ++ ext) ps = Some code.
Proof.
  unfold structureBodyString. intros H.
  destruct (structureBodyLines h ps _) as [c|] eqn:Hc; [|discriminate].
  rewrite (structureBodyLines_ext _ ext _ _ _ Hc). exact H.
Qed.

Lemma firstStructure_ext h ext code us r :
  firstStructure h code us = Some r -> firstStructure (h ++ ext) code us = Some r.
Proof.
  induction us as [|[nm l] us IH]; simpl; [auto|].
  destruct (h !! l) as [o|] eqn:Hl; [|discriminate].
  rewrite (lookup_app_l_Some _ _ _ _ Hl).
  destruct o as [|snm ps| |]; try discriminate.
  destruct (structureBodyString h ps) as [c|] eqn:Hc; [|discriminate].
  rewrite (structureBodyString_ext _ ext _ _ Hc).
  destruct (String.eqb c code); auto.
Qed.

Lemma firstStructure_app h code us more nm :
  firstStructure h code us = Some (Some nm) ->
  firstStructure h code (us ++ more) = Some (Some nm).
Proof.
  induction us as [|[nm' l] us IH]; simpl; [discriminate|].
  destruct (h !! l) as [[|snm ps| |]|]; try discriminate.
  destruct (structureBodyString h ps) as [c|]; [|discriminate].
  destruct (String.eqb c code); auto.
Qed.

Lemma firstStructure_None h code us :
  firstStructure h code us = Some None -> Forall (hasOtherBody h code) us.
Proof.
  induction us as [|[nm l] us IH]; simpl; intros H; [constructor|].
  destruct (h !! l) as [[|snm ps| |]|] eqn:Hl; try discriminate.
  destruct (structureBodyString h ps) as [c|] eqn:Hc; [|discriminate].
  destruct (String.eqb c code) eqn:Heq; [discriminate|].
  constructor; [|apply IH, H]. exists snm, ps, c. auto.
Qed.

Lemma firstStructure_found h code nm l us :
  hasBody h code (nm, l) ->
  In (nm, l) us ->
  Forall (fun e => e = (nm, l) \/ hasOtherBody h code e) us ->
  firstStructure h code us = Some (Some nm).
Proof.
  intros (snm & ps & Hl & Hc) Hin Hall.
  induction us as [|[nm' l'] us IH]; [destruct Hin|].
  inversion Hall as [|? ? Hhd Htl]; subst. simpl.
  destruct Hhd as [[= -> ->]|(snm' & ps' & c & Hl' & Hc' & Hne)]; simpl in *.
  - rewrite Hl, Hc, String.eqb_refl. reflexivity.
  - rewrite Hl', Hc', Hne. apply IH; [|exact Htl].
    destruct Hin as [[= -> ->]|Hin]; [|exact Hin].
    rewrite Hl in Hl'. injection Hl' as <- <-. rewrite Hc in Hc'. injection Hc' as <-.
    rewrite String.eqb_refl in Hne. discriminate.
Qed.

Lemma In_replace {V} (k : string) (v : V) o e :
  In e (Js.replace k v o) -> e = (k, v) \/ In e o.
Proof.
  induction o as [|[k' v'] o IH]; simpl; [intros []|].
  destruct (decide (k = k')); simpl; (intros [H|H]; [subst e; auto|]); auto.
  destruct (IH H); auto.
Qed.

Lemma In_insert_index {V} n (k : string) (v : V) o e :
  In e (Js.insert_index n k v o) -> e = (k, v) \/ In e o.
Proof.
  induction o as [|[k' v'] o IH]; cbn [Js.insert_index];
    [simpl; intros [H|[]]; subst e; auto|].
  destruct (array_index k') as [n'|]; [destruct (n' <? n)%N|]; cbn [In];
    (intros [H|H]; [subst e; auto|]); auto.
  destruct (IH H); auto.
Qed.

Lemma In_set {V} (k : string) (v : V) o e :
  In e (Js.set k v o) -> e = (k, v) \/ In e o.
Proof.
  unfold Js.set. destruct (Js.get k o).
  - apply In_replace.
  - destruct (array_index k).
    + apply In_insert_index.
    + rewrite in_app_iff. simpl. intros [H|[H|[]]]; auto.
Qed.

Lemma get_In {V} (k : string) (v : V) o : Js.get k o = Some v -> In (k, v) o.
Proof.
  induction o as [|[k' v'] o IH]; simpl; [discriminate|].
  destruct (decide (k = k')) as [->|]; [intros [= ->]; auto|auto].
Qed.

Lemma set_In {V} (k : string) (v : V) o : In (k, v) (Js.set k v o).
Proof. apply get_In, get_set_eq. Qed.

Lemma framed_propertiesInfo props : forall info, framed (propertiesInfo props info).
Proof.
  induction props as [|[[prop t1] e] props IH]; intros info; simpl.
  - apply respects_ret, frame_refl.
  - apply respects_bind; [apply frame_trans|apply framed_convertType|intros propType].
    apply respects_bind; [apply frame_trans| |intros ?; apply IH].
    destruct (_ && _); [|apply respects_ret, frame_refl].
    destruct (ts.initializer _); [|apply respects_ret, frame_refl].
    destruct (ts.is_kind _ _); [|apply respects_ret, frame_refl].
    apply framed_determineArrayType_with, framed_convertType.
Qed.


Lemma firstStructure_Some_get h code us nm :
  firstStructure h code us = Some (Some nm) -> is_Some (Js.get nm us).
Proof.
  induction us as [|[nm' l] us IH]; simpl; [discriminate|].
  destruct (h !! l) as [[|snm ps| |]|]; try discriminate.
  destruct (structureBodyString h ps) as [c|]; [|discriminate].
  destruct (String.eqb c code).
  - intros [= ->]. destruct (decide (nm = nm)); [eauto|congruence].
  - intros H. destruct (decide (nm = nm')); [eauto|auto].
Qed.

Lemma hasOtherBody_ext h ext code e :
  hasOtherBody h code e -> hasOtherBody (h ++ ext) code e.
Proof.
  intros (snm & ps & c & Hl & Hc & Hne). exists snm, ps, c.
  split; [apply lookup_app_l_Some, Hl|]. split; [apply structureBodyString_ext, Hc|exact Hne].
Qed.

(** A replacement text without [$] is put in as it is. *)
Lemma substitution_plain matched before after r :
  Forall (fun a => a <> "$"%char) (list_ascii_of_string r) ->
  Js.substitution matched before after r = r.
Proof.
  induction r as [|a r IH]; cbn [list_ascii_of_string Js.substitution]; [reflexivity|].
  intros Hall. apply Forall_cons in Hall as [Ha Hall].
  apply Ascii.eqb_neq in Ha. rewrite Ha, (IH Hall). reflexivity.
Qed.







Lemma finalizeVariable_spec_witness :
  exists s', finalizeVariable 18 Example.programResolved = Ok tt s'.
Proof.
  destruct (finalizeVariable_spec 18 Example.programResolved
              (mkVariableData (Some Example.anyType)
                 [("struct js_var *", VStr UniversalVarType); ("ARRAY(int16_t)", VRef 1)]
                 [0] [] None None false false false)
              (mkVariableInfo "a" (VRef 1)
                 [Example.ident 18 "a"; Example.ident 26 "a"] (Some Example.declA) false)
              eq_refl eq_refl)
    as (s' & vi' & H & _).
  exists s'. exact H.
Defined.

(** C1, as stated, fails: in the state the engine reaches on
    [function f(p) { var a = []; a[0] = p; } f(5);] the only candidate of
    [a] is a dynamic array, the finalization of [a] chooses it, and
    [requiresAllocation] stays unset. *)
Lemma finalizeVariable_dynamic_array_unallocated :
  figureOutVariablesAndTypes Example.checkerF 3 [Example.program] newTypeHelper
  = Some (Ok tt Example.programResolved)
  /\ exists vd s' vi',
      Js.get 18%N (variablesData Example.programResolved) = Some vd
      /\ candidates vd = ["ARRAY(int16_t)"]
      /\ finalizeVariable 18 Example.programResolved = Ok tt s'
      /\ Js.get 18%N (variables s') = Some vi'
      /\ object_at (heap s') (type vi') = Some (ArrayType (VStr NumberVarType) 0 true)
      /\ requiresAllocation vi' = false.
Proof.
  split; [vm_compute; reflexivity|].
  eexists _, _, _.
  split; [vm_compute; reflexivity|]. split; [vm_compute; reflexivity|].
  split; [vm_compute; reflexivity|]. split; [vm_compute; reflexivity|].
  split; vm_compute; reflexivity.
Qed.



(** ** Call-site and return evidence *)

Lemma evidenceKept_refl s : evidenceKept s s.
Proof. constructor; auto. exists []. symmetry. apply app_nil_r. Qed.

Lemma evidenceKept_trans s1 s2 s3 :
  evidenceKept s1 s2 -> evidenceKept s2 s3 -> evidenceKept s1 s3.
Proof.
  intros [[e1 H1] ? ? ? ? ?] [[e2 H2] ? ? ? ? ?].
  constructor; try congruence.
  exists (e1 ++ e2). rewrite H2, H1. symmetry. apply app_assoc.
Qed.

Lemma frame_evidenceKept s s' : frame s s' -> evidenceKept s s'.
Proof. intros []. constructor; assumption. Qed.

Lemma framed_evidenceKept {A} (m : M A) : framed m -> respects evidenceKept m.
Proof. intros H s a s' Hm. apply frame_evidenceKept. eapply H, Hm. Qed.

Lemma determineType_evidenceKept tc left right :
  respects evidenceKept (determineType tc left right).
Proof.
  unfold determineType. destruct right as [r|].
  - destruct (ts.is_kind _ r).
    + apply respects_bind; [apply evidenceKept_trans|apply respects_defined, evidenceKept_refl|].
      intros t.
      apply respects_bind; [apply evidenceKept_trans| |].
      * apply framed_evidenceKept, framed_generateStructure.
      * intros type.
        apply respects_bind; [apply evidenceKept_trans| |intros ?; apply respects_ret, evidenceKept_refl].
        intros s a s' H. inversion H; subst. constructor; simpl; auto.
        exists []. symmetry. apply app_nil_r.
    + destruct (ts.is_kind _ r).
      * apply framed_evidenceKept, framed_determineArrayType.
      * apply respects_bind; [apply evidenceKept_trans| |].
        -- apply framed_evidenceKept, framed_convertType.
        -- intros type. destruct (_ && _).
           ++ apply respects_bind; [apply evidenceKept_trans| |intros ?; apply respects_ret, evidenceKept_refl].
              apply framed_evidenceKept, framed_new.
           ++ apply respects_ret, evidenceKept_refl.
  - apply respects_bind; [apply evidenceKept_trans|apply respects_defined, evidenceKept_refl|].
    intros l. apply framed_evidenceKept, framed_convertType.
Qed.

(** [arr[i]] after [arr[i] = v]. *)
Lemma nth_value_set_nth_eq l i v : nth_value (set_nth l i v) i = v.
Proof.
  unfold nth_value, set_nth. destruct (decide (i < length l)).
  - rewrite list_lookup_insert_eq by assumption. reflexivity.
  - rewrite lookup_app_r by lia. rewrite lookup_app_r by (rewrite repeat_length; lia).
    rewrite repeat_length. replace (i - length l - (i - length l)) with 0 by lia.
    reflexivity.
Qed.

Lemma nth_value_set_nth_ne l i j v : j <> i -> nth_value (set_nth l i v) j = nth_value l j.
Proof.
  intros Hne. unfold nth_value, set_nth. destruct (decide (i < length l)).
  - rewrite list_lookup_insert_ne by congruence. reflexivity.
  - destruct (decide (j < length l)).
    + rewrite lookup_app_l by assumption. reflexivity.
    + rewrite (lookup_ge_None_2 l j) by lia.
      rewrite lookup_app_r by lia.
      destruct (decide (j - length l < i - length l)).
      * rewrite lookup_app_l by (rewrite repeat_length; lia).
        destruct (repeat VUndef (i - length l) !! (j - length l)) as [x|] eqn:Hx; [|reflexivity].
        apply list_elem_of_lookup_2, list_elem_of_In, repeat_spec in Hx. subst. reflexivity.
      * rewrite lookup_app_r by (rewrite repeat_length; lia).
        rewrite repeat_length.
        destruct (j - length l - (i - length l)) as [|k] eqn:Hk; [lia|]. reflexivity.
Qed.

(** C5, as amended: at a call site, the evidence derived for the argument
    at position [i] replaces the recorded one when that is absent, the
    universal fallback or a promise; any other recorded value, the
    opaque-pointer fallback included, is kept.  The other positions and the
    other functions are left as they were. *)
Theorem recordCallArgument_spec tc funcDeclPos i arg s determinedType s1 :
  determineType tc None (Some arg) s = Ok determinedType s1 ->
  exists s2,
    recordCallArgument tc funcDeclPos i arg s = Ok tt s2
    /\ heap s2 = heap s1
    /\ nth_value (callDataOf funcDeclPos s2) i
       = (if superseded (heap s1) (nth_value (callDataOf funcDeclPos s) i)
          then determinedType
          else nth_value (callDataOf funcDeclPos s) i)
    /\ (forall j, j <> i ->
          nth_value (callDataOf funcDeclPos s2) j = nth_value (callDataOf funcDeclPos s) j)
    /\ (forall f, f <> funcDeclPos ->
          Js.get f (functionCallsData s2) = Js.get f (functionCallsData s)).
Proof.
  intros Hdet. unfold recordCallArgument.
  erewrite bind_eq by exact Hdet.
  pose proof (determineType_evidenceKept _ _ _ _ _ _ Hdet) as [_ _ _ Hcalls _ _].
  unfold bind, gets, modify. simpl.
  change (default [] (Js.get funcDeclPos (functionCallsData s1)))
    with (callDataOf funcDeclPos s1).
  assert (Hsame : callDataOf funcDeclPos s1 = callDataOf funcDeclPos s)
    by (unfold callDataOf; rewrite Hcalls; reflexivity).
  rewrite Hsame. fold (superseded (heap s1) (nth_value (callDataOf funcDeclPos s) i)).
  assert (Hset : forall v (st : TypeHelper),
            callDataOf funcDeclPos (with_functionCallsData (Js.set funcDeclPos v) st) = v).
  { intros v st. unfold callDataOf. simpl. rewrite get_set_eq. reflexivity. }
  destruct (superseded (heap s1) (nth_value (callDataOf funcDeclPos s) i)).
  - eexists. split; [reflexivity|]. rewrite Hset.
    split; [reflexivity|].
    split; [apply nth_value_set_nth_eq|].
    split; [intros j Hj; apply nth_value_set_nth_ne, Hj|].
    intros f Hf. simpl. rewrite !get_set_ne by congruence. rewrite Hcalls. reflexivity.
  - eexists. split; [reflexivity|]. rewrite Hset.
    split; [reflexivity|].
    split; [reflexivity|]. split; [reflexivity|].
    intros f Hf. simpl. rewrite !get_set_ne by congruence. rewrite Hcalls. reflexivity.
Qed.

(** C4, as amended: a bare return sets the return evidence of its function
    to ["void"], whatever was recorded.  A return with an expression derives
    the type of the expression, takes a new promise over the expression in
    its place if it is a fallback, and records the result unless a value that
    is neither absent, nor the universal fallback, nor a promise is already
    recorded: such a value is never replaced by a return with an
    expression. *)
Theorem visitReturnStatement_spec tc ancestors ret_ s :
  let scopeId := scopeIdOf (ret_ :: ancestors) in
  (ts.expression ret_ = None ->
   visitReturnStatement tc ancestors ret_ s
   = Ok tt (with_functionReturnsData (Js.set scopeId (VStr "void")) s))
  /\ (forall expression determinedType s1,
        ts.expression ret_ = Some expression ->
        determineType tc None (Some expression) s = Ok determinedType s1 ->
        let evidence :=
          if fallback determinedType then VRef (length (heap s1)) else determinedType in
        let s2 :=
          if fallback determinedType then withPromise expression (VBool false) s1 else s1 in
        let old := lookup_value scopeId (functionReturnsData s) in
        visitReturnStatement tc ancestors ret_ s
        = Ok tt (if keptReturn (heap s2) old then s2
                 else with_functionReturnsData (Js.set scopeId evidence) s2)).
Proof.
  intros scopeId. unfold visitReturnStatement. fold scopeId. split.
  - intros ->. reflexivity.
  - intros expression determinedType s1 -> Hdet. simpl.
    erewrite bind_eq by exact Hdet.
    pose proof (determineType_evidenceKept _ _ _ _ _ _ Hdet) as [_ _ _ _ Hret _].
    unfold fallback. rewrite (orb_comm (eq_str determinedType PointerVarType)).
    unfold keptReturn, superseded.
    destruct (eq_str determinedType UniversalVarType || eq_str determinedType PointerVarType).
    + unfold bind, new, gets, modify, ret. simpl. rewrite Hret.
      destruct (negb _ || _ || _); reflexivity.
    + unfold bind, gets, modify, ret. simpl. rewrite Hret.
      destruct (negb _ || _ || _); reflexivity.
Qed.

Lemma recordCallArgument_spec_witness :
  exists s2,
    recordCallArgument Example.checkerF 1 0 (Example.num 42 "5") newTypeHelper = Ok tt s2
    /\ nth_value (callDataOf 1 s2) 0 = VStr NumberVarType.
Proof.
  destruct (recordCallArgument_spec Example.checkerF 1 0 (Example.num 42 "5")
              newTypeHelper (VStr NumberVarType) newTypeHelper eq_refl)
    as (s2 & H & _ & Hi & _).
  exists s2. split; [exact H|exact Hi].
Defined.

(** C5, as stated, fails: the opaque-pointer fallback recorded for the
    argument of [f(x + y)] is not replaced by the integer type of the
    argument of the later call [f(5)]. *)
Lemma pointer_evidence_not_superseded :
  exists s1 s2,
    visitCallExpression Example.checkerF Example.callFxy newTypeHelper = Ok tt s1
    /\ Js.get 1%N (functionCallsData s1) = Some [VStr PointerVarType]
    /\ determineType Example.checkerF None (Some (Example.num 42 "5")) s1
       = Ok (VStr NumberVarType) s1
    /\ visitCallExpression Example.checkerF Example.callF5 s1 = Ok tt s2
    /\ Js.get 1%N (functionCallsData s2) = Some [VStr PointerVarType].
Proof.
  eexists _, _.
  split; [vm_compute; reflexivity|]. split; [vm_compute; reflexivity|].
  split; [vm_compute; reflexivity|]. split; vm_compute; reflexivity.
Qed.

Lemma visitReturnStatement_spec_witness :
  visitReturnStatement Example.checkerF [Example.funcF] Example.return5 newTypeHelper
  = Ok tt (with_functionReturnsData (Js.set (FuncScope 1) (VStr NumberVarType))
             newTypeHelper).
Proof.
  destruct (visitReturnStatement_spec Example.checkerF [Example.funcF] Example.return5
              newTypeHelper) as [_ H].
  apply (H (Example.num 77 "5") (VStr NumberVarType) newTypeHelper); reflexivity.
Defined.

(** C4, as stated, fails: after [return 5;] has recorded the integer type,
    a bare [return;] of the same function replaces it by ["void"]. *)
Lemma bare_return_replaces_evidence :
  exists s1 s2,
    visitReturnStatement Example.checkerF [Example.funcF] Example.return5 newTypeHelper
    = Ok tt s1
    /\ Js.get (FuncScope 1) (functionReturnsData s1) = Some (VStr NumberVarType)
    /\ visitReturnStatement Example.checkerF [Example.funcF] Example.returnBare s1
       = Ok tt s2
    /\ Js.get (FuncScope 1) (functionReturnsData s2) = Some (VStr "void").
Proof.
  eexists _, _.
  split; [vm_compute; reflexivity|]. split; [vm_compute; reflexivity|].
  split; vm_compute; reflexivity.
Qed.

(** ** Writes with a dynamic key *)

Lemma bind_ret {A B} (a : A) (k : A -> M B) s : bind (ret a) k s = k a s.
Proof. reflexivity. Qed.

Lemma bind_gets {A B} (f : TypeHelper -> A) (k : A -> M B) s :
  bind (gets f) k s = k (f s) s.
Proof. reflexivity. Qed.

Lemma bind_modify {B} f (k : unit -> M B) s : bind (modify f) k s = k tt (f s).
Proof. reflexivity. Qed.

Lemma bind_new {B} o (k : loc -> M B) s :
  bind (new o) k s = k (length (heap s)) (with_heap (fun h => h ++ [o]) s).
Proof. reflexivity. Qed.

Lemma bind_defined {A B} (a : A) (k : A -> M B) s : bind (defined (Some a)) k s = k a s.
Proof. reflexivity. Qed.

Lemma bind_bind {A B C} (m : M A) (k1 : A -> M B) (k2 : B -> M C) s :
  bind (bind m k1) k2 s = bind m (fun a => bind (k1 a) k2) s.
Proof. unfold bind. destruct (m s); reflexivity. Qed.

Ltac mnorm :=
  repeat first
    [ rewrite bind_bind | rewrite bind_ret | rewrite bind_gets | rewrite bind_modify
    | rewrite bind_new | rewrite bind_defined ].

Lemma getText_fuel_promise n : forall h (p : loc) r ap a nd e o l,
  h !! p = Some (TypePromise r ap a nd e) ->
  (exists r' ap' a' nd' e', o = TypePromise r' ap' a' nd' e') ->
  getText_fuel n (<[p := o]> h) l = getText_fuel n h l.
Proof.
  induction n as [|n IH]; intros h p r ap a nd e o l Hp Ho; [reflexivity|].
  simpl. destruct (decide (p = l)) as [<-|Hne].
  - rewrite list_lookup_insert_eq by (eapply lookup_lt_Some; eauto). rewrite Hp.
    destruct Ho as (r' & ap' & a' & nd' & e' & ->). reflexivity.
  - rewrite list_lookup_insert_ne by assumption.
    destruct (h !! l) as [[elementType cap dyn|nm ps|elementType|]|]; try reflexivity.
    + destruct elementType as [| | |str|l']; try reflexivity.
      rewrite (IH h p r ap a nd e o l' Hp Ho). reflexivity.
    + destruct elementType as [| | |str|l']; try reflexivity.
      rewrite (IH h p r ap a nd e o l' Hp Ho). reflexivity.
Qed.

Lemma getText_fuel_array n h (l : loc) elementType capacity dynamic :
  h !! l = Some (ArrayType elementType capacity dynamic) ->
  getText_fuel (S n) h l
  = match (match elementType with
           | VStr s => Some s
           | VRef l' => getText_fuel n h l'
           | _ => None
           end) with
    | Some t =>
        if dynamic then Some ("ARRAY(" +:+ t +:+ ")")
        else Some ("static " +:+ t +:+ " {var}[" +:+ pretty capacity +:+ "]")
    | None => None
    end.
Proof. intros H. simpl. rewrite H. reflexivity. Qed.

Lemma getText_new_array h elementType text :
  typeText h elementType = Some text ->
  getText (h ++ [ArrayType elementType 0 true]) (length h) = Some ("ARRAY(" +:+ text +:+ ")").
Proof.
  intros Ht. unfold getText. rewrite length_app.
  replace (length h + length [ArrayType elementType 0 true]) with (S (length h))
    by (simpl; lia).
  rewrite (getText_fuel_array _ _ _ elementType 0%N true).
  2:{ rewrite lookup_app_r by reflexivity.
      replace (length h - length h) with 0 by lia. reflexivity. }
  destruct elementType as [| | |str|l']; try discriminate.
  - simpl in Ht. injection Ht as ->. reflexivity.
  - unfold typeText, getText in Ht. rewrite (getText_fuel_ext _ _ _ _ _ Ht). reflexivity.
Qed.

(** C10: a write [target[key] = value] whose key is neither a string literal
    nor a numeric literal and whose derived type is a promise marks the
    variable [isDict], tags the promise [arrayOf] and adds it to the promises
    of the variable, and leaves the candidates of the variable as they are.
    When such a promise is discharged, the candidate it adds is a new dynamic
    array of the resolved type, under the text of that array: never a dict,
    and the candidates under other keys are kept. *)
Theorem dynamicKey_promise_gives_array tc varPos :
  (forall argument l s vd r ap a nd e,
     ts.is_kind ts.SyntaxKind.StringLiteral argument = false ->
     ts.is_kind ts.SyntaxKind.NumericLiteral argument = false ->
     heap s !! l = Some (TypePromise r ap a nd e) ->
     Js.get varPos (variablesData s) = Some vd ->
     exists s' vd',
       recordElementWrite varPos argument (VRef l) s = Ok tt s'
       /\ Js.get varPos (variablesData s') = Some vd'
       /\ isDict vd' = true
       /\ assignmentTypes vd' = assignmentTypes vd
       /\ typePromises vd' = typePromises vd ++ [l]
       /\ heap s' = <[l := TypePromise r ap true nd e]> (heap s))
  /\ (forall promise s r nd e resolvedType s1 text vd,
        heap s !! promise = Some (TypePromise r None true nd e) ->
        getCType tc nd s = Ok resolvedType s1 ->
        not_nullish resolvedType = true ->
        typeText (heap s1) resolvedType = Some text ->
        Js.get varPos (variablesData s1) = Some vd ->
        exists s' vd',
          resolvePromise tc varPos promise s = Ok true s'
          /\ Js.get varPos (variablesData s') = Some vd'
          /\ heap s' !! length (heap s1) = Some (ArrayType resolvedType 0 true)
          /\ instanceof_DictType (heap s') (VRef (length (heap s1))) = false
          /\ assignmentTypes vd'
             = Js.set ("ARRAY(" +:+ text +:+ ")") (VRef (length (heap s1)))
                 (assignmentTypes vd)
          /\ (forall k, k <> "ARRAY(" +:+ text +:+ ")" ->
                Js.get k (assignmentTypes vd') = Js.get k (assignmentTypes vd))).
Proof.
  split.
  - intros argument l s vd r ap a nd e Hstr Hnum Hl Hvd.
    unfold recordElementWrite. mnorm. rewrite Hstr, Hnum.
    erewrite bind_eq by (apply updateVariableData_eq, Hvd).
    unfold as_promise. rewrite Hl.
    erewrite bind_eq by (apply updateHeap_eq; cbn; exact Hl).
    unfold pushPromise.
    erewrite updateVariableData_eq by (cbn; apply get_set_eq).
    eexists _, _. split; [reflexivity|]. cbn.
    split; [apply get_set_eq|]. auto.
  - intros promise s r nd e resolvedType s1 text vd Hp Hget Hnn Htext Hvd.
    destruct (framed_getCType _ _ _ _ _ Hget) as [[ext Hheap] _ _ _ _ _ _ _ _].
    assert (Hp1 : heap s1 !! promise = Some (TypePromise r None true nd e))
      by (rewrite Hheap; apply lookup_app_l_Some, Hp).
    unfold resolvePromise. mnorm. rewrite Hp. mnorm.
    erewrite bind_eq by exact Hget. rewrite Hnn. mnorm.
    erewrite bind_eq by (apply updateHeap_eq, Hp1). mnorm.
    cbn [heap with_heap mark_resolved].
    set (h1 := <[promise := TypePromise true None true nd e]> (heap s1)).
    assert (Hlen : length h1 = length (heap s1)) by apply length_insert.
    rewrite Hlen.
    assert (Hkey : typeText (h1 ++ [ArrayType resolvedType 0 true]) (VRef (length (heap s1)))
                   = Some ("ARRAY(" +:+ text +:+ ")")).
    { cbn [typeText]. rewrite <- Hlen. apply getText_new_array.
      destruct resolvedType as [| | |str|l']; try discriminate; cbn [typeText] in *;
        [exact Htext|].
      unfold getText in *. subst h1. rewrite length_insert.
      erewrite getText_fuel_promise; eauto 10. }
    unfold typeTextM. mnorm. cbn [heap with_heap]. fold h1. rewrite Hkey. mnorm.
    erewrite bind_eq by (apply updateVariableData_eq; cbn; exact Hvd).
    eexists _, _. split; [reflexivity|]. cbn.
    split; [apply get_set_eq|].
    assert (Hnew : (h1 ++ [ArrayType resolvedType 0 true]) !! length (heap s1)
                   = Some (ArrayType resolvedType 0 true)).
    { rewrite lookup_app_r by lia. rewrite Hlen.
      replace (length (heap s1) - length (heap s1)) with 0 by lia. reflexivity. }
    fold h1.
    split; [exact Hnew|].
    split; [unfold instanceof_DictType, object_at; rewrite Hnew; reflexivity|].
    split; [reflexivity|].
    intros k Hk. apply get_set_ne. congruence.
Qed.

Lemma dynamicKey_promise_gives_array_witness :
  exists s',
    recordElementWrite 18 (Example.ident 28 "k") (VRef 0) Example.promisePending = Ok tt s'.
Proof.
  destruct (dynamicKey_promise_gives_array Example.checkerF 18) as [H _].
  destruct (H (Example.ident 28 "k") 0 Example.promisePending newVariableData
              false None false (Example.ident 32 "p") (VBool false))
    as (s' & vd' & Hs & _); try reflexivity.
  exists s'. exact Hs.
Defined.

(** ** Array literals and [push] *)

Lemma set_nil {K V} `{Key K} (k : K) (v : V) : Js.set k v [] = [(k, v)].
Proof. unfold Js.set. simpl. destruct (array_index k); reflexivity. Qed.

Lemma get_nil {K V} `{Key K} (k : K) : Js.get k (@nil (K * V)) = None.
Proof. reflexivity. Qed.

Lemma get_singleton {K V} `{Key K} (k : K) (v : V) : Js.get k [(k, v)] = Some v.
Proof. simpl. destruct (decide (k = k)); congruence. Qed.

Lemma set_singleton {K V} `{Key K} (k : K) (v v' : V) : Js.set k v' [(k, v)] = [(k, v')].
Proof.
  unfold Js.set. rewrite get_singleton. simpl. destruct (decide (k = k)); congruence.
Qed.

Arguments Js.get : simpl never.
Arguments Js.set : simpl never.

Ltac crunch_step :=
  first
    [ progress cbn
    | rewrite set_nil | rewrite get_nil | rewrite get_singleton | rewrite set_singleton
    | progress unfold with_heap, with_variables, with_variablesData, with_userStructs,
        with_arrayLiteralsTypes, with_objectLiteralsTypes, with_functionCallsData,
        with_functionReturnsData, with_functionReturnTypes, with_functionPrototypes
    | rewrite N.eqb_refl | rewrite String.eqb_refl
    | progress change (N.of_nat 3) with 3%N
    | progress change (pretty 3%N) with "3"
    | progress cbv [String.append NumberVarType PointerVarType UniversalVarType]
    | progress unfold ret, gets, modify, throw, new, defined, bind
    | progress unfold determineArrayType, determineArrayType_with, convertType,
        convertType_with, lookup_value
    | progress unfold visitIdentifier, visitVariableDeclarationName, addTypeToVariable,
        determineType, getTypeString, convertSource, typeTextM, getTextM,
        updateVariableData, updateVariableInfo, variableData, variableInfo, pushPromise,
        updateHeap, kind_is, as_promise, object_at, typeText, getText
    | progress unfold visitPropertyAccessTarget, visitCallExpression, recordCallArguments,
        figureOutVariablesAndTypes, finalizeVariable, tryResolvePromises,
        resolveParameter, instanceof_ArrayType, instanceof_TypePromise,
        set_assignmentTypes, set_isDynamicArray, set_typePromises, add_reference,
        set_type, set_requiresAllocation, put_isDynamicArray
    | progress cbv delta [ts.TypeFlags.Number ts.TypeFlags.Void ts.TypeFlags.String
        ts.TypeFlags.Boolean ts.TypeFlags.Any] ].

Section ArrayCapacity.
Variable tc : ts.TypeChecker.
Variables (a : string) (pName pDecl pArr pList pStmt : N).
Variables (tDecl tArr tList tStmt : string) (k1 : nat).
Variables (p1 p2 p3 : N) (t1 t2 t3 : string).
Variable numberType : ts.Type_.

Let name := ts.mkNode ts.SyntaxKind.Identifier pName a [].
Let e1 := ts.mkNode ts.SyntaxKind.NumericLiteral p1 t1 [].
Let e2 := ts.mkNode ts.SyntaxKind.NumericLiteral p2 t2 [].
Let e3 := ts.mkNode ts.SyntaxKind.NumericLiteral p3 t3 [].
Let decl := arrayDeclaration pDecl tDecl name pArr tArr e1 e2 e3.
Let stmt := declarationStatement k1 pStmt tStmt pList tList decl.

Hypothesis Hsymbol :
  ts.getSymbolAtLocation tc name = Some (ts.mkSymbol a decl [decl]).
Hypothesis Hnumber : ts.getTypeAtLocation tc e1 = Some numberType.
Hypothesis Hflags : ts.flags numberType = ts.TypeFlags.Number.

Variables (k0 k2 : nat) (pFile pPushStmt pCall pAccess pReceiver pPush pArg : N).
Variables (tFile tPushStmt tCall tAccess tArg : string).
Variable argType : ts.Type_.

Let receiver := ts.mkNode ts.SyntaxKind.Identifier pReceiver a [].
Let arg := ts.mkNode ts.SyntaxKind.NumericLiteral pArg tArg [].
Let pushing :=
  pushStatement k2 pPushStmt tPushStmt pCall tCall pAccess tAccess receiver pPush arg.

Hypothesis Hreceiver :
  ts.getSymbolAtLocation tc receiver = Some (ts.mkSymbol a decl [decl]).
Hypothesis Hpush :
  ts.getSymbolAtLocation tc (ts.mkNode ts.SyntaxKind.Identifier pPush "push" []) = None.
Hypothesis Harg : ts.getTypeAtLocation tc arg = Some argType.
Hypothesis HargFlags : ts.flags argType = ts.TypeFlags.Number.

(** On a program that declares a variable with an array literal of
    three numeric literals and does nothing else with it, the engine gives
    the variable the fixed array of capacity 3 and element type [int16_t];
    when the program then calls [push] on it with a numeric literal, the
    engine gives it that array made dynamic, whose text is
    ["ARRAY(int16_t)"], and sets [requiresAllocation]. *)
Lemma array_literal_program :
  (exists s vi,
     figureOutVariablesAndTypes tc 1
       [ts.mkNode (ts.SyntaxKind.Other k0) pFile tFile [stmt]] newTypeHelper
     = Some (Ok tt s)
     /\ Js.get pDecl (variables s) = Some vi
     /\ object_at (heap s) (type vi) = Some (ArrayType (VStr NumberVarType) 3 false)
     /\ typeText (heap s) (type vi) = Some "static int16_t {var}[3]"
     /\ requiresAllocation vi = false)
  /\ (exists s vi,
        figureOutVariablesAndTypes tc 1
          [ts.mkNode (ts.SyntaxKind.Other k0) pFile tFile [stmt; pushing]] newTypeHelper
        = Some (Ok tt s)
        /\ Js.get pDecl (variables s) = Some vi
        /\ object_at (heap s) (type vi) = Some (ArrayType (VStr NumberVarType) 3 true)
        /\ typeText (heap s) (type vi) = Some "ARRAY(int16_t)"
        /\ requiresAllocation vi = true).
Proof.
  subst pushing stmt arg receiver e1 e2 e3 decl name.
  unfold arrayDeclaration, declarationStatement, pushStatement in *.
  split.
  - eexists _, _. split.
    + repeat first [ crunch_step | rewrite Hnumber | rewrite Hflags | rewrite Hsymbol ].
      reflexivity.
    + cbn [variables heap]. split; [apply get_singleton|].
      cbn [type requiresAllocation]. repeat split; reflexivity.
  - eexists _, _. split.
    + repeat first [ crunch_step | rewrite Hnumber | rewrite Hflags | rewrite Hsymbol
                   | rewrite Hreceiver | rewrite Hpush | rewrite Harg | rewrite HargFlags ].
      reflexivity.
    + cbn [variables heap]. split; [apply get_singleton|].
      cbn [type requiresAllocation]. repeat split; reflexivity.
Qed.

End ArrayCapacity.
(** * Further properties of the engine *)

(** ** Names of temporaries *)

Lemma indexOf_found_In x names : indexOf_found x names = true <-> In x names.
Proof.
  unfold indexOf_found. rewrite existsb_exists. split.
  - intros (y & Hy & Heq). apply String.eqb_eq in Heq. subst. exact Hy.
  - intros Hx. exists x. split; [exact Hx|apply String.eqb_refl].
Qed.

Lemma indexOf_found_not_In x names : indexOf_found x names = false <-> ~ In x names.
Proof.
  rewrite <- indexOf_found_In. destruct (indexOf_found x names); split; congruence.
Qed.

(** Among [n] consecutive candidates with distinct names that are all in
    a list, there are at most as many as the list is long. *)
Lemma candidates_bounded (f : N -> string) (names : list string) (i : N) (n : nat) :
  (forall a b, f a = f b -> a = b) ->
  (forall j, (i <= j < i + N.of_nat n)%N -> In (f j) names) ->
  (n <= length names)%nat.
Proof.
  intros Hinj Hall.
  pose (js := map (fun k => (i + N.of_nat k)%N) (seq 0 n)).
  assert (Hlen : length (map f js) = n).
  { unfold js. rewrite !length_map. apply length_seq. }
  rewrite <- Hlen. apply List.NoDup_incl_length.
  - apply Finite.Injective_map_NoDup; [exact Hinj|].
    unfold js. apply Finite.Injective_map_NoDup; [|apply List.seq_NoDup].
    intros a b Hab. lia.
  - intros y Hy. apply in_map_iff in Hy as (j & <- & Hj).
    unfold js in Hj. apply in_map_iff in Hj as (k & <- & Hk).
    apply in_seq in Hk. apply Hall. lia.
Qed.

Lemma suffixed_inj (nm : string) (a b : N) :
  nm +:+ "_" +:+ pretty a = nm +:+ "_" +:+ pretty b -> a = b.
Proof.
  intros H. apply String.app_inj in H. apply (String.app_inj "_") in H.
  apply pretty_N_inj in H. exact H.
Qed.

Lemma freeNameIndex_spec fuel names nm i :
  let r := freeNameIndex fuel names nm i in
  (i <= r)%N
  /\ (forall j, (i <= j < r)%N -> In (nm +:+ "_" +:+ pretty j) names)
  /\ (~ In (nm +:+ "_" +:+ pretty r) names \/ r = (i + N.of_nat fuel)%N).
Proof.
  revert i. induction fuel as [|fuel IH]; intros i; cbn [freeNameIndex].
  - split; [lia|]. split; [intros j Hj; lia|]. right. lia.
  - destruct (indexOf_found (nm +:+ "_" +:+ pretty i) names) eqn:Hi.
    + destruct (IH (i + 1)%N) as (Hle & Hall & Hend). cbv zeta.
      split; [lia|]. split.
      * intros j Hj. destruct (N.eq_dec j i) as [->|Hne].
        -- apply indexOf_found_In. exact Hi.
        -- apply Hall. lia.
      * destruct Hend as [Hfree|Heq]; [left; exact Hfree|right; lia].
    + cbv zeta. split; [lia|]. split; [intros j Hj; lia|].
      left. apply indexOf_found_not_In. exact Hi.
Qed.

(** The search stops at a free name, the first one from [2] on. *)
Lemma freeNameIndex_free names nm :
  let r := freeNameIndex (S (length names)) names nm 2 in
  (2 <= r)%N
  /\ ~ In (nm +:+ "_" +:+ pretty r) names
  /\ (forall j, (2 <= j < r)%N -> In (nm +:+ "_" +:+ pretty j) names).
Proof.
  destruct (freeNameIndex_spec (S (length names)) names nm 2) as (Hle & Hall & Hend).
  cbv zeta. split; [exact Hle|]. split; [|exact Hall].
  destruct Hend as [Hfree|Heq]; [exact Hfree|].
  exfalso.
  assert (S (length names) <= length names)%nat; [|lia].
  apply (candidates_bounded (fun j => nm +:+ "_" +:+ pretty j) names 2).
  - intros a b. apply suffixed_inj.
  - intros j Hj. apply Hall. lia.
Qed.

Section ObjectUpdates.
Context {K V : Type} `{Key K}.
Implicit Types (k : K) (v : V) (o : list (K * V)).

Lemma get_cons k k' v o :
  Js.get k ((k', v) :: o) = if decide (k = k') then Some v else Js.get k o.
Proof. reflexivity. Qed.

Lemma replace_replace k v v' o :
  Js.replace k v (Js.replace k v' o) = Js.replace k v o.
Proof.
  induction o as [|[k0 v0] o IH]; simpl; [reflexivity|].
  destruct (decide (k = k0)) as [->|Hne]; simpl.
  - destruct (decide (k0 = k0)); congruence.
  - destruct (decide (k = k0)); [congruence|]. rewrite IH. reflexivity.
Qed.

Lemma replace_insert_index n k v v' o :
  Js.get k o = None ->
  Js.replace k v (Js.insert_index n k v' o) = Js.insert_index n k v o.
Proof.
  induction o as [|[k0 v0] o IH]; cbn [Js.insert_index Js.replace].
  - intros _. destruct (decide (k = k)); congruence.
  - rewrite get_cons.
    destruct (decide (k = k0)) as [->|Hne]; [intros Hg; discriminate Hg|]. intros Hg.
    destruct (array_index k0) as [n'|]; [destruct (n' <? n)%N|];
      cbn [Js.replace]; repeat (destruct (decide _)); try congruence.
    rewrite IH; auto.
Qed.

Lemma replace_app_last k v v' o :
  Js.get k o = None -> Js.replace k v (o ++ [(k, v')]) = o ++ [(k, v)].
Proof.
  induction o as [|[k0 v0] o IH]; cbn [Js.replace app].
  - intros _. destruct (decide (k = k)); congruence.
  - rewrite get_cons.
    destruct (decide (k = k0)) as [->|Hne]; [intros Hg; discriminate Hg|]. intros Hg.
    rewrite IH; auto.
Qed.

(** [o[k] = v'; o[k] = v] leaves what [o[k] = v] leaves. *)
Lemma set_set k v v' o : Js.set k v (Js.set k v' o) = Js.set k v o.
Proof.
  unfold Js.set at 1. rewrite get_set_eq. unfold Js.set.
  destruct (Js.get k o) eqn:Hg.
  - apply replace_replace.
  - destruct (array_index k).
    + apply replace_insert_index, Hg.
    + apply replace_app_last, Hg.
Qed.

Lemma get_Some_In k v o : Js.get k o = Some v -> In (k, v) o.
Proof.
  induction o as [|[k1 v1] o IH]; [discriminate|]. rewrite get_cons.
  destruct (decide (k = k1)) as [->|Hne].
  - intros [= ->]. left. reflexivity.
  - intros Hg. right. apply IH, Hg.
Qed.

Lemma In_set_inv k v o e : In e (Js.set k v o) -> e = (k, v) \/ In e o.
Proof.
  unfold Js.set. destruct (Js.get k o) as [old|].
  - induction o as [|[k1 v1] o IH]; cbn [Js.replace In]; [tauto|].
    destruct (decide (k = k1)); cbn [In]; intuition.
  - destruct (array_index k) as [n|].
    + induction o as [|[k1 v1] o IH]; cbn [Js.insert_index In]; [intuition|].
      destruct (array_index k1) as [n'|]; [destruct (n' <? n)%N|]; cbn [In]; intuition.
    + rewrite in_app_iff. cbn [In]. intuition.
Qed.

End ObjectUpdates.

Lemma find_first {A} (f : A -> bool) l x :
  List.find f l = Some x ->
  exists pre post, l = pre ++ x :: post /\ f x = true /\ forall y, In y pre -> f y = false.
Proof.
  induction l as [|a l IH]; cbn [List.find]; [discriminate|].
  destruct (f a) eqn:Ha.
  - intros [= ->]. exists [], l. split; [reflexivity|]. split; [exact Ha|]. intros y [].
  - intros Hx. destruct (IH Hx) as (pre & post & -> & Hfx & Hpre).
    exists (a :: pre), post. split; [reflexivity|]. split; [exact Hfx|].
    intros y [<-|Hy]; auto.
Qed.

Lemma with_temporaryVariables_twice f g s :
  with_temporaryVariables f (with_temporaryVariables g s)
  = with_temporaryVariables (fun t => f (g t)) s.
Proof. reflexivity. Qed.

Section TemporariesFacts.
Variable getSymbolsInScope : ts.Node -> list ts.Symbol.

Lemma existingSymbolNames_eq ancestors scopeNode s :
  let scopeId := scopeIdOf (scopeNode :: ancestors) in
  let temporaries := default [] (Js.get scopeId (temporaryVariables s)) in
  exists s1,
    existingSymbolNames getSymbolsInScope ancestors scopeNode s
    = Ok (scopeId, temporaries,
          map ts.symbolName (getSymbolsInScope scopeNode) ++ temporaries) s1
    /\ (forall l, with_temporaryVariables (Js.set scopeId l) s1
                  = with_temporaryVariables (Js.set scopeId l) s).
Proof.
  cbv zeta. unfold existingSymbolNames, bind, gets, ret, modify, defined.
  destruct (Js.get (scopeIdOf (scopeNode :: ancestors)) (temporaryVariables s)) as [l|] eqn:Hg.
  - cbn [temporaryVariables with_temporaryVariables]. rewrite Hg. cbn [default].
    eexists. split; [reflexivity|]. reflexivity.
  - cbn [temporaryVariables with_temporaryVariables]. rewrite get_set_eq. cbn [default].
    eexists. split; [reflexivity|].
    intros l. unfold with_temporaryVariables. cbn. rewrite set_set. reflexivity.
Qed.

Lemma addNewTemporaryVariable_run ancestors scopeNode proposedName s :
  let scopeId := scopeIdOf (scopeNode :: ancestors) in
  let inScope := map ts.symbolName (getSymbolsInScope scopeNode) in
  let temporaries := default [] (Js.get scopeId (temporaryVariables s)) in
  exists nm,
    addNewTemporaryVariable getSymbolsInScope ancestors scopeNode proposedName s
    = Ok nm (with_temporaryVariables (Js.set scopeId (temporaries ++ [nm])) s)
    /\ ~ In nm inScope
    /\ ~ In nm temporaries
    /\ (~ In proposedName (inScope ++ temporaries) -> nm = proposedName)
    /\ (In proposedName (inScope ++ temporaries) ->
        exists i, (2 <= i)%N
          /\ nm = proposedName +:+ "_" +:+ pretty i
          /\ forall j, (2 <= j < i)%N ->
               In (proposedName +:+ "_" +:+ pretty j) (inScope ++ temporaries)).
Proof.
  cbv zeta.
  destruct (existingSymbolNames_eq ancestors scopeNode s) as (s1 & Hs1 & Hset).
  cbv zeta in Hs1.
  unfold addNewTemporaryVariable. rewrite (bind_eq _ _ _ _ _ Hs1).
  set (existing := map ts.symbolName (getSymbolsInScope scopeNode)
                   ++ default [] (Js.get (scopeIdOf (scopeNode :: ancestors))
                                    (temporaryVariables s))).
  destruct (freeNameIndex_free existing proposedName) as (Hle & Hfree & Hmin).
  unfold bind, modify, ret.
  destruct (indexOf_found proposedName existing) eqn:Hfound.
  - eexists. split; [rewrite Hset; reflexivity|].
    split; [intros Hin; apply Hfree, in_or_app; auto|].
    split; [intros Hin; apply Hfree, in_or_app; auto|].
    split.
    + intros Hno. apply indexOf_found_In in Hfound. contradiction.
    + intros _. eexists. split; [exact Hle|]. split; [reflexivity|exact Hmin].
  - apply indexOf_found_not_In in Hfound.
    eexists. split; [rewrite Hset; reflexivity|].
    split; [intros Hin; apply Hfound, in_or_app; auto|].
    split; [intros Hin; apply Hfound, in_or_app; auto|].
    split; [reflexivity|]. intros Hin. contradiction.
Qed.

Lemma addNewIteratorVariable_run ancestors scopeNode s :
  let scopeId := scopeIdOf (scopeNode :: ancestors) in
  let inScope := map ts.symbolName (getSymbolsInScope scopeNode) in
  let temporaries := default [] (Js.get scopeId (temporaryVariables s)) in
  exists nm,
    addNewIteratorVariable getSymbolsInScope ancestors scopeNode s
    = Ok nm (with_temporaryVariables (Js.set scopeId (temporaries ++ [nm])) s)
    /\ ~ In nm inScope
    /\ ~ In nm temporaries
    /\ ((exists pre post,
           iteratorVarNames = pre ++ nm :: post
           /\ forall x, In x pre -> In x (inScope ++ temporaries))
        \/ ((forall x, In x iteratorVarNames -> In x (inScope ++ temporaries))
            /\ exists i, (2 <= i)%N
                 /\ nm = "i_" +:+ pretty i
                 /\ forall j, (2 <= j < i)%N ->
                      In ("i_" +:+ pretty j) (inScope ++ temporaries))).
Proof.
  cbv zeta.
  destruct (existingSymbolNames_eq ancestors scopeNode s) as (s1 & Hs1 & Hset).
  cbv zeta in Hs1.
  unfold addNewIteratorVariable. rewrite (bind_eq _ _ _ _ _ Hs1).
  set (existing := map ts.symbolName (getSymbolsInScope scopeNode)
                   ++ default [] (Js.get (scopeIdOf (scopeNode :: ancestors))
                                    (temporaryVariables s))).
  unfold bind, modify, ret.
  destruct (List.find (fun nm => negb (indexOf_found nm existing)) iteratorVarNames)
    as [nm|] eqn:Hfind.
  - destruct (find_first _ _ _ Hfind) as (pre & post & Heq & Hnm & Hpre).
    apply negb_true_iff, indexOf_found_not_In in Hnm.
    exists nm. split; [rewrite Hset; reflexivity|].
    split; [intros Hin; apply Hnm, in_or_app; auto|].
    split; [intros Hin; apply Hnm, in_or_app; auto|].
    left. exists pre, post. split; [exact Heq|].
    intros x Hx. apply indexOf_found_In. specialize (Hpre x Hx).
    apply negb_false_iff in Hpre. exact Hpre.
  - destruct (freeNameIndex_free existing "i") as (Hle & Hfree & Hmin).
    eexists. split; [rewrite Hset; reflexivity|].
    split; [intros Hin; apply Hfree, in_or_app; auto|].
    split; [intros Hin; apply Hfree, in_or_app; auto|].
    right. split.
    + intros x Hx. apply indexOf_found_In.
      pose proof (find_none _ _ Hfind x Hx) as Hn. apply negb_false_iff in Hn. exact Hn.
    + eexists. split; [exact Hle|]. split; [reflexivity|exact Hmin].
Qed.

(** X1: [addNewTemporaryVariable] always returns, with a name that is
    neither a variable in scope nor a temporary already handed out in the
    scope, and appends it to the temporaries of the scope.  The name is the
    proposed one when that is free, and otherwise the proposed one followed
    by [_i] for the first [i] from 2 on that gives a free name. *)
Theorem addNewTemporaryVariable_fresh ancestors scopeNode proposedName s :
  let scopeId := scopeIdOf (scopeNode :: ancestors) in
  let inScope := map ts.symbolName (getSymbolsInScope scopeNode) in
  let temporaries := default [] (Js.get scopeId (temporaryVariables s)) in
  exists nm,
    addNewTemporaryVariable getSymbolsInScope ancestors scopeNode proposedName s
    = Ok nm (with_temporaryVariables (Js.set scopeId (temporaries ++ [nm])) s)
    /\ ~ In nm inScope
    /\ ~ In nm temporaries
    /\ (~ In proposedName (inScope ++ temporaries) -> nm = proposedName)
    /\ (In proposedName (inScope ++ temporaries) ->
        exists i, (2 <= i)%N
          /\ nm = proposedName +:+ "_" +:+ pretty i
          /\ forall j, (2 <= j < i)%N ->
               In (proposedName +:+ "_" +:+ pretty j) (inScope ++ temporaries)).
Proof. exact (addNewTemporaryVariable_run ancestors scopeNode proposedName s). Qed.

(** X2: [addNewIteratorVariable] always returns, with a name that is
    neither a variable in scope nor a temporary already handed out in the
    scope, and appends it to the temporaries of the scope.  The name is the
    first free one of [i], [j], [k], [l], [m], [n], and when all six are
    taken [i_k] for the first [k] from 2 on that gives a free name. *)
Theorem addNewIteratorVariable_fresh ancestors scopeNode s :
  let scopeId := scopeIdOf (scopeNode :: ancestors) in
  let inScope := map ts.symbolName (getSymbolsInScope scopeNode) in
  let temporaries := default [] (Js.get scopeId (temporaryVariables s)) in
  exists nm,
    addNewIteratorVariable getSymbolsInScope ancestors scopeNode s
    = Ok nm (with_temporaryVariables (Js.set scopeId (temporaries ++ [nm])) s)
    /\ ~ In nm inScope
    /\ ~ In nm temporaries
    /\ ((exists pre post,
           iteratorVarNames = pre ++ nm :: post
           /\ forall x, In x pre -> In x (inScope ++ temporaries))
        \/ ((forall x, In x iteratorVarNames -> In x (inScope ++ temporaries))
            /\ exists i, (2 <= i)%N
                 /\ nm = "i_" +:+ pretty i
                 /\ forall j, (2 <= j < i)%N ->
                      In ("i_" +:+ pretty j) (inScope ++ temporaries))).
Proof. exact (addNewIteratorVariable_run ancestors scopeNode s). Qed.

Lemma temporariesDistinct_set scopeId l s :
  temporariesDistinct s -> NoDup l ->
  temporariesDistinct (with_temporaryVariables (Js.set scopeId l) s).
Proof.
  unfold temporariesDistinct. cbn [temporaryVariables with_temporaryVariables].
  rewrite !List.Forall_forall. intros Hs Hl e He.
  apply In_set_inv in He as [->|He]; [exact Hl|apply Hs, He].
Qed.

Lemma temporariesDistinct_get scopeId s :
  temporariesDistinct s ->
  NoDup (default [] (Js.get scopeId (temporaryVariables s))).
Proof.
  unfold temporariesDistinct. rewrite List.Forall_forall. intros Hs.
  destruct (Js.get scopeId (temporaryVariables s)) as [l|] eqn:Hg; cbn [default].
  - apply (Hs (scopeId, l)). apply get_Some_In. exact Hg.
  - constructor.
Qed.

(** X3: the names handed out in one scope stay pairwise distinct: when the
    temporaries of every scope are duplicate-free, they still are after
    [addNewTemporaryVariable] and after [addNewIteratorVariable]. *)
Theorem temporaries_stay_distinct ancestors scopeNode proposedName s :
  temporariesDistinct s ->
  (forall nm s', addNewTemporaryVariable getSymbolsInScope ancestors scopeNode
                   proposedName s = Ok nm s' -> temporariesDistinct s')
  /\ (forall nm s', addNewIteratorVariable getSymbolsInScope ancestors scopeNode s
                    = Ok nm s' -> temporariesDistinct s').
Proof.
  intros Hs. split; intros nm s' Hrun.
  - pose proof (addNewTemporaryVariable_run ancestors scopeNode proposedName s) as H.
    cbv zeta in H. destruct H as (nm' & Heq & _ & Hfresh & _).
    pose proof (eq_trans (eq_sym Heq) Hrun) as E. injection E as <- <-.
    apply temporariesDistinct_set; [exact Hs|].
    apply NoDup_app. split; [apply temporariesDistinct_get, Hs|].
    split; [|apply NoDup_singleton].
    intros x Hx Hx'. apply list_elem_of_In in Hx'. destruct Hx' as [<-|[]].
    apply Hfresh. apply list_elem_of_In. exact Hx.
  - pose proof (addNewIteratorVariable_run ancestors scopeNode s) as H.
    cbv zeta in H. destruct H as (nm' & Heq & _ & Hfresh & _).
    pose proof (eq_trans (eq_sym Heq) Hrun) as E. injection E as <- <-.
    apply temporariesDistinct_set; [exact Hs|].
    apply NoDup_app. split; [apply temporariesDistinct_get, Hs|].
    split; [|apply NoDup_singleton].
    intros x Hx Hx'. apply list_elem_of_In in Hx'. destruct Hx' as [<-|[]].
    apply Hfresh. apply list_elem_of_In. exact Hx.
Qed.

End TemporariesFacts.

Lemma temporaries_stay_distinct_witness :
  temporariesDistinct
    (with_temporaryVariables (Js.set MainScope ["tmp"]) newTypeHelper).
Proof.
  assert (Hnew : temporariesDistinct newTypeHelper) by constructor.
  destruct (temporaries_stay_distinct (fun _ => []) [] (Example.ident 4 "a") "tmp"
              newTypeHelper Hnew) as [H _].
  apply (H "tmp"). vm_compute. reflexivity.
Defined.

(** ** The scope of a node and the names of structs *)

(** X4: [findParentFunction] returns the nearest function declaration among
    the node and its ancestors, the node itself included, and the scope of
    the node is ['main'] exactly when there is none. *)
Theorem scopeIdOf_nearest_function (path : list ts.Node) :
  match findParentFunction path with
  | Some parentFunc =>
      scopeIdOf path = FuncScope (ts.pos parentFunc + 1)
      /\ exists inner outer,
           path = inner ++ parentFunc :: outer
           /\ ts.is_kind ts.SyntaxKind.FunctionDeclaration parentFunc = true
           /\ forall n, In n inner ->
                ts.is_kind ts.SyntaxKind.FunctionDeclaration n = false
  | None =>
      scopeIdOf path = MainScope
      /\ forall n, In n path -> ts.is_kind ts.SyntaxKind.FunctionDeclaration n = false
  end.
Proof.
  unfold scopeIdOf.
  destruct (findParentFunction path) as [f|] eqn:Hfind; unfold findParentFunction in Hfind.
  - split; [reflexivity|].
    destruct (find_first _ _ _ Hfind) as (inner & outer & Hpath & Hf & Hinner).
    exists inner, outer. auto.
  - split; [reflexivity|]. intros n Hn. exact (find_none _ _ Hfind n Hn).
Qed.

Lemma append_cons (a : ascii) (s1 s2 : string) :
  String a s1 +:+ s2 = String a (s1 +:+ s2).
Proof. reflexivity. Qed.

Lemma length_append (s1 s2 : string) :
  String.length (s1 +:+ s2) = (String.length s1 + String.length s2)%nat.
Proof.
  induction s1 as [|a s1 IH]; [reflexivity|].
  rewrite append_cons. cbn [String.length]. rewrite IH. reflexivity.
Qed.

Lemma append_inj_r (s1 s2 t : string) : s1 +:+ t = s2 +:+ t -> s1 = s2.
Proof.
  revert s2. induction s1 as [|a s1 IH]; intros [|b s2] Heq.
  - reflexivity.
  - exfalso. apply (f_equal String.length) in Heq.
    rewrite !length_append in Heq. cbn [String.length] in Heq. lia.
  - exfalso. apply (f_equal String.length) in Heq.
    rewrite !length_append in Heq. cbn [String.length] in Heq. lia.
  - rewrite !append_cons in Heq. injection Heq as -> Heq. f_equal. apply IH, Heq.
Qed.

Lemma structName_inj (nm : string) (a b : N) :
  nm +:+ "_" +:+ pretty a +:+ "_t" = nm +:+ "_" +:+ pretty b +:+ "_t" -> a = b.
Proof.
  intros H. apply String.app_inj in H. apply (String.app_inj "_") in H.
  apply append_inj_r in H. apply pretty_N_inj in H. exact H.
Qed.

Lemma freeStructIndex_spec fuel (us : list (string * loc)) nm i :
  let r := freeStructIndex fuel us nm i in
  (i <= r)%N
  /\ (forall j, (i <= j < r)%N -> is_Some (Js.get (nm +:+ "_" +:+ pretty j +:+ "_t") us))
  /\ (Js.get (nm +:+ "_" +:+ pretty r +:+ "_t") us = None \/ r = (i + N.of_nat fuel)%N).
Proof.
  revert i. induction fuel as [|fuel IH]; intros i; cbn [freeStructIndex].
  - split; [lia|]. split; [intros j Hj; lia|]. right. lia.
  - destruct (Js.get (nm +:+ "_" +:+ pretty i +:+ "_t") us) as [l|] eqn:Hi.
    + destruct (IH (i + 1)%N) as (Hle & Hall & Hend). cbv zeta.
      split; [lia|]. split.
      * intros j Hj. destruct (N.eq_dec j i) as [->|Hne].
        -- rewrite Hi. eauto.
        -- apply Hall. lia.
      * destruct Hend as [Hfree|Heq]; [left; exact Hfree|right; lia].
    + cbv zeta. split; [lia|]. split; [intros j Hj; lia|]. left. exact Hi.
Qed.

Lemma freeStructIndex_free (us : list (string * loc)) nm :
  let r := freeStructIndex (S (length us)) us nm 2 in
  (2 <= r)%N
  /\ Js.get (nm +:+ "_" +:+ pretty r +:+ "_t") us = None
  /\ (forall j, (2 <= j < r)%N -> is_Some (Js.get (nm +:+ "_" +:+ pretty j +:+ "_t") us)).
Proof.
  destruct (freeStructIndex_spec (S (length us)) us nm 2) as (Hle & Hall & Hend).
  cbv zeta. split; [exact Hle|]. split; [|exact Hall].
  destruct Hend as [Hfree|Heq]; [exact Hfree|].
  exfalso.
  assert (S (length us) <= length (Js.keys us))%nat;
    [|unfold Js.keys in *; rewrite length_map in *; lia].
  apply (candidates_bounded (fun j => nm +:+ "_" +:+ pretty j +:+ "_t") (Js.keys us) 2).
  - intros a b. apply structName_inj.
  - intros j Hj. destruct (Hall j) as [l Hl]; [lia|].
    apply get_Some_In in Hl. unfold Js.keys. apply in_map_iff.
    exists (nm +:+ "_" +:+ pretty j +:+ "_t", l). auto.
Qed.

(** X5: with an identifier that has a text, the name [generateStructure]
    proposes is not the name of a registered struct: it is the text followed
    by [_t] when no struct has that name, and otherwise the text followed by
    [_i_t] for the first [i] from 2 on that no struct has. *)
Theorem proposedStructName_free (userStructs : list (string * loc)) (ident : ts.Node) :
  ts.getText ident <> "" ->
  let structName := proposedStructName userStructs (Some ident) in
  Js.get structName userStructs = None
  /\ (Js.get (ts.getText ident +:+ "_t") userStructs = None ->
      structName = ts.getText ident +:+ "_t")
  /\ (is_Some (Js.get (ts.getText ident +:+ "_t") userStructs) ->
      exists i, (2 <= i)%N
        /\ structName = ts.getText ident +:+ "_" +:+ pretty i +:+ "_t"
        /\ forall j, (2 <= j < i)%N ->
             is_Some (Js.get (ts.getText ident +:+ "_" +:+ pretty j +:+ "_t") userStructs)).
Proof.
  intros Htext. cbv zeta. unfold proposedStructName.
  destruct (String.eqb (ts.getText ident) "") eqn:He;
    [apply String.eqb_eq in He; contradiction|].
  destruct (Js.get (ts.getText ident +:+ "_t") userStructs) as [l|] eqn:Hg.
  - destruct (freeStructIndex_free userStructs (ts.getText ident)) as (Hle & Hfree & Hmin).
    split; [exact Hfree|]. split; [discriminate|].
    intros _. eexists. split; [exact Hle|]. split; [reflexivity|exact Hmin].
  - split; [exact Hg|]. split; [reflexivity|]. intros [x Hx]. discriminate.
Qed.

Lemma proposedStructName_free_witness :
  Js.get (proposedStructName [("a_t", 0%nat)] (Some (Example.ident 4 "a")))
    [("a_t", 0%nat)] = None.
Proof.
  apply (proposedStructName_free [("a_t", 0%nat)] (Example.ident 4 "a")).
  discriminate.
Defined.

(** ** Literals, calls and the short circuit of the resolver *)

(** X6: [determineArrayType] gives the universal fallback for an empty
    literal and changes nothing; for a literal with elements it converts
    the type of the first one, creates a new array of that element type,
    not dynamic, whose capacity is the number of elements, and records it
    for the literal: [getCType] on the literal then returns that array
    and changes nothing. *)
Theorem determineArrayType_recorded tc arrLiteral s v s' :
  determineArrayType tc arrLiteral s = Ok v s' ->
  match ts.elements arrLiteral with
  | [] => v = VStr UniversalVarType /\ s' = s
  | first :: _ =>
      exists elementType s1,
        convertType (ts.getTypeAtLocation tc first) None s = Ok elementType s1
        /\ v = VRef (length (heap s1))
        /\ heap s' = heap s1
                     ++ [ArrayType elementType
                           (N.of_nat (length (ts.elements arrLiteral))) false]
        /\ getCType tc arrLiteral s' = Ok v s'
  end.
Proof.
  unfold determineArrayType, determineArrayType_with.
  destruct (ts.elements arrLiteral) as [|first rest] eqn:Helems.
  - cbn. unfold ret. intros [= <- <-]. auto.
  - cbn [length Nat.ltb Nat.leb]. intros Hrun.
    apply bind_Ok in Hrun as (elementType & s1 & Hconv & Hrun).
    exists elementType, s1. split; [exact Hconv|].
    unfold bind, new, modify, ret in Hrun. cbn in Hrun. injection Hrun as <- <-.
    split; [reflexivity|]. split; [reflexivity|].
    destruct arrLiteral as [k p t ch]. unfold ts.elements in Helems. cbn in Helems.
    destruct k; try discriminate Helems.
    cbn. unfold gets, lookup_value. cbn. rewrite get_set_eq. reflexivity.
Qed.

Lemma determineArrayType_recorded_witness :
  getCType Example.checker
    (Example.node ts.SyntaxKind.ArrayLiteralExpression 8 "[1, 2]"
       [Example.num 9 "1"; Example.num 12 "2"])
    (mkTypeHelper [ArrayType (VStr NumberVarType) 2 false]
       [] [] [] [] [] [] [] [(8%N, VRef 0)] [] [])
  = Ok (VRef 0)
      (mkTypeHelper [ArrayType (VStr NumberVarType) 2 false]
         [] [] [] [] [] [] [] [(8%N, VRef 0)] [] []).
Proof.
  destruct (determineArrayType_recorded Example.checker
              (Example.node ts.SyntaxKind.ArrayLiteralExpression 8 "[1, 2]"
                 [Example.num 9 "1"; Example.num 12 "2"])
              newTypeHelper (VRef 0)
              (mkTypeHelper [ArrayType (VStr NumberVarType) 2 false]
                 [] [] [] [] [] [] [] [(8%N, VRef 0)] [] []))
    as (elementType & s1 & _ & _ & _ & H); [vm_compute; reflexivity|].
  exact H.
Defined.

(** X7: for an object literal, [determineType] registers the struct of the
    front-end's type of the literal under the name of the assigned
    identifier and records it for the literal: [getCType] on the literal
    then returns that struct and changes nothing. *)
Theorem determineType_objectLiteral_recorded tc left right s v s' :
  ts.is_kind ts.SyntaxKind.ObjectLiteralExpression right = true ->
  determineType tc left (Some right) s = Ok v s' ->
  exists tsType s1,
    ts.getTypeAtLocation tc right = Some tsType
    /\ generateStructure tsType left s = Ok v s1
    /\ s' = with_objectLiteralsTypes (Js.set (ts.pos right) v) s1
    /\ getCType tc right s' = Ok v s'.
Proof.
  intros Hkind. unfold determineType. rewrite Hkind. intros Hrun.
  apply bind_Ok in Hrun as (tsType & s0 & Ht & Hrun).
  apply defined_Ok in Ht as [Ht ->].
  apply bind_Ok in Hrun as (type & s1 & Hgen & Hrun).
  unfold bind, modify, ret in Hrun. injection Hrun as <- <-.
  exists tsType, s1. split; [exact Ht|]. split; [exact Hgen|]. split; [reflexivity|].
  destruct right as [k p t ch]. unfold ts.is_kind in Hkind. cbn in Hkind.
  destruct k; try discriminate Hkind.
  cbn. unfold gets, lookup_value. cbn. rewrite get_set_eq. reflexivity.
Qed.

Lemma determineType_objectLiteral_recorded_witness :
  getCType Example.checkerLiteral Example.pointLiteral
    (with_objectLiteralsTypes (Js.set 8%N (VRef 0)) Example.pointOfA)
  = Ok (VRef 0) (with_objectLiteralsTypes (Js.set 8%N (VRef 0)) Example.pointOfA).
Proof.
  destruct (determineType_objectLiteral_recorded Example.checkerLiteral
              (Some (Example.ident 4 "a")) Example.pointLiteral newTypeHelper (VRef 0)
              (with_objectLiteralsTypes (Js.set 8%N (VRef 0)) Example.pointOfA))
    as (tsType & s1 & _ & _ & _ & H); [reflexivity|vm_compute; reflexivity|].
  exact H.
Defined.

(** Tables that a method leaves as they are. *)
Lemma keeps_refl {T} (proj : TypeHelper -> T) s : proj s = proj s.
Proof. reflexivity. Qed.

Lemma keeps_trans {T} (proj : TypeHelper -> T) s1 s2 s3 :
  proj s2 = proj s1 -> proj s3 = proj s2 -> proj s3 = proj s1.
Proof. congruence. Qed.

Lemma framed_keeps_functionPrototypes {A} (m : M A) :
  framed m -> respects (fun s s' => functionPrototypes s' = functionPrototypes s) m.
Proof. intros Hm s a s' Hrun. apply (Hm s a s' Hrun). Qed.

Ltac keeps_step proj :=
  first
    [ apply respects_ret; [apply (keeps_refl proj)]
    | apply respects_throw
    | apply respects_gets; [apply (keeps_refl proj)]
    | apply respects_defined; [apply (keeps_refl proj)]
    | apply respects_bind; [apply (keeps_trans proj)| |intros ?]
    | match goal with
      | |- respects _ (match ?x with _ => _ end) => destruct x
      | |- respects _ (if ?x then _ else _) => destruct x
      | |- respects _ (modify _) =>
          let H := fresh in intros ? ? ? H; inversion H; reflexivity
      | |- respects _ (new _) =>
          let H := fresh in intros ? ? ? H; inversion H; reflexivity
      end ].

Lemma determineType_keeps_functionPrototypes tc left right :
  respects (fun s s' => functionPrototypes s' = functionPrototypes s)
    (determineType tc left right).
Proof.
  unfold determineType.
  repeat first
    [ apply framed_keeps_functionPrototypes; solve [auto with framed]
    | keeps_step functionPrototypes ].
Qed.

Lemma recordCallArguments_keeps_functionPrototypes tc funcDeclPos args :
  forall i,
    respects (fun s s' => functionPrototypes s' = functionPrototypes s)
      (recordCallArguments tc funcDeclPos i args).
Proof.
  induction args as [|arg args IH]; intros i; cbn [recordCallArguments].
  - keeps_step functionPrototypes.
  - keeps_step functionPrototypes; [|apply IH].
    unfold recordCallArgument.
    repeat first
      [ apply determineType_keeps_functionPrototypes
      | keeps_step functionPrototypes ].
Qed.

(** X8: a call whose callee is an identifier with a symbol records the
    declaration of the function as a prototype exactly when the call stands
    before the declaration; a call with another callee, or whose callee has
    no symbol, changes nothing. *)
Theorem visitCallExpression_prototypes tc call callee s s' :
  ts.expression call = Some callee ->
  visitCallExpression tc call s = Ok tt s' ->
  match ts.getSymbolAtLocation tc callee with
  | Some funcSymbol =>
      if ts.is_kind ts.SyntaxKind.Identifier callee then
        let funcDeclPos := (ts.pos (ts.valueDeclaration funcSymbol) + 1)%N in
        functionPrototypes s' =
        if (ts.pos call <? funcDeclPos)%N
        then Js.set funcDeclPos (ts.valueDeclaration funcSymbol) (functionPrototypes s)
        else functionPrototypes s
      else s' = s
  | None => s' = s
  end.
Proof.
  intros Hcallee. unfold visitCallExpression. rewrite Hcallee.
  unfold bind at 1. cbn [defined ret].
  destruct (ts.is_kind ts.SyntaxKind.Identifier callee) eqn:Hkind.
  - destruct (ts.getSymbolAtLocation tc callee) as [funcSymbol|].
    + intros Hrun. apply bind_Ok in Hrun as ([] & s1 & Hproto & Hargs).
      apply recordCallArguments_keeps_functionPrototypes in Hargs.
      cbv zeta. rewrite Hargs.
      destruct (ts.pos call <? ts.pos (ts.valueDeclaration funcSymbol) + 1)%N.
      * injection Hproto as <-. reflexivity.
      * injection Hproto as <-. reflexivity.
    + intros [= <-]. reflexivity.
  - destruct (ts.getSymbolAtLocation tc callee); intros [= <-]; reflexivity.
Qed.

Lemma visitCallExpression_prototypes_witness :
  functionPrototypes
    (mkTypeHelper [] [] [] [] [(6%N, [VStr NumberVarType])] [] [] [(6%N, Example.funcG)]
       [] [] [])
  = Js.set 6%N Example.funcG [].
Proof.
  apply (visitCallExpression_prototypes Example.checkerG Example.callG1
           (Example.ident 0 "g") newTypeHelper
           (mkTypeHelper [] [] [] [] [(6%N, [VStr NumberVarType])] [] []
              [(6%N, Example.funcG)] [] [] []));
    [reflexivity|vm_compute; reflexivity].
Defined.

(** X9: once a variable of a pass of the resolver has had a promise
    resolved, the pass only finalizes the remaining variables:
    [tryResolvePromises] is not called for them, and the pass reports that
    something was resolved. *)
Theorem resolvePass_short_circuit tc (ks : list N) (s : TypeHelper) :
  resolvePass tc true ks s = (forEach finalizeVariable ks ;; ret true) s.
Proof.
  revert s. induction ks as [|k ks IH]; intros s; cbn [resolvePass forEach].
  - reflexivity.
  - unfold bind. destruct (finalizeVariable k s) as [[] s1|e]; [|reflexivity].
    cbn [ret]. rewrite IH. reflexivity.
Qed.

(** ** How the state changes over a run *)

Lemma objectEvolves_refl o : objectEvolves o o.
Proof. destruct o; cbn; auto. Qed.

Lemma objectEvolves_trans o1 o2 o3 :
  objectEvolves o1 o2 -> objectEvolves o2 o3 -> objectEvolves o1 o3.
Proof.
  destruct o1, o2, o3; cbn; try tauto.
  - intros (-> & Hd & Ht) (-> & Hd' & Ht'). split; [reflexivity|]. split; [auto|].
    destruct Ht as [->|Ht]; [exact Ht'|right; exact Ht].
  - intros (-> & Hp) (-> & Hp'). split; [reflexivity|]. auto.
  - congruence.
  - intros (-> & -> & Hr & Ha) (-> & -> & Hr' & Ha'). repeat split; auto.
Qed.

Lemma infoEvolves_refl vi : infoEvolves vi vi.
Proof.
  repeat split; auto. exists []. symmetry. apply app_nil_r.
Qed.

Lemma infoEvolves_trans v1 v2 v3 :
  infoEvolves v1 v2 -> infoEvolves v2 v3 -> infoEvolves v1 v3.
Proof.
  intros (Hn & Hd & [m Hr] & Ha) (Hn' & Hd' & [m' Hr'] & Ha').
  repeat split; try congruence; [|auto].
  exists (m ++ m'). rewrite Hr', Hr. symmetry. apply app_assoc.
Qed.

Lemma keysKept_refl {K V} `{Key K} (o : list (K * V)) : keysKept o o.
Proof. intros k Hk. exact Hk. Qed.

Lemma keysKept_trans {K V} `{Key K} (o1 o2 o3 : list (K * V)) :
  keysKept o1 o2 -> keysKept o2 o3 -> keysKept o1 o3.
Proof. intros H1 H2 k Hk. auto. Qed.

Lemma keysKept_set {K V} `{Key K} (k : K) (v : V) o : keysKept o (Js.set k v o).
Proof.
  intros k' Hk'. destruct (decide (k = k')) as [->|Hne].
  - rewrite get_set_eq. eauto.
  - rewrite get_set_ne; auto.
Qed.

Lemma instanceof_StructType_evolves h h' l :
  (forall l o, h !! l = Some o -> exists o', h' !! l = Some o' /\ objectEvolves o o') ->
  instanceof_StructType h (VRef l) = true ->
  instanceof_StructType h' (VRef l) = true.
Proof.
  unfold instanceof_StructType, object_at. intros Hev Hs.
  destruct (h !! l) as [o|] eqn:Hl; [|discriminate].
  destruct (Hev l o Hl) as (o' & -> & Ho).
  destruct o; try discriminate. destruct o'; cbn in Ho; tauto.
Qed.

Lemma evolves_refl s : evolves s s.
Proof.
  constructor; try apply keysKept_refl; auto.
  - intros l o Hl. exists o. split; [exact Hl|apply objectEvolves_refl].
  - intros k vi Hk. exists vi. split; [exact Hk|apply infoEvolves_refl].
Qed.

Lemma evolves_trans s1 s2 s3 : evolves s1 s2 -> evolves s2 s3 -> evolves s1 s3.
Proof.
  intros H1 H2. constructor;
    try (eapply keysKept_trans; [apply H1|apply H2]).
  - intros l o Hl. destruct (evolves_heap _ _ H1 l o Hl) as (o2 & Hl2 & Ho).
    destruct (evolves_heap _ _ H2 l o2 Hl2) as (o3 & Hl3 & Ho').
    exists o3. split; [exact Hl3|eapply objectEvolves_trans; eauto].
  - intros k vi Hk. destruct (evolves_variables _ _ H1 k vi Hk) as (v2 & Hk2 & Hv).
    destruct (evolves_variables _ _ H2 k v2 Hk2) as (v3 & Hk3 & Hv').
    exists v3. split; [exact Hk3|eapply infoEvolves_trans; eauto].
  - rewrite (evolves_temporaryVariables _ _ H2). apply H1.
  - intros k Hk. destruct (evolves_newVariables _ _ H2 k Hk) as [Hk2|Hd]; [|auto].
    destruct (evolves_newVariables _ _ H1 k Hk2) as [Hk1|Hd]; [auto|].
    right. apply (evolves_variablesData _ _ H2). exact Hd.
  - intros nm l Hl. destruct (evolves_newStructs _ _ H2 nm l Hl) as [Hl2|Hs]; [|auto].
    destruct (evolves_newStructs _ _ H1 nm l Hl2) as [Hl1|Hs]; [auto|].
    right. eapply instanceof_StructType_evolves; [apply H2|exact Hs].
Qed.

(** The invariants follow the state. *)
Lemma dataComplete_evolves s s' : evolves s s' -> dataComplete s -> dataComplete s'.
Proof.
  intros Hev Hc k Hk. destruct (evolves_newVariables _ _ Hev k Hk) as [Hk0|Hd]; [|exact Hd].
  apply (evolves_variablesData _ _ Hev). apply Hc. exact Hk0.
Qed.

Lemma structsRegistered_evolves s s' :
  evolves s s' -> structsRegistered s -> structsRegistered s'.
Proof.
  intros Hev Hr nm l Hl. destruct (evolves_newStructs _ _ Hev nm l Hl) as [Hl0|Hs]; [|exact Hs].
  eapply instanceof_StructType_evolves; [apply Hev|]. apply Hr with nm. exact Hl0.
Qed.

(** The steps that change the state. *)

Lemma heap_extended_evolves h ext :
  forall l o, h !! l = Some o ->
    exists o', (h ++ ext) !! l = Some o' /\ objectEvolves o o'.
Proof.
  intros l o Hl. exists o. split; [|apply objectEvolves_refl].
  apply lookup_app_l_Some. exact Hl.
Qed.

Lemma instanceof_StructType_extended h ext l :
  instanceof_StructType h (VRef l) = true ->
  instanceof_StructType (h ++ ext) (VRef l) = true.
Proof.
  apply instanceof_StructType_evolves. apply heap_extended_evolves.
Qed.

Lemma evolves_new o : respects evolves (new o).
Proof.
  intros s a s' H. inversion H; subst. clear H.
  constructor; cbn; try apply keysKept_refl; auto.
  - apply heap_extended_evolves.
  - intros k vi Hk. exists vi. split; [exact Hk|apply infoEvolves_refl].
Qed.

Ltac evolves_table :=
  let H := fresh in
  intros ? ? ? H; inversion H; subst; clear H;
  constructor; cbn; try apply keysKept_refl; try apply keysKept_set; auto;
  [ let Hl := fresh in
    intros ? ? Hl; eexists; split; [exact Hl|apply objectEvolves_refl]
  | let Hk := fresh in
    intros ? ? Hk; eexists; split; [exact Hk|apply infoEvolves_refl] ].

Lemma evolves_modify_arrayLiteralsTypes k v :
  respects evolves (modify (with_arrayLiteralsTypes (Js.set k v))).
Proof. evolves_table. Qed.

Lemma evolves_modify_objectLiteralsTypes k v :
  respects evolves (modify (with_objectLiteralsTypes (Js.set k v))).
Proof. evolves_table. Qed.

Lemma evolves_modify_functionCallsData k v :
  respects evolves (modify (with_functionCallsData (Js.set k v))).
Proof. evolves_table. Qed.

Lemma evolves_modify_functionReturnsData k v :
  respects evolves (modify (with_functionReturnsData (Js.set k v))).
Proof. evolves_table. Qed.

Lemma evolves_modify_functionReturnTypes k v :
  respects evolves (modify (with_functionReturnTypes (Js.set k v))).
Proof. evolves_table. Qed.

Lemma evolves_modify_functionPrototypes k v :
  respects evolves (modify (with_functionPrototypes (Js.set k v))).
Proof. evolves_table. Qed.

Lemma evolves_updateVariableData varPos f :
  respects evolves (updateVariableData varPos f).
Proof.
  intros s a s' H. unfold updateVariableData, variableData in H.
  apply bind_Ok in H as (vd & s1 & Hvd & H).
  apply bind_Ok in Hvd as (x & s2 & Hx & Hvd).
  inversion Hx; subst. apply defined_Ok in Hvd as [_ ->]. inversion H; subst.
  constructor; cbn; try apply keysKept_refl; try apply keysKept_set; auto.
  - intros l o Hl. exists o. split; [exact Hl|apply objectEvolves_refl].
  - intros k vi Hk. exists vi. split; [exact Hk|apply infoEvolves_refl].
Qed.

Lemma evolves_updateVariableInfo varPos f :
  (forall vi, infoEvolves vi (f vi)) ->
  respects evolves (updateVariableInfo varPos f).
Proof.
  intros Hf s a s' H. unfold updateVariableInfo, variableInfo in H.
  apply bind_Ok in H as (vi0 & s1 & Hvi & H).
  apply bind_Ok in Hvi as (x & s2 & Hx & Hvi).
  inversion Hx; subst. apply defined_Ok in Hvi as [Hget ->]. inversion H; subst.
  constructor; cbn; try apply keysKept_refl; auto.
  - intros l o Hl. exists o. split; [exact Hl|apply objectEvolves_refl].
  - intros k vi Hk. destruct (decide (varPos = k)) as [->|Hne].
    + rewrite get_set_eq. exists (f vi0). split; [reflexivity|].
      rewrite Hget in Hk. injection Hk as <-. apply Hf.
    + rewrite get_set_ne by exact Hne. exists vi. split; [exact Hk|apply infoEvolves_refl].
  - intros k Hk. left. destruct (decide (varPos = k)) as [->|Hne].
    + rewrite Hget. eauto.
    + rewrite get_set_ne in Hk by exact Hne. exact Hk.
Qed.

(** An update in place of an object: what is asked of it may depend on the
    object that is there. *)
Lemma updateHeap_evolves l f s s' :
  (forall o, heap s !! l = Some o -> objectEvolves o (f o)) ->
  updateHeap l f s = Ok tt s' -> evolves s s'.
Proof.
  intros Hf H. unfold updateHeap in H.
  apply bind_Ok in H as (h & s1 & Hh & H). inversion Hh; subst.
  apply bind_Ok in H as (o & s2 & Ho & H). apply defined_Ok in Ho as [Hl ->].
  inversion H; subst.
  assert (Hheap : forall l0 o0, heap s1 !! l0 = Some o0 ->
            exists o', <[l := f o]> (heap s1) !! l0 = Some o' /\ objectEvolves o0 o').
  { intros l0 o0 Hl0. destruct (decide (l = l0)) as [->|Hne].
    - exists (f o). split.
      + apply list_lookup_insert_eq. apply lookup_lt_Some in Hl0. exact Hl0.
      + rewrite Hl in Hl0. injection Hl0 as <-. apply Hf, Hl.
    - exists o0. split; [|apply objectEvolves_refl].
      rewrite list_lookup_insert_ne by exact Hne. exact Hl0. }
  constructor; cbn; try apply keysKept_refl; auto.
  intros k vi Hk. exists vi. split; [exact Hk|apply infoEvolves_refl].
Qed.

Lemma evolves_updateHeap l f :
  (forall o, objectEvolves o (f o)) -> respects evolves (updateHeap l f).
Proof.
  intros Hf s [] s' H. eapply updateHeap_evolves; [|exact H]. intros o _. apply Hf.
Qed.

Lemma objectEvolves_mark_arrayOf o : objectEvolves o (mark_arrayOf o).
Proof. destruct o; cbn; auto. Qed.

Lemma objectEvolves_put_associatedProperty p o :
  objectEvolves o (put_associatedProperty p o).
Proof. destruct o; cbn; auto. Qed.

Lemma objectEvolves_mark_resolved o : objectEvolves o (mark_resolved o).
Proof. destruct o; cbn; auto. Qed.

Lemma objectEvolves_put_isDynamicArray_true o :
  objectEvolves o (put_isDynamicArray true o).
Proof. destruct o; cbn; auto. Qed.

Lemma objectEvolves_put_property k t o : objectEvolves o (put_property k t o).
Proof.
  destruct o; cbn; auto. split; [reflexivity|]. apply keysKept_set.
Qed.

Lemma infoEvolves_add_reference n vi : infoEvolves vi (add_reference n vi).
Proof. repeat split; cbn; eauto. Qed.

Lemma infoEvolves_set_type t vi : infoEvolves vi (set_type t vi).
Proof. repeat split; cbn; auto. exists []. symmetry. apply app_nil_r. Qed.

Lemma infoEvolves_set_requiresAllocation vi : infoEvolves vi (set_requiresAllocation vi).
Proof. repeat split; cbn; auto. exists []. symmetry. apply app_nil_r. Qed.

Create HintDb evolves discriminated.

#[local] Hint Resolve evolves_new evolves_modify_arrayLiteralsTypes
  evolves_modify_objectLiteralsTypes evolves_modify_functionCallsData
  evolves_modify_functionReturnsData evolves_modify_functionReturnTypes
  evolves_modify_functionPrototypes evolves_updateVariableData : evolves.
#[local] Hint Resolve objectEvolves_mark_arrayOf objectEvolves_put_associatedProperty
  objectEvolves_mark_resolved objectEvolves_put_isDynamicArray_true
  objectEvolves_put_property infoEvolves_add_reference infoEvolves_set_type
  infoEvolves_set_requiresAllocation : evolves.
#[local] Hint Resolve evolves_updateHeap evolves_updateVariableInfo : evolves.

Ltac evolves_step :=
  first
    [ solve [auto with evolves]
    | apply respects_ret; [apply evolves_refl]
    | apply respects_throw
    | apply respects_gets; [apply evolves_refl]
    | apply respects_defined; [apply evolves_refl]
    | apply respects_bind; [apply evolves_trans| |intros ?]
    | match goal with
      | |- respects _ (match ?x with _ => _ end) => destruct x
      | |- respects _ (if ?x then _ else _) => destruct x
      | |- respects _ (let '(_, _) := ?x in _) => destruct x
      end ].

Ltac evolves_auto := repeat evolves_step.

Lemma evolves_register structName nm ps :
  respects evolves
    (l <- new (StructType nm ps) ;;
     modify (with_userStructs (Js.set structName l)) ;;
     ret (VRef l)).
Proof.
  intros s a s' H. unfold bind, new, modify, ret in H. inversion H; subst; clear H.
  constructor; cbn; try apply keysKept_refl; try apply keysKept_set; auto.
  - apply heap_extended_evolves.
  - intros k vi Hk. exists vi. split; [exact Hk|apply infoEvolves_refl].
  - intros nm0 l Hl. destruct (decide (structName = nm0)) as [->|Hne].
    + rewrite get_set_eq in Hl. injection Hl as <-. right.
      unfold instanceof_StructType, object_at.
      rewrite lookup_app_r by lia. rewrite Nat.sub_diag. reflexivity.
    + rewrite get_set_ne in Hl by exact Hne. left. exact Hl.
Qed.

Lemma evolves_findStructure h code us : respects evolves (findStructure h code us).
Proof. induction us as [|[nm l] us IH]; cbn [findStructure]; evolves_auto. Qed.
#[local] Hint Resolve evolves_findStructure : evolves.

Lemma evolves_registerStructure nm info : respects evolves (registerStructure nm info).
Proof.
  unfold registerStructure, getStructureBodyString.
  evolves_step; [evolves_auto|]. evolves_step; [evolves_auto|].
  destruct a0; [evolves_auto|]. apply evolves_register.
Qed.
#[local] Hint Resolve evolves_registerStructure : evolves.

Lemma evolves_convertType_with gen tsType ident :
  (forall t, tsType = Some t -> respects evolves (gen t ident)) ->
  respects evolves (convertType_with gen tsType ident).
Proof. intros Hgen. unfold convertType_with. evolves_auto. Qed.

Lemma evolves_determineArrayType_with conv arrLiteral first :
  respects evolves (conv first None) ->
  respects evolves (determineArrayType_with conv arrLiteral first).
Proof. intros Hc. unfold determineArrayType_with. evolves_auto. Qed.

Lemma evolves_generateStructure tsType :
  forall ident, respects evolves (generateStructure tsType ident).
Proof.
  induction tsType as [f i sg props IH] using Type_induction.
  intros ident. rewrite generateStructure_eq. simpl.
  evolves_step; [evolves_auto|]. evolves_step; [|evolves_auto].
  generalize (@nil (string * value)).
  induction IH as [|[[prop t1] e] props [Ht He] _ IHprops]; intros info; simpl.
  - evolves_auto.
  - evolves_step.
    + apply evolves_convertType_with. intros t [= <-]. apply Ht.
    + evolves_step; [|apply IHprops].
      evolves_auto; apply evolves_determineArrayType_with;
        apply evolves_convertType_with; intros t ->; apply He.
Qed.
#[local] Hint Resolve evolves_generateStructure : evolves.

Lemma evolves_convertType tsType ident : respects evolves (convertType tsType ident).
Proof. apply evolves_convertType_with. auto with evolves. Qed.
#[local] Hint Resolve evolves_convertType : evolves.

Lemma evolves_determineArrayType tc arrLiteral :
  respects evolves (determineArrayType tc arrLiteral).
Proof. apply evolves_determineArrayType_with. auto with evolves. Qed.
#[local] Hint Resolve evolves_determineArrayType : evolves.

Lemma evolves_getVariableInfo tc node : respects evolves (getVariableInfo tc node).
Proof. unfold getVariableInfo. evolves_auto. Qed.
#[local] Hint Resolve evolves_getVariableInfo : evolves.

Lemma evolves_getCType tc node : respects evolves (getCType tc node).
Proof.
  induction node as [k p t ch IH] using Node_induction2.
  assert (Hfirst : forall e rest, ch = e :: rest ->
            respects evolves (getCType tc e) /\
            forall e' rest', ts.getChildren e = e' :: rest' ->
              respects evolves (getCType tc e')).
  { intros e rest ->. inversion IH as [|? ? [He Hch] _]; subst. split; [exact He|].
    intros e' rest' Heq. rewrite Heq in Hch. inversion Hch; subst. assumption. }
  clear IH.
  destruct k; simpl; try solve [evolves_auto].
  - destruct ch as [|e rest]; [evolves_auto|].
    destruct (Hfirst e rest eq_refl) as [He _]. evolves_auto.
  - destruct ch as [|e rest]; [evolves_auto|].
    destruct (Hfirst e rest eq_refl) as [He _]. evolves_auto.
  - destruct ch as [|e rest]; [evolves_auto|].
    destruct (Hfirst e rest eq_refl) as [He Hsub].
    destruct e as [ck cp ct cch]. simpl in Hsub.
    destruct cch as [|r rest'].
    + evolves_auto.
    + pose proof (Hsub r rest' eq_refl) as Hr. evolves_auto.
Qed.
#[local] Hint Resolve evolves_getCType : evolves.

Lemma evolves_typeTextM t : respects evolves (typeTextM t).
Proof. unfold typeTextM. evolves_auto. Qed.
Lemma evolves_getTextM l : respects evolves (getTextM l).
Proof. unfold getTextM. evolves_auto. Qed.
#[local] Hint Resolve evolves_typeTextM evolves_getTextM : evolves.

Lemma evolves_getTypeString tc source : respects evolves (getTypeString tc source).
Proof. unfold getTypeString, convertSource. evolves_auto. Qed.
#[local] Hint Resolve evolves_getTypeString : evolves.

Lemma evolves_determineType tc left right : respects evolves (determineType tc left right).
Proof. unfold determineType. evolves_auto. Qed.
#[local] Hint Resolve evolves_determineType : evolves.

Lemma evolves_variableData k : respects evolves (variableData k).
Proof. unfold variableData. evolves_auto. Qed.
#[local] Hint Resolve evolves_variableData : evolves.

Lemma evolves_pushPromise varPos l : respects evolves (pushPromise varPos l).
Proof. unfold pushPromise. evolves_auto. Qed.
#[local] Hint Resolve evolves_pushPromise : evolves.

Lemma evolves_addTypeToVariable tc varPos left right :
  respects evolves (addTypeToVariable tc varPos left right).
Proof. unfold addTypeToVariable. evolves_auto. Qed.
#[local] Hint Resolve evolves_addTypeToVariable : evolves.

Lemma evolves_recordCallArguments tc funcDeclPos args :
  forall i, respects evolves (recordCallArguments tc funcDeclPos i args).
Proof.
  induction args as [|arg args IH]; intros i; cbn [recordCallArguments].
  - evolves_auto.
  - evolves_step; [|apply IH]. unfold recordCallArgument. evolves_auto.
Qed.
#[local] Hint Resolve evolves_recordCallArguments : evolves.

Lemma evolves_visitCallExpression tc call : respects evolves (visitCallExpression tc call).
Proof. unfold visitCallExpression. evolves_auto. Qed.

Lemma evolves_visitReturnStatement tc ancestors ret_ :
  respects evolves (visitReturnStatement tc ancestors ret_).
Proof. unfold visitReturnStatement. evolves_auto. Qed.

Lemma evolves_visitVariableDeclarationName tc ancestors varPos node varDecl :
  respects evolves (visitVariableDeclarationName tc ancestors varPos node varDecl).
Proof. unfold visitVariableDeclarationName. evolves_auto. Qed.

Lemma evolves_visitParameterName tc ancestors varPos node :
  respects evolves (visitParameterName tc ancestors varPos node).
Proof. unfold visitParameterName. evolves_auto. Qed.

Lemma evolves_visitAssignmentTarget tc varPos node binExpr :
  respects evolves (visitAssignmentTarget tc varPos node binExpr).
Proof. unfold visitAssignmentTarget. evolves_auto. Qed.

Lemma evolves_visitPropertyAccessTarget tc ancestors varPos node propAccess :
  respects evolves (visitPropertyAccessTarget tc ancestors varPos node propAccess).
Proof. unfold visitPropertyAccessTarget. evolves_auto. Qed.

Lemma evolves_refineElementType determinedType at_ :
  respects evolves (refineElementType determinedType at_).
Proof.
  intros s [] s' H. unfold refineElementType in H.
  apply bind_Ok in H as (h & s1 & Hh & H). inversion Hh; subst; clear Hh.
  destruct at_ as [| |b|str|l]; try (inversion H; apply evolves_refl).
  destruct (heap s1 !! l) as [o|] eqn:Hl; [|inversion H; apply evolves_refl].
  destruct o as [t c d| | |]; try (inversion H; apply evolves_refl).
  destruct (eq_str t UniversalVarType) eqn:Hu; [|inversion H; apply evolves_refl].
  eapply updateHeap_evolves; [|exact H].
  intros o Ho. rewrite Hl in Ho. injection Ho as <-. cbn. auto.
Qed.
#[local] Hint Resolve evolves_refineElementType : evolves.

Lemma evolves_forEach {A} (body : A -> M unit) l :
  (forall x, respects evolves (body x)) -> respects evolves (forEach body l).
Proof.
  intros Hb. induction l; cbn [forEach]; evolves_auto.
Qed.

Lemma evolves_replaceStructByDict varPos determinedType atKey :
  respects evolves (replaceStructByDict varPos determinedType atKey).
Proof. unfold replaceStructByDict. evolves_auto. Qed.
#[local] Hint Resolve evolves_replaceStructByDict : evolves.

Lemma evolves_recordElementWrite varPos argument determinedType :
  respects evolves (recordElementWrite varPos argument determinedType).
Proof.
  unfold recordElementWrite.
  repeat first [ apply evolves_forEach; intros ? | evolves_step ].
Qed.
#[local] Hint Resolve evolves_recordElementWrite : evolves.

Lemma evolves_visitElementAccessTarget tc ancestors varPos node elemAccess :
  respects evolves (visitElementAccessTarget tc ancestors varPos node elemAccess).
Proof. unfold visitElementAccessTarget. evolves_auto. Qed.

Lemma evolves_visitForOfTarget varPos node forOfStatement :
  respects evolves (visitForOfTarget varPos node forOfStatement).
Proof. unfold visitForOfTarget. evolves_auto. Qed.

#[local] Hint Resolve evolves_visitCallExpression evolves_visitReturnStatement
  evolves_visitVariableDeclarationName evolves_visitParameterName
  evolves_visitAssignmentTarget evolves_visitPropertyAccessTarget
  evolves_visitElementAccessTarget evolves_visitForOfTarget : evolves.

(** The registration of a variable that has no entry: its entry and its
    data are created together. *)
Lemma evolves_createVariable varPos vi vd s :
  Js.get varPos (variables s) = None ->
  evolves s (with_variablesData (Js.set varPos vd) (with_variables (Js.set varPos vi) s)).
Proof.
  intros Hnone.
  constructor; cbn; try apply keysKept_refl; try apply keysKept_set; auto.
  - intros l o Hl. exists o. split; [exact Hl|apply objectEvolves_refl].
  - intros k vi0 Hk. exists vi0. split; [|apply infoEvolves_refl].
    destruct (decide (varPos = k)) as [->|Hne]; [congruence|].
    rewrite get_set_ne by exact Hne. exact Hk.
  - intros k Hk. destruct (decide (varPos = k)) as [->|Hne].
    + right. rewrite get_set_eq. eauto.
    + left. rewrite get_set_ne in Hk by exact Hne. exact Hk.
Qed.

Lemma evolves_visitIdentifier tc ancestors node :
  respects evolves (visitIdentifier tc ancestors node).
Proof.
  unfold visitIdentifier.
  destruct (ts.getSymbolAtLocation tc node) as [symbol|]; [|evolves_auto].
  set (varPos := ts.pos (ts.valueDeclaration symbol)).
  intros s a s' H.
  apply bind_Ok in H as (known & s0 & Hknown & H). inversion Hknown; subst; clear Hknown.
  apply bind_Ok in H as ([] & s1 & Hcreate & H).
  apply evolves_trans with s1.
  - destruct (Js.get varPos (variables s0)) eqn:Hget.
    + inversion Hcreate; subst. apply evolves_refl.
    + unfold bind, modify in Hcreate. inversion Hcreate; subst.
      apply evolves_createVariable. exact Hget.
  - cbv beta in H.
    match type of H with
    | ?m s1 = _ => assert (Hrest : respects evolves m) by evolves_auto
    end.
    exact (Hrest _ _ _ H).
Qed.
#[local] Hint Resolve evolves_visitIdentifier : evolves.

Lemma evolves_visit tc ancestors node : respects evolves (visit tc ancestors node).
Proof. unfold visit. evolves_auto. Qed.
#[local] Hint Resolve evolves_visit : evolves.

Lemma evolves_findVariablesRecursively tc node :
  forall ancestors, respects evolves (findVariablesRecursively tc ancestors node).
Proof.
  induction node as [k p t ch IH] using Node_induction.
  intros ancestors. cbn [findVariablesRecursively].
  evolves_step; [evolves_auto|].
  generalize (ts.mkNode k p t ch :: ancestors). intros path.
  induction IH as [|c cs Hc _ IHcs]; [evolves_auto|].
  evolves_step; [apply Hc|exact IHcs].
Qed.

Lemma evolves_evidenceType tc type : respects evolves (evidenceType tc type).
Proof. unfold evidenceType. evolves_auto. Qed.
#[local] Hint Resolve evolves_evidenceType : evolves.

Lemma evolves_resolveParameter tc varPos : respects evolves (resolveParameter tc varPos).
Proof. unfold resolveParameter. evolves_auto. Qed.

Lemma evolves_resolveReturn tc funcDeclPos : respects evolves (resolveReturn tc funcDeclPos).
Proof. unfold resolveReturn. evolves_auto. Qed.

Lemma evolves_anyOf {A} (body : A -> M bool) l :
  (forall x, respects evolves (body x)) -> respects evolves (anyOf body l).
Proof. intros Hb. induction l; cbn [anyOf]; evolves_auto. Qed.

Lemma evolves_resolvePromise tc varPos promise :
  respects evolves (resolvePromise tc varPos promise).
Proof. unfold resolvePromise. evolves_auto. Qed.

#[local] Hint Resolve evolves_resolveParameter evolves_resolveReturn
  evolves_resolvePromise : evolves.

Lemma evolves_tryResolvePromises tc varPos :
  respects evolves (tryResolvePromises tc varPos).
Proof.
  unfold tryResolvePromises.
  repeat first [ apply evolves_anyOf; intros ? | evolves_step ].
Qed.
#[local] Hint Resolve evolves_tryResolvePromises : evolves.

Lemma evolves_mergeAddedProperty varType entry :
  respects evolves (mergeAddedProperty varType entry).
Proof. unfold mergeAddedProperty. evolves_auto. Qed.
#[local] Hint Resolve evolves_mergeAddedProperty : evolves.

Lemma evolves_finalizeVariable k : respects evolves (finalizeVariable k).
Proof.
  unfold finalizeVariable.
  evolves_step; [evolves_auto|].
  destruct (List.filter _ _) as [|t [|t' ts]]; try solve [evolves_auto].
  intros s [] s3 H.
  apply bind_Ok in H as (h & s1 & Hh & H). inversion Hh; subst; clear Hh.
  apply bind_Ok in H as ([] & s' & Hm & Hset).
  apply evolves_trans with s';
    [|eapply evolves_updateVariableInfo; [|exact Hset]; auto with evolves].
  clear Hset. rename Hm into H.
  destruct (lookup_value t (assignmentTypes a)) as [| |b|str|l];
    try (inversion H; apply evolves_refl).
  unfold object_at in H.
  destruct (heap s1 !! l) as [o|] eqn:Hl; [|inversion H; apply evolves_refl].
  destruct o as [et c dyn|nm ps|et|r p ar n e].
  - apply bind_Ok in H as ([] & s2 & Hflip & H).
    apply evolves_trans with s2.
    + eapply updateHeap_evolves; [|exact Hflip].
      intros o Ho. rewrite Hl in Ho. injection Ho as <-. cbn.
      split; [reflexivity|]. split; [|left; reflexivity].
      intros ->. reflexivity.
    + revert H. destruct (isDynamicArray a); intros H.
      * eapply evolves_updateVariableInfo; [|exact H]. auto with evolves.
      * inversion H. apply evolves_refl.
  - cbv beta in H.
    match type of H with
    | ?m s1 = _ =>
        assert (Hrest : respects evolves m)
          by repeat first [ apply evolves_forEach; intros ? | evolves_step ]
    end.
    exact (Hrest _ _ _ H).
  - eapply evolves_updateVariableInfo; [|exact H]. auto with evolves.
  - inversion H. apply evolves_refl.
Qed.
#[local] Hint Resolve evolves_finalizeVariable : evolves.

Lemma evolves_resolvePass tc ks :
  forall some, respects evolves (resolvePass tc some ks).
Proof.
  induction ks as [|k ks IH]; intros some; cbn [resolvePass].
  - evolves_auto.
  - evolves_step; [evolves_auto|]. evolves_step; [evolves_auto|]. apply IH.
Qed.

Lemma evolves_resolvePromisesAndFinalizeTypes tc fuel :
  forall s s', resolvePromisesAndFinalizeTypes tc fuel s = Some (Ok tt s') -> evolves s s'.
Proof.
  induction fuel as [|fuel IH]; intros s s' H; cbn [resolvePromisesAndFinalizeTypes] in H;
    [discriminate|].
  destruct (resolvePass tc false (Js.keys (variables s)) s) as [[|] s1|e] eqn:Hpass;
    try discriminate.
  - apply evolves_trans with s1; [eapply evolves_resolvePass; exact Hpass|].
    apply IH. exact H.
  - injection H as <-. eapply evolves_resolvePass; exact Hpass.
Qed.

Lemma evolves_figureOutVariablesAndTypes tc fuel sources s s' :
  figureOutVariablesAndTypes tc fuel sources s = Some (Ok tt s') -> evolves s s'.
Proof.
  unfold figureOutVariablesAndTypes.
  destruct (forEach (findVariablesRecursively tc []) sources s) as [[] s1|e] eqn:Hcollect;
    [|discriminate].
  intros H. apply evolves_trans with s1.
  - eapply evolves_forEach; [|exact Hcollect].
    intros node. apply evolves_findVariablesRecursively.
  - eapply evolves_resolvePromisesAndFinalizeTypes. exact H.
Qed.

(** ** The types the resolver leaves *)

Lemma besides_refl k s : besides k s s.
Proof. repeat split. Qed.

Lemma besides_trans k s1 s2 s3 : besides k s1 s2 -> besides k s2 s3 -> besides k s1 s3.
Proof.
  intros (Hd & Hk & Hg) (Hd' & Hk' & Hg'). repeat split; try congruence.
  intros k' Hne. rewrite Hg', Hg by exact Hne. reflexivity.
Qed.

Lemma keys_replace {K V} `{Key K} (k : K) (v : V) o :
  Js.keys (Js.replace k v o) = Js.keys o.
Proof.
  induction o as [|[k1 v1] o IH]; cbn [Js.replace]; [reflexivity|].
  destruct (decide (k = k1)) as [->|Hne]; [reflexivity|].
  unfold Js.keys in *. cbn [map fst]. rewrite IH. reflexivity.
Qed.

Lemma keys_set_present {K V} `{Key K} (k : K) (v : V) o :
  is_Some (Js.get k o) -> Js.keys (Js.set k v o) = Js.keys o.
Proof. intros [x Hx]. unfold Js.set. rewrite Hx. apply keys_replace. Qed.

Lemma get_Some_keys {K V} `{Key K} (k : K) (v : V) o :
  Js.get k o = Some v -> In k (Js.keys o).
Proof.
  intros Hg. apply get_Some_In in Hg. unfold Js.keys. apply in_map_iff.
  exists (k, v). auto.
Qed.

Lemma updateVariableInfo_besides k f : respects (besides k) (updateVariableInfo k f).
Proof.
  intros s a s' H. unfold updateVariableInfo, variableInfo in H.
  apply bind_Ok in H as (vi0 & s1 & Hvi & H).
  apply bind_Ok in Hvi as (x & s2 & Hx & Hvi).
  inversion Hx; subst. apply defined_Ok in Hvi as [Hget ->]. inversion H; subst.
  repeat split; cbn.
  - apply keys_set_present. rewrite Hget. eauto.
  - intros k' Hne. apply get_set_ne. congruence.
Qed.

Lemma updateHeap_besides k l f : respects (besides k) (updateHeap l f).
Proof.
  intros s a s' H. unfold updateHeap in H.
  apply bind_Ok in H as (h & s1 & Hh & H). inversion Hh; subst.
  apply bind_Ok in H as (o & s2 & Ho & H). apply defined_Ok in Ho as [Hl ->].
  inversion H; subst. repeat split.
Qed.

Ltac besides_step k :=
  first
    [ apply updateVariableInfo_besides
    | apply updateHeap_besides
    | apply respects_ret; [apply (besides_refl k)]
    | apply respects_throw
    | apply respects_gets; [apply (besides_refl k)]
    | apply respects_defined; [apply (besides_refl k)]
    | apply respects_forEach; [apply (besides_refl k)|apply (besides_trans k)|intros ?]
    | apply respects_bind; [apply (besides_trans k)| |intros ?]
    | match goal with
      | |- respects _ (match ?x with _ => _ end) => destruct x
      | |- respects _ (if ?x then _ else _) => destruct x
      end ].

Lemma finalizeVariable_besides k : respects (besides k) (finalizeVariable k).
Proof.
  unfold finalizeVariable, mergeAddedProperty, variableData.
  repeat besides_step k.
Qed.

Lemma updateVariableInfo_get k f s s' :
  updateVariableInfo k f s = Ok tt s' ->
  exists vi, Js.get k (variables s) = Some vi /\ Js.get k (variables s') = Some (f vi).
Proof.
  intros H. unfold updateVariableInfo, variableInfo in H.
  apply bind_Ok in H as (vi0 & s1 & Hvi & H).
  apply bind_Ok in Hvi as (x & s2 & Hx & Hvi).
  inversion Hx; subst. apply defined_Ok in Hvi as [Hget ->]. inversion H; subst.
  exists vi0. split; [exact Hget|]. cbn. apply get_set_eq.
Qed.

(** After its finalization, the type of a variable agrees with its
    evidence. *)
Lemma finalizeVariable_typeAgrees k s s' :
  finalizeVariable k s = Ok tt s' ->
  exists vi vd,
    Js.get k (variables s') = Some vi
    /\ Js.get k (variablesData s') = Some vd
    /\ typeAgrees vi vd.
Proof.
  intros H. pose proof (finalizeVariable_besides k s tt s' H) as (Hdata & _ & _).
  unfold finalizeVariable in H.
  apply bind_Ok in H as (vd & s0 & Hvd & H).
  unfold variableData in Hvd. apply bind_Ok in Hvd as (x & s1 & Hx & Hvd).
  inversion Hx; subst; clear Hx. apply defined_Ok in Hvd as [Hget ->].
  destruct (List.filter _ (Js.keys (assignmentTypes vd))) as [|t [|t' ts]] eqn:Hc.
  - apply updateVariableInfo_get in H as (vi & _ & Hvi).
    exists (set_type (VStr PointerVarType) vi), vd. rewrite Hdata.
    unfold typeAgrees, candidates. rewrite Hc. auto.
  - apply bind_Ok in H as (h & s2 & Hh & H).
    apply bind_Ok in H as ([] & s3 & _ & H).
    apply updateVariableInfo_get in H as (vi & _ & Hvi).
    exists (set_type (lookup_value t (assignmentTypes vd)) vi), vd. rewrite Hdata.
    unfold typeAgrees, candidates. rewrite Hc. auto.
  - apply bind_Ok in H as ([] & s2 & Halloc & H).
    apply updateVariableInfo_get in Halloc as (vi0 & _ & Hvi0).
    apply updateVariableInfo_get in H as (vi & Hvi & Hvi').
    rewrite Hvi0 in Hvi. injection Hvi as <-.
    exists (set_type (VStr UniversalVarType) (set_requiresAllocation vi0)), vd.
    rewrite Hdata. unfold typeAgrees, candidates. rewrite Hc. auto.
Qed.

Lemma respects_anyOf (R : TypeHelper -> TypeHelper -> Prop) {A} (body : A -> M bool) l :
  (forall s, R s s) -> (forall s1 s2 s3, R s1 s2 -> R s2 s3 -> R s1 s3) ->
  (forall x, respects R (body x)) -> respects R (anyOf body l).
Proof.
  intros Hrefl Htrans Hb. induction l as [|x l IH]; cbn [anyOf].
  - apply respects_ret, Hrefl.
  - apply respects_bind; [exact Htrans|apply Hb|intros b].
    apply respects_bind; [exact Htrans|exact IH|intros b'].
    apply respects_ret, Hrefl.
Qed.

Lemma framed_keeps_variables {A} (m : M A) :
  framed m -> respects (fun s s' => variables s' = variables s) m.
Proof. intros Hm s a s' Hrun. apply (Hm s a s' Hrun). Qed.

Lemma framed_keeps_variablesData {A} (m : M A) :
  framed m -> respects (fun s s' => variablesData s' = variablesData s) m.
Proof. intros Hm s a s' Hrun. apply (Hm s a s' Hrun). Qed.

(** The steps of a proof that a table is left as it is; a step that
    changes the table is not taken. *)
Ltac kept_step proj framed_keeps :=
  first
    [ apply framed_keeps; solve [auto with framed]
    | apply respects_ret; [apply (keeps_refl proj)]
    | apply respects_throw
    | apply respects_gets; [apply (keeps_refl proj)]
    | apply respects_defined; [apply (keeps_refl proj)]
    | apply respects_anyOf;
        [apply (keeps_refl proj)|apply (keeps_trans proj)|intros ?]
    | apply respects_forEach;
        [apply (keeps_refl proj)|apply (keeps_trans proj)|intros ?]
    | match goal with
      | |- respects _ (modify _) =>
          let H := fresh in intros ? ? ? H; inversion H; reflexivity
      | |- respects _ (new _) =>
          let H := fresh in intros ? ? ? H; inversion H; reflexivity
      | |- respects _ (updateHeap _ _) => unfold updateHeap
      | |- respects _ (updateVariableData _ _) => unfold updateVariableData
      | |- respects _ (updateVariableInfo _ _) => unfold updateVariableInfo
      | |- respects _ (variableData _) => unfold variableData
      | |- respects _ (variableInfo _) => unfold variableInfo
      | |- respects _ (typeTextM _) => unfold typeTextM
      | |- respects _ (getTextM _) => unfold getTextM
      end
    | apply respects_bind; [apply (keeps_trans proj)| |intros ?]
    | match goal with
      | |- respects _ (match ?x with _ => _ end) => destruct x
      | |- respects _ (if ?x then _ else _) => destruct x
      end ].

Lemma getTypeString_keeps_variables tc source :
  respects (fun s s' => variables s' = variables s) (getTypeString tc source).
Proof.
  unfold getTypeString, convertSource.
  repeat kept_step variables @framed_keeps_variables.
Qed.

Lemma getTypeString_keeps_variablesData tc source :
  respects (fun s s' => variablesData s' = variablesData s) (getTypeString tc source).
Proof.
  unfold getTypeString, convertSource.
  repeat kept_step variablesData @framed_keeps_variablesData.
Qed.

Lemma evidenceType_keeps_variables tc type :
  respects (fun s s' => variables s' = variables s) (evidenceType tc type).
Proof. unfold evidenceType. repeat kept_step variables @framed_keeps_variables. Qed.

Lemma evidenceType_keeps_variablesData tc type :
  respects (fun s s' => variablesData s' = variablesData s) (evidenceType tc type).
Proof. unfold evidenceType. repeat kept_step variablesData @framed_keeps_variablesData. Qed.

Lemma resolveReturn_keeps_variables tc funcDeclPos :
  respects (fun s s' => variables s' = variables s) (resolveReturn tc funcDeclPos).
Proof.
  unfold resolveReturn.
  repeat first [ apply evidenceType_keeps_variables
               | kept_step variables @framed_keeps_variables ].
Qed.

Lemma resolveReturn_keeps_variablesData tc funcDeclPos :
  respects (fun s s' => variablesData s' = variablesData s) (resolveReturn tc funcDeclPos).
Proof.
  unfold resolveReturn.
  repeat first [ apply evidenceType_keeps_variablesData
               | kept_step variablesData @framed_keeps_variablesData ].
Qed.

Lemma resolveParameter_keeps_variables tc varPos :
  respects (fun s s' => variables s' = variables s) (resolveParameter tc varPos).
Proof.
  unfold resolveParameter.
  repeat first [ apply evidenceType_keeps_variables
               | apply getTypeString_keeps_variables
               | kept_step variables @framed_keeps_variables ].
Qed.

Lemma resolvePromise_keeps_variables tc varPos promise :
  respects (fun s s' => variables s' = variables s) (resolvePromise tc varPos promise).
Proof.
  unfold resolvePromise.
  repeat kept_step variables @framed_keeps_variables.
Qed.

Lemma tryResolvePromises_keeps_variables tc varPos :
  respects (fun s s' => variables s' = variables s) (tryResolvePromises tc varPos).
Proof.
  unfold tryResolvePromises.
  repeat first [ apply resolveParameter_keeps_variables
               | apply resolveReturn_keeps_variables
               | apply resolvePromise_keeps_variables
               | kept_step variables @framed_keeps_variables ].
Qed.

(** A part of [tryResolvePromises] that resolves nothing leaves the
    evidence of the variables as it is. *)
Lemma resolveParameter_quiet tc varPos s s' :
  resolveParameter tc varPos s = Ok false s' -> variablesData s' = variablesData s.
Proof.
  unfold resolveParameter. intros H.
  apply bind_Ok in H as (vd & s0 & Hvd & H).
  unfold variableData in Hvd. apply bind_Ok in Hvd as (x & s1 & Hx & Hvd).
  inversion Hx; subst; clear Hx. apply defined_Ok in Hvd as [_ ->].
  destruct (parameterFuncDeclPos vd) as [funcDeclPos|]; [|inversion H; reflexivity].
  destruct (funcDeclPos =? 0)%N; [inversion H; reflexivity|].
  apply bind_Ok in H as (callData & s2 & Hc & H). inversion Hc; subst; clear Hc.
  destruct (Js.get funcDeclPos (functionCallsData s2)) as [callData|];
    [|inversion H; reflexivity].
  apply bind_Ok in H as (finalType & s3 & Hev & H).
  apply evidenceType_keeps_variablesData in Hev.
  destruct (truthy finalType); [|inversion H; subst; exact Hev].
  apply bind_Ok in H as (vd' & s4 & Hvd' & H).
  unfold variableData in Hvd'. apply bind_Ok in Hvd' as (x & s5 & Hx & Hvd').
  inversion Hx; subst; clear Hx. apply defined_Ok in Hvd' as [_ ->].
  apply bind_Ok in H as (key & s6 & Hkey & H).
  apply getTypeString_keeps_variablesData in Hkey.
  destruct (truthy (lookup_value key (assignmentTypes vd'))).
  - inversion H; subst. congruence.
  - apply bind_Ok in H as ([] & s7 & _ & H). inversion H.
Qed.

Lemma resolvePromise_quiet tc varPos promise s s' :
  resolvePromise tc varPos promise s = Ok false s' -> variablesData s' = variablesData s.
Proof.
  unfold resolvePromise. intros H.
  apply bind_Ok in H as (h & s0 & Hh & H). inversion Hh; subst; clear Hh.
  apply bind_Ok in H as (o & s1 & Ho & H). apply defined_Ok in Ho as [_ ->].
  destruct o; try discriminate H.
  apply bind_Ok in H as (resolvedType & s2 & Hget & H).
  apply (framed_keeps_variablesData _ (framed_getCType tc associatedNode)) in Hget.
  destruct (not_nullish resolvedType).
  - repeat (apply bind_Ok in H as (? & ? & _ & H)). inversion H.
  - inversion H; subst. exact Hget.
Qed.

Lemma anyOf_quiet {A} (body : A -> M bool) l :
  (forall x s s', body x s = Ok false s' -> variablesData s' = variablesData s) ->
  forall s s', anyOf body l s = Ok false s' -> variablesData s' = variablesData s.
Proof.
  intros Hb. induction l as [|x l IH]; intros s s' H; cbn [anyOf] in H.
  - inversion H. reflexivity.
  - apply bind_Ok in H as (b & s1 & Hx & H).
    apply bind_Ok in H as (b' & s2 & Hl & H). inversion H; subst.
    destruct b; [discriminate|]. destruct b'; [discriminate|].
    rewrite (IH _ _ Hl). apply Hb with x. exact Hx.
Qed.

Lemma tryResolvePromises_quiet tc varPos s s' :
  tryResolvePromises tc varPos s = Ok false s' ->
  variablesData s' = variablesData s /\ variables s' = variables s.
Proof.
  intros H. split; [|exact (tryResolvePromises_keeps_variables tc varPos s false s' H)].
  unfold tryResolvePromises in H.
  apply bind_Ok in H as (fromCalls & s1 & Hcalls & H).
  apply bind_Ok in H as (returns & s2 & Hr & H). inversion Hr; subst; clear Hr.
  apply bind_Ok in H as (fromReturns & s3 & Hreturns & H).
  apply bind_Ok in H as (vd & s4 & Hvd & H).
  unfold variableData in Hvd. apply bind_Ok in Hvd as (x & s5 & Hx & Hvd).
  inversion Hx; subst; clear Hx. apply defined_Ok in Hvd as [_ ->].
  apply bind_Ok in H as (h & s6 & Hh & H). inversion Hh; subst; clear Hh.
  apply bind_Ok in H as (fromPromises & s7 & Hpromises & H). inversion H; subst.
  destruct fromCalls; [discriminate|]. destruct fromReturns; [discriminate|].
  destruct fromPromises; [discriminate|].
  rewrite (anyOf_quiet _ _ (resolvePromise_quiet tc varPos) _ _ Hpromises).
  assert (Hret : variablesData s6 = variablesData s2).
  { refine (respects_anyOf (fun s s' => variablesData s' = variablesData s)
              (resolveReturn tc) _ _ _ _ _ _ _ Hreturns).
    - reflexivity.
    - congruence.
    - intros f. apply resolveReturn_keeps_variablesData. }
  rewrite Hret. apply resolveParameter_quiet with tc varPos. exact Hcalls.
Qed.

Lemma resolvePass_true tc ks : forall s b s',
  resolvePass tc true ks s = Ok b s' -> b = true.
Proof.
  induction ks as [|k ks IH]; intros s b s' H; cbn [resolvePass] in H.
  - inversion H. reflexivity.
  - apply bind_Ok in H as ([] & s1 & _ & H).
    apply bind_Ok in H as (some & s2 & Hsome & H). inversion Hsome; subst.
    apply IH in H. exact H.
Qed.

(** A pass that resolves nothing leaves the evidence as it is, and leaves
    every variable it visits with the type its evidence gives. *)
Lemma resolvePass_quiet tc ks : forall some s s',
  resolvePass tc some ks s = Ok false s' ->
  variablesData s' = variablesData s
  /\ Js.keys (variables s') = Js.keys (variables s)
  /\ (forall k, ~ In k ks -> Js.get k (variables s') = Js.get k (variables s))
  /\ (forall k, In k ks ->
        exists vi vd,
          Js.get k (variables s') = Some vi
          /\ Js.get k (variablesData s') = Some vd
          /\ typeAgrees vi vd).
Proof.
  induction ks as [|k0 ks IH]; intros some s s' H; cbn [resolvePass] in H.
  - inversion H; subst. repeat split; auto. intros k [].
  - apply bind_Ok in H as ([] & s1 & Hfin & H).
    apply bind_Ok in H as (some' & s2 & Hsome & H).
    destruct some'; [apply resolvePass_true in H; discriminate|].
    destruct some; [inversion Hsome|].
    apply tryResolvePromises_quiet in Hsome as (Hd2 & Hv2).
    pose proof (finalizeVariable_besides k0 s tt s1 Hfin) as (Hd1 & Hk1 & Hg1).
    destruct (finalizeVariable_typeAgrees k0 s s1 Hfin) as (vi0 & vd0 & Hvi0 & Hvd0 & Hag0).
    destruct (IH _ _ _ H) as (Hd & Hk & Hg & Hin).
    split; [congruence|]. split; [congruence|]. split.
    + intros k Hnot. rewrite Hg by (intros Hk'; apply Hnot; right; exact Hk').
      rewrite Hv2. apply Hg1. intros ->. apply Hnot. left. reflexivity.
    + intros k Hk'. destruct (in_dec N.eq_dec k ks) as [Hks|Hks]; [apply Hin, Hks|].
      destruct Hk' as [<-|Hk']; [|contradiction].
      exists vi0, vd0. rewrite (Hg k0 Hks), Hv2, Hd, Hd2. auto.
Qed.

Lemma resolver_last_pass tc fuel : forall s s',
  resolvePromisesAndFinalizeTypes tc fuel s = Some (Ok tt s') ->
  exists s0, resolvePass tc false (Js.keys (variables s0)) s0 = Ok false s'.
Proof.
  induction fuel as [|fuel IH]; intros s s' H; cbn [resolvePromisesAndFinalizeTypes] in H;
    [discriminate|].
  destruct (resolvePass tc false (Js.keys (variables s)) s) as [[|] s1|e] eqn:Hpass;
    try discriminate.
  - apply IH in H. exact H.
  - injection H as <-. exists s. exact Hpass.
Qed.

(** X13: when the resolver returns, the type of every variable agrees with
    the evidence the returned state holds for it: it is the candidate when
    the evidence has exactly one, the opaque pointer when it has none, and
    the universal type, with [requiresAllocation] set, when it has
    several. *)
Theorem resolver_types_agree tc fuel s s' k vi :
  resolvePromisesAndFinalizeTypes tc fuel s = Some (Ok tt s') ->
  Js.get k (variables s') = Some vi ->
  exists vd, Js.get k (variablesData s') = Some vd /\ typeAgrees vi vd.
Proof.
  intros Hrun Hvi. destruct (resolver_last_pass tc fuel s s' Hrun) as (s0 & Hpass).
  destruct (resolvePass_quiet tc _ _ _ _ Hpass) as (_ & Hkeys & _ & Hin).
  destruct (Hin k) as (vi' & vd & Hvi' & Hvd & Hag).
  - rewrite <- Hkeys. eapply get_Some_keys. exact Hvi.
  - rewrite Hvi in Hvi'. injection Hvi' as <-. exists vd. auto.
Qed.

(** X10: over a run of the engine, from any state, no object of the heap is
    removed or changes class: an array keeps its capacity, stays dynamic
    once it is, and keeps its element type unless that was the universal
    fallback; a struct keeps its name and the names of its properties; a
    dict is not changed; a promise keeps its node and stays resolved once
    it is. *)
Theorem engine_objects_evolve tc fuel sources s s' l o :
  figureOutVariablesAndTypes tc fuel sources s = Some (Ok tt s') ->
  heap s !! l = Some o ->
  exists o', heap s' !! l = Some o' /\ objectEvolves o o'.
Proof.
  intros Hrun. apply (evolves_heap _ _ (evolves_figureOutVariablesAndTypes _ _ _ _ _ Hrun)).
Qed.

Lemma engine_objects_evolve_witness :
  exists o',
    heap Example.programResolved !! 0%nat = Some o'
    /\ objectEvolves
         (TypePromise false None true (Example.ident 32 "p") (VBool false)) o'.
Proof.
  apply (engine_objects_evolve Example.checkerF 3 [] Example.programCollected
           Example.programResolved 0%nat); vm_compute; reflexivity.
Defined.

(** X11: over a run of the engine, from any state, a variable that has an
    entry keeps it, with its name and its declaration; its references are
    only added to, and its [requiresAllocation] is never cleared. *)
Theorem engine_variables_evolve tc fuel sources s s' k vi :
  figureOutVariablesAndTypes tc fuel sources s = Some (Ok tt s') ->
  Js.get k (variables s) = Some vi ->
  exists vi', Js.get k (variables s') = Some vi' /\ infoEvolves vi vi'.
Proof.
  intros Hrun.
  apply (evolves_variables _ _ (evolves_figureOutVariablesAndTypes _ _ _ _ _ Hrun)).
Qed.

Lemma engine_variables_evolve_witness :
  exists vi',
    Js.get 18%N (variables Example.programResolved) = Some vi'
    /\ infoEvolves
         (mkVariableInfo "a" VUndef [Example.ident 18 "a"; Example.ident 26 "a"]
            (Some Example.declA) false) vi'.
Proof.
  apply (engine_variables_evolve Example.checkerF 3 [] Example.programCollected
           Example.programResolved 18%N); vm_compute; reflexivity.
Defined.

(** X12: a run of the engine, from any state, removes no entry from a
    table (the evidence of the variables, the registered structs, the
    evidence of the calls and of the returns, the return types, the
    prototypes, the types of the literals) and leaves the temporaries as
    they are. *)
Theorem engine_tables_grow tc fuel sources s s' :
  figureOutVariablesAndTypes tc fuel sources s = Some (Ok tt s') ->
  temporaryVariables s' = temporaryVariables s
  /\ keysKept (variablesData s) (variablesData s')
  /\ keysKept (userStructs s) (userStructs s')
  /\ keysKept (functionCallsData s) (functionCallsData s')
  /\ keysKept (functionReturnsData s) (functionReturnsData s')
  /\ keysKept (functionReturnTypes s) (functionReturnTypes s')
  /\ keysKept (functionPrototypes s) (functionPrototypes s')
  /\ keysKept (arrayLiteralsTypes s) (arrayLiteralsTypes s')
  /\ keysKept (objectLiteralsTypes s) (objectLiteralsTypes s').
Proof.
  intros Hrun. pose proof (evolves_figureOutVariablesAndTypes _ _ _ _ _ Hrun) as Hev.
  repeat split; apply Hev.
Qed.

Lemma engine_tables_grow_witness :
  keysKept (variablesData Example.programCollected)
    (variablesData Example.programResolved).
Proof.
  apply (engine_tables_grow Example.checkerF 3 [] Example.programCollected
           Example.programResolved).
  vm_compute. reflexivity.
Defined.

(** X14: a run of the engine keeps two invariants of the state: every
    variable that has an entry has its evidence, and every registered
    struct name refers to a struct of the heap.  Both hold initially, so
    both hold of every state the engine returns on a program. *)
Theorem engine_keeps_invariants tc fuel sources s s' :
  dataComplete s -> structsRegistered s ->
  figureOutVariablesAndTypes tc fuel sources s = Some (Ok tt s') ->
  dataComplete s' /\ structsRegistered s'.
Proof.
  intros Hc Hr Hrun. pose proof (evolves_figureOutVariablesAndTypes _ _ _ _ _ Hrun) as Hev.
  split; [eapply dataComplete_evolves|eapply structsRegistered_evolves]; eauto.
Qed.

Lemma engine_keeps_invariants_witness :
  dataComplete Example.programResolved /\ structsRegistered Example.programResolved.
Proof.
  apply (engine_keeps_invariants Example.checkerF 3 [Example.program] newTypeHelper).
  - intros k [vi Hk]. discriminate Hk.
  - intros nm l Hl. discriminate Hl.
  - vm_compute. reflexivity.
Defined.

Lemma resolver_types_agree_witness :
  exists vd,
    Js.get 18%N (variablesData Example.programResolved) = Some vd
    /\ typeAgrees
         (mkVariableInfo "a" (VRef 1) [Example.ident 18 "a"; Example.ident 26 "a"]
            (Some Example.declA) false) vd.
Proof.
  apply (resolver_types_agree Example.checkerF 3 Example.programCollected
           Example.programResolved 18%N); vm_compute; reflexivity.
Defined.

(** ** What the engine returns *)

Lemma filterM_stateless {A} (p : A -> M bool) (l : list A) s :
  (forall x, In x l -> exists b, p x s = Ok b s) ->
  exists r, filterM p l s = Ok r s
            /\ forall x, In x r <-> In x l /\ p x s = Ok true s.
Proof.
  induction l as [|x l IH]; intros Hp; cbn [filterM].
  - exists []. split; [reflexivity|]. intros x. cbn. tauto.
  - destruct (Hp x (or_introl eq_refl)) as [b Hb].
    destruct IH as (r & Hr & Hin); [intros y Hy; apply Hp; right; exact Hy|].
    exists (if b then x :: r else r). split.
    + unfold bind. rewrite Hb, Hr. reflexivity.
    + intros y. destruct b; cbn [In]; rewrite ?Hin; split.
      * intros [<-|[Hy Hpy]]; auto.
      * intros [[<-|Hy] Hpy]; auto.
      * intros [Hy Hpy]. auto.
      * intros [[<-|Hy] Hpy]; [congruence|auto].
Qed.

Lemma mapM_stateless {A B} (f : A -> M B) (l : list A) s :
  (forall x, In x l -> exists y, f x s = Ok y s) ->
  exists r, mapM f l s = Ok r s
            /\ forall y, In y r <-> exists x, In x l /\ f x s = Ok y s.
Proof.
  induction l as [|x l IH]; intros Hf; cbn [mapM].
  - exists []. split; [reflexivity|]. intros y. cbn. split; [tauto|intros (x & [] & _)].
  - destruct (Hf x (or_introl eq_refl)) as [y Hy].
    destruct IH as (r & Hr & Hin); [intros z Hz; apply Hf; right; exact Hz|].
    exists (y :: r). split.
    + unfold bind. rewrite Hy, Hr. reflexivity.
    + intros z. cbn [In]. rewrite Hin. split.
      * intros [<-|(x' & Hx' & Hz)]; [exists x; auto|exists x'; auto].
      * intros (x' & [<-|Hx'] & Hz); [left; congruence|right; exists x'; auto].
Qed.

Lemma keys_get_Some {K V} `{Key K} (k : K) (o : list (K * V)) :
  In k (Js.keys o) -> is_Some (Js.get k o).
Proof.
  induction o as [|[k1 v1] o IH]; cbn [Js.keys map In fst]; [tauto|].
  rewrite get_cons. destruct (decide (k = k1)); [eauto|].
  intros [Heq|Hin]; [congruence|apply IH, Hin].
Qed.

Lemma structProperties_eq k s l nm ps :
  Js.get k (userStructs s) = Some l ->
  heap s !! l = Some (StructType nm ps) ->
  structProperties k s = Ok ps s.
Proof.
  intros Hk Hl. unfold structProperties, bind, gets. rewrite Hk. cbn [defined ret].
  rewrite Hl. reflexivity.
Qed.

Lemma structProperties_Ok k s ps s' :
  structProperties k s = Ok ps s' ->
  s' = s /\ exists l nm, Js.get k (userStructs s) = Some l
                         /\ heap s !! l = Some (StructType nm ps).
Proof.
  unfold structProperties, bind, gets.
  destruct (Js.get k (userStructs s)) as [l|]; [|discriminate]. cbn [defined ret].
  destruct (heap s !! l) as [[]|] eqn:Hl; try discriminate.
  cbn [defined ret]. intros [= <- <-]. split; [reflexivity|]. eauto.
Qed.

(** X15: when every registered name refers to a struct, the structs the
    engine reports are exactly the registered structs that have a property,
    each under its name with its properties listed in order; a registered
    struct without properties is never reported, and the state is left as
    it is. *)
Theorem reportedStructs_spec s :
  structsRegistered s ->
  exists r,
    reportedStructs s = Ok r s
    /\ forall nm listed,
         In (nm, listed) r <->
         exists l snm ps,
           Js.get nm (userStructs s) = Some l
           /\ heap s !! l = Some (StructType snm ps)
           /\ ps <> []
           /\ listed = map (fun pk => (pk, lookup_value pk ps)) (Js.keys ps).
Proof.
  intros Hreg.
  assert (Hprops : forall k, In k (Js.keys (userStructs s)) ->
            exists l nm ps, Js.get k (userStructs s) = Some l
                            /\ heap s !! l = Some (StructType nm ps)).
  { intros k Hk. destruct (keys_get_Some k _ Hk) as [l Hl]. exists l.
    pose proof (Hreg k l Hl) as Hs. unfold instanceof_StructType, object_at in Hs.
    destruct (heap s !! l) as [[]|]; try discriminate. eauto. }
  destruct (filterM_stateless
              (fun k => properties <- structProperties k ;;
                        ret (0 <? length (Js.keys properties))%nat)
              (Js.keys (userStructs s)) s) as (names & Hnames & Hin).
  { intros k Hk. destruct (Hprops k Hk) as (l & nm & ps & Hl & Hh).
    eexists. unfold bind. rewrite (structProperties_eq _ _ _ _ _ Hl Hh). reflexivity. }
  destruct (mapM_stateless
              (fun k => properties <- structProperties k ;;
                        ret (k, map (fun pk => (pk, lookup_value pk properties))
                                  (Js.keys properties)))
              names s) as (r & Hr & Hinr).
  { intros k Hk. apply Hin in Hk as [Hk _].
    destruct (Hprops k Hk) as (l & nm & ps & Hl & Hh).
    eexists. unfold bind. rewrite (structProperties_eq _ _ _ _ _ Hl Hh). reflexivity. }
  exists r. split.
  - unfold reportedStructs, bind at 1, gets. unfold bind at 1. rewrite Hnames. exact Hr.
  - intros nm listed. rewrite Hinr. split.
    + intros (k & Hk & Hrun). apply Hin in Hk as [Hk Hfilter].
      destruct (Hprops k Hk) as (l & snm & ps & Hl & Hh).
      unfold bind in Hrun, Hfilter.
      rewrite (structProperties_eq _ _ _ _ _ Hl Hh) in Hrun, Hfilter.
      injection Hrun as <- <-. injection Hfilter as Hlen.
      exists l, snm, ps. repeat split; auto.
      intros ->. discriminate Hlen.
    + intros (l & snm & ps & Hl & Hh & Hne & ->). exists nm. split.
      * apply Hin. split; [eapply get_Some_keys; exact Hl|].
        unfold bind. rewrite (structProperties_eq _ _ _ _ _ Hl Hh).
        destruct ps; [contradiction|reflexivity].
      * unfold bind. rewrite (structProperties_eq _ _ _ _ _ Hl Hh). reflexivity.
Qed.

Lemma reportedStructs_spec_witness :
  exists r,
    reportedStructs Example.pointOfA = Ok r Example.pointOfA
    /\ forall nm listed,
         In (nm, listed) r <->
         exists l snm ps,
           Js.get nm (userStructs Example.pointOfA) = Some l
           /\ heap Example.pointOfA !! l = Some (StructType snm ps)
           /\ ps <> []
           /\ listed = map (fun pk => (pk, lookup_value pk ps)) (Js.keys ps).
Proof.
  apply (reportedStructs_spec Example.pointOfA).
  intros nm l Hl. cbn in Hl. unfold Js.get in Hl. cbn in Hl.
  destruct (decide (nm = "a_t")); [|discriminate]. injection Hl as <-. reflexivity.
Defined.

(** ** The variables the collection registers *)

Lemma referenced_evolves node symbol s s' :
  evolves s s' -> referenced node symbol s -> referenced node symbol s'.
Proof.
  intros Hev (vi & Hvi & Hin).
  destruct (evolves_variables _ _ Hev _ _ Hvi) as (vi' & Hvi' & _ & _ & [more Hrefs] & _).
  exists vi'. split; [exact Hvi'|]. rewrite Hrefs. apply in_or_app. left. exact Hin.
Qed.

(** The visit of an identifier that has a symbol: the entry of the variable
    after the reference is added, and what the rest of the visit does to
    it. *)
Lemma visitIdentifier_run tc ancestors node symbol s s' :
  ts.getSymbolAtLocation tc node = Some symbol ->
  visitIdentifier tc ancestors node s = Ok tt s' ->
  let varPos := ts.pos (ts.valueDeclaration symbol) in
  let registered :=
    match Js.get varPos (variables s) with
    | Some vi => vi
    | None =>
        mkVariableInfo (ts.getText node) VUndef []
          (head (ts.symbolDeclarations symbol)) false
    end in
  exists vi',
    Js.get varPos (variables s') = Some vi'
    /\ infoEvolves (add_reference node registered) vi'.
Proof.
  intros Hsym H. unfold visitIdentifier in H. rewrite Hsym in H. cbv zeta.
  set (varPos := ts.pos (ts.valueDeclaration symbol)) in *.
  apply bind_Ok in H as (known & s0 & Hknown & H). inversion Hknown; subst; clear Hknown.
  apply bind_Ok in H as ([] & s1 & Hcreate & H).
  apply bind_Ok in H as (vd & s2 & Hvd & H).
  unfold variableData in Hvd. apply bind_Ok in Hvd as (x & s3 & Hx & Hvd).
  inversion Hx; subst; clear Hx. apply defined_Ok in Hvd as [_ ->].
  apply bind_Ok in H as ([] & s4 & Hadd & H).
  apply updateVariableInfo_get in Hadd as (vi1 & Hvi1 & Hvi4).
  assert (Hreg : vi1 = match Js.get varPos (variables s0) with
                       | Some vi => vi
                       | None =>
                           mkVariableInfo (ts.getText node) VUndef []
                             (head (ts.symbolDeclarations symbol)) false
                       end).
  { destruct (Js.get varPos (variables s0)) as [vi|] eqn:Hget.
    - inversion Hcreate; subst. congruence.
    - unfold bind, modify in Hcreate. inversion Hcreate; subst. cbn in Hvi1.
      rewrite get_set_eq in Hvi1. congruence. }
  rewrite <- Hreg.
  cbv beta in H.
  match type of H with
  | ?m s4 = _ => assert (Hrest : respects evolves m) by evolves_auto
  end.
  apply (evolves_variables _ _ (Hrest _ _ _ H)). exact Hvi4.
Qed.

(** X16: the visit of an identifier that has a symbol leaves the variable
    of the symbol with an entry that lists the identifier among its
    references.  An entry that was there keeps its name and its
    declaration; a new one gets the text of the identifier as its name and
    the first declaration of the symbol as its declaration. *)
Theorem visitIdentifier_registers tc ancestors node symbol s s' :
  ts.getSymbolAtLocation tc node = Some symbol ->
  visitIdentifier tc ancestors node s = Ok tt s' ->
  let varPos := ts.pos (ts.valueDeclaration symbol) in
  exists vi',
    Js.get varPos (variables s') = Some vi'
    /\ In node (references vi')
    /\ match Js.get varPos (variables s) with
       | Some vi =>
           name vi' = name vi /\ declaration vi' = declaration vi
           /\ exists more, references vi' = references vi ++ node :: more
       | None =>
           name vi' = ts.getText node
           /\ declaration vi' = head (ts.symbolDeclarations symbol)
           /\ exists more, references vi' = node :: more
       end.
Proof.
  intros Hsym H. cbv zeta.
  pose proof (visitIdentifier_run tc ancestors node symbol s s' Hsym H) as Hrun.
  cbv zeta in Hrun. destruct Hrun as (vi' & Hvi' & Hn & Hd & [more Hrefs] & _).
  exists vi'. split; [exact Hvi'|].
  cbn [add_reference name declaration references] in Hn, Hd, Hrefs.
  split.
  - rewrite Hrefs. apply in_or_app. left. apply in_or_app. right. left. reflexivity.
  - destruct (Js.get (ts.pos (ts.valueDeclaration symbol)) (variables s)) as [vi|].
    + split; [exact Hn|]. split; [exact Hd|]. exists more.
      rewrite Hrefs, <- app_assoc. reflexivity.
    + split; [exact Hn|]. split; [exact Hd|]. exists more. exact Hrefs.
Qed.

Lemma visit_referenced tc ancestors node symbol s s' :
  ts.is_kind ts.SyntaxKind.Identifier node = true ->
  ts.getSymbolAtLocation tc node = Some symbol ->
  visit tc ancestors node s = Ok tt s' ->
  referenced node symbol s'.
Proof.
  intros Hkind Hsym H. unfold visit in H.
  unfold ts.is_kind in Hkind. destruct (ts.kind node); try discriminate Hkind.
  pose proof (visitIdentifier_run tc ancestors node symbol s s' Hsym H) as Hrun.
  cbv zeta in Hrun. destruct Hrun as (vi' & Hvi' & _ & _ & [more Hrefs] & _).
  exists vi'. split; [exact Hvi'|]. rewrite Hrefs. cbn [add_reference references].
  apply in_or_app. left. apply in_or_app. right. left. reflexivity.
Qed.

Lemma findVariablesRecursively_referenced tc root :
  forall ancestors s s' node symbol,
    findVariablesRecursively tc ancestors root s = Ok tt s' ->
    In node (subnodes root) ->
    ts.is_kind ts.SyntaxKind.Identifier node = true ->
    ts.getSymbolAtLocation tc node = Some symbol ->
    referenced node symbol s'.
Proof.
  induction root as [k p t ch IH] using Node_induction.
  intros ancestors s s' node symbol H Hin Hkind Hsym.
  cbn [findVariablesRecursively] in H.
  apply bind_Ok in H as ([] & s1 & Hvisit & Hrest).
  cbn [subnodes] in Hin.
  revert Hrest. generalize (ts.mkNode k p t ch :: ancestors). intros path Hrest.
  assert (Hroot : node = ts.mkNode k p t ch -> referenced node symbol s1).
  { intros ->. eapply visit_referenced; eauto. }
  assert (Hchildren :
    forall s1 s',
      (fix each (cs : list ts.Node) : M unit :=
         match cs with
         | [] => ret tt
         | c :: cs' => findVariablesRecursively tc path c ;; each cs'
         end) ch s1 = Ok tt s' ->
      evolves s1 s'
      /\ (In node (flat_map subnodes ch) -> referenced node symbol s')).
  { clear Hrest Hroot Hin Hvisit s s1 s'.
    induction IH as [|c cs Hc _ IHcs]; intros s1 s' Hrun.
    - inversion Hrun. split; [apply evolves_refl|]. intros [].
    - apply bind_Ok in Hrun as ([] & s2 & Hfirst & Hrun).
      destruct (IHcs _ _ Hrun) as (Hev & Hlater).
      split.
      + eapply evolves_trans; [|exact Hev].
        eapply evolves_findVariablesRecursively. exact Hfirst.
      + cbn [flat_map]. intros Hin. apply in_app_or in Hin as [Hin|Hin].
        * eapply referenced_evolves; [exact Hev|].
          eapply Hc; eauto.
        * apply Hlater, Hin. }
  destruct (Hchildren _ _ Hrest) as (Hev & Hbelow).
  destruct Hin as [Heq|Hin].
  - eapply referenced_evolves; [exact Hev|]. apply Hroot. symmetry. exact Heq.
  - apply Hbelow, Hin.
Qed.

(** X17: after the collection over a tree, every identifier of the tree
    that has a symbol is listed among the references of the variable of its
    symbol. *)
Theorem collection_references_complete tc ancestors root s s' node symbol :
  findVariablesRecursively tc ancestors root s = Ok tt s' ->
  In node (subnodes root) ->
  ts.is_kind ts.SyntaxKind.Identifier node = true ->
  ts.getSymbolAtLocation tc node = Some symbol ->
  referenced node symbol s'.
Proof. apply findVariablesRecursively_referenced. Qed.

Lemma collection_references_complete_witness :
  exists vi',
    Js.get 18%N (variables Example.programCollected) = Some vi'
    /\ In (Example.ident 26 "a") (references vi').
Proof.
  destruct (collection_references_complete Example.checkerF [] Example.program
              newTypeHelper Example.programCollected (Example.ident 26 "a")
              (ts.mkSymbol "a" Example.declA [Example.declA]))
    as (vi & Hvi & Hin); [vm_compute; reflexivity|vm_compute; tauto|reflexivity
                          |reflexivity|].
  exists vi. auto.
Defined.

Lemma visitIdentifier_registers_witness :
  exists vi',
    Js.get 18%N
      (variables
         (with_variablesData (Js.set 18%N
               (mkVariableData (Some Example.anyType) [] [] [] None None false false false))
            (with_variables
               (Js.set 18%N
                  (mkVariableInfo "a" VUndef [Example.ident 26 "a"]
                     (Some Example.declA) false))
               newTypeHelper)))
    = Some vi'
    /\ In (Example.ident 26 "a") (references vi').
Proof.
  destruct (visitIdentifier_registers Example.checkerF [] (Example.ident 26 "a")
              (ts.mkSymbol "a" Example.declA [Example.declA]) newTypeHelper
              (with_variablesData (Js.set 18%N
               (mkVariableData (Some Example.anyType) [] [] [] None None false false false))
                 (with_variables
                    (Js.set 18%N
                       (mkVariableInfo "a" VUndef [Example.ident 26 "a"]
                          (Some Example.declA) false))
                    newTypeHelper)))
    as (vi & Hvi & Hin & _); [reflexivity|vm_compute; reflexivity|].
  exists vi. auto.
Defined.

(** ** What the conversion of a type returns *)

Lemma evolves_propertiesInfo props : forall info, respects evolves (propertiesInfo props info).
Proof.
  induction props as [|[[prop t1] e] props IH]; intros info; cbn [propertiesInfo].
  - evolves_auto.
  - evolves_step; [evolves_auto|]. evolves_step; [|apply IH].
    evolves_auto; apply evolves_determineArrayType_with; auto with evolves.
Qed.

Lemma registerStructure_result nm info s v s' :
  structsRegistered s ->
  registerStructure nm info s = Ok v s' ->
  instanceof_StructType (heap s') v = true.
Proof.
  intros Hreg H. unfold registerStructure, getStructureBodyString in H.
  apply bind_Ok in H as (code & s0 & Hcode & H).
  apply bind_Ok in Hcode as (h & s1 & Hh & Hcode). inversion Hh; subst; clear Hh.
  apply defined_Ok in Hcode as [_ ->].
  apply bind_Ok in H as (found & s2 & Hfound & H).
  assert (Hs2 : s2 = s1
                /\ (forall nm', found = Some nm' -> is_Some (Js.get nm' (userStructs s1)))).
  { destruct (0 <? length (Js.keys info))%nat.
    - unfold bind, gets in Hfound. rewrite findStructure_eq in Hfound.
      destruct (firstStructure (heap s1) code (userStructs s1)) as [r|] eqn:Hfirst;
        [|discriminate].
      injection Hfound as <- <-. split; [reflexivity|].
      intros nm' ->. eapply firstStructure_Some_get. exact Hfirst.
    - inversion Hfound; subst. split; [reflexivity|]. discriminate. }
  destruct Hs2 as [-> Hget]. destruct found as [nm'|].
  - unfold bind, gets, ret in H. injection H as <- <-.
    destruct (Hget nm' eq_refl) as [l Hl]. rewrite Hl. apply Hreg with nm'. exact Hl.
  - unfold bind, new, modify, ret in H. injection H as <- <-.
    unfold instanceof_StructType, object_at. cbn.
    rewrite lookup_app_r by lia. rewrite Nat.sub_diag. reflexivity.
Qed.

Lemma generateStructure_result tsType ident s v s' :
  structsRegistered s ->
  generateStructure tsType ident s = Ok v s' ->
  instanceof_StructType (heap s') v = true.
Proof.
  intros Hreg H. rewrite generateStructure_eq in H.
  apply bind_Ok in H as (us & s0 & Hus & H). inversion Hus; subst; clear Hus.
  apply bind_Ok in H as (info & s1 & Hinfo & H).
  eapply registerStructure_result; [|exact H].
  eapply structsRegistered_evolves; [|exact Hreg].
  eapply evolves_propertiesInfo. exact Hinfo.
Qed.

(** X18: when every registered name refers to a struct, [convertType]
    returns either one of the six type strings, and then it changes
    nothing, or a reference to a struct of the heap: never [null],
    [undefined], an array, a dict or a promise. *)
Theorem convertType_result tsType ident s v s' :
  structsRegistered s ->
  convertType tsType ident s = Ok v s' ->
  (In v (map VStr ["void"; StringVarType; NumberVarType; BooleanVarType;
                   PointerVarType; UniversalVarType])
   /\ s' = s)
  \/ instanceof_StructType (heap s') v = true.
Proof.
  intros Hreg. unfold convertType, convertType_with.
  destruct tsType as [t|]; [|intros [= <- <-]; left; cbn; auto].
  destruct (ts.flags t =? ts.TypeFlags.Void)%Z; [intros [= <- <-]; left; cbn; auto 10|].
  destruct (ts.flags t =? ts.TypeFlags.String)%Z; [intros [= <- <-]; left; cbn; auto 10|].
  destruct (ts.flags t =? ts.TypeFlags.Number)%Z; [intros [= <- <-]; left; cbn; auto 10|].
  destruct (ts.flags t =? ts.TypeFlags.Boolean)%Z; [intros [= <- <-]; left; cbn; auto 10|].
  match goal with
  | |- context [if ?c then generateStructure _ _ else _] => destruct c
  end.
  - intros H. right. eapply generateStructure_result; eauto.
  - destruct (ts.flags t =? ts.TypeFlags.Any)%Z; intros [= <- <-]; left; cbn; auto 10.
Qed.

Lemma convertType_result_witness :
  instanceof_StructType (heap Example.pointRegistered) (VRef 0) = true.
Proof.
  destruct (convertType_result (Some Example.pointType) None newTypeHelper (VRef 0)
              Example.pointRegistered) as [[Hin _]|H].
  - intros nm l Hl. discriminate Hl.
  - vm_compute. reflexivity.
  - exfalso. cbn in Hin. intuition discriminate.
  - exact H.
Defined.

(** ** The return type of a function *)

Lemma framed_keeps_functionReturnTypes {A} (m : M A) :
  framed m -> respects (fun s s' => functionReturnTypes s' = functionReturnTypes s) m.
Proof. intros Hm s a s' Hrun. apply (Hm s a s' Hrun). Qed.

Lemma evidenceType_keeps_functionReturnTypes tc type :
  respects (fun s s' => functionReturnTypes s' = functionReturnTypes s)
    (evidenceType tc type).
Proof.
  unfold evidenceType.
  repeat kept_step functionReturnTypes @framed_keeps_functionReturnTypes.
Qed.

(** X19: one iteration of the loop of [tryResolvePromises] over the return
    evidence touches the return type of its function only.  It leaves the
    function with a return type; a return type that is there and is not
    the opaque pointer is never changed, and nothing is then reported as
    resolved; when something is reported as resolved, the return type has
    become a type other than the opaque pointer. *)
Theorem resolveReturn_upgrades_once tc funcDeclPos s resolved s' :
  resolveReturn tc funcDeclPos s = Ok resolved s' ->
  let old := lookup_value funcDeclPos (functionReturnTypes s) in
  let new := lookup_value funcDeclPos (functionReturnTypes s') in
  (forall g, g <> funcDeclPos ->
     Js.get g (functionReturnTypes s') = Js.get g (functionReturnTypes s))
  /\ truthy new = true
  /\ (truthy old = true -> eq_str old PointerVarType = false ->
      new = old /\ resolved = false)
  /\ (resolved = true -> eq_str new PointerVarType = false).
Proof.
  intros H. cbv zeta. unfold resolveReturn in H.
  apply bind_Ok in H as (type & s0 & Htype & H). inversion Htype; subst; clear Htype.
  apply bind_Ok in H as (finalType & s1 & Hev & H).
  apply evidenceType_keeps_functionReturnTypes in Hev.
  apply bind_Ok in H as (known & s2 & Hknown & H). inversion Hknown; subst; clear Hknown.
  rewrite <- Hev.
  set (old := lookup_value funcDeclPos (functionReturnTypes s2)) in *.
  apply bind_Ok in H as ([] & s3 & Hdefault & H).
  apply bind_Ok in H as (known & s4 & Hknown & H). inversion Hknown; subst; clear Hknown.
  set (known := lookup_value funcDeclPos (functionReturnTypes s4)) in *.
  assert (Hs4 : (forall g, g <> funcDeclPos ->
                   Js.get g (functionReturnTypes s4) = Js.get g (functionReturnTypes s2))
                /\ known = if truthy old then old else VStr PointerVarType).
  { subst known. destruct (truthy old) eqn:Hold.
    - inversion Hdefault; subst. auto.
    - inversion Hdefault; subst. cbn. split.
      + intros g Hg. apply get_set_ne. congruence.
      + unfold lookup_value. rewrite get_set_eq. reflexivity. }
  destruct Hs4 as [Hothers Hk].
  destruct (truthy finalType && negb (eq_str finalType PointerVarType)
            && eq_str known PointerVarType) eqn:Hcond.
  - unfold bind, modify, ret in H. injection H as <- <-.
    apply andb_prop in Hcond as [Hcond Hkp]. apply andb_prop in Hcond as [Hft Hnp].
    apply negb_true_iff in Hnp.
    cbn [functionReturnTypes with_functionReturnTypes]. unfold lookup_value.
    rewrite get_set_eq. split.
    + intros g Hg. rewrite get_set_ne by congruence. apply Hothers, Hg.
    + split; [exact Hft|]. split; [|intros _; exact Hnp].
      intros Hold Hnot. rewrite Hold in Hk. rewrite Hk in Hkp. congruence.
  - inversion H; subst. fold known. split; [exact Hothers|]. split.
    + rewrite Hk. destruct (truthy old) eqn:Hold; [exact Hold|reflexivity].
    + split; [|discriminate]. intros Hold _. rewrite Hk, Hold. auto.
Qed.

Lemma resolveReturn_upgrades_once_witness :
  lookup_value (FuncScope 1) (functionReturnTypes
    (mkTypeHelper [] [] [] [] [] [(FuncScope 1, VStr NumberVarType)]
       [(FuncScope 1, VStr NumberVarType)] [] [] [] []))
  = VStr NumberVarType.
Proof.
  destruct (resolveReturn_upgrades_once Example.checker (FuncScope 1)
              (mkTypeHelper [] [] [] [] [] [(FuncScope 1, VStr NumberVarType)]
                 [(FuncScope 1, VStr NumberVarType)] [] [] [] [])
              false
              (mkTypeHelper [] [] [] [] [] [(FuncScope 1, VStr NumberVarType)]
                 [(FuncScope 1, VStr NumberVarType)] [] [] [] []))
    as (_ & _ & Hkeep & _); [vm_compute; reflexivity|].
  apply Hkeep; reflexivity.
Defined.

(** ** Writes through brackets *)

Lemma as_promise_None h v :
  instanceof_TypePromise h v = false -> as_promise h v = None.
Proof.
  unfold instanceof_TypePromise, as_promise, object_at.
  destruct v as [| | | |l]; try reflexivity.
  destruct (h !! l) as [[]|]; try reflexivity. discriminate.
Qed.

Lemma with_variablesData_twice f g s :
  with_variablesData f (with_variablesData g s) = with_variablesData (fun t => f (g t)) s.
Proof. reflexivity. Qed.

(** X20: a write [x["p"] = e] whose derived type is not a promise, for a
    name [p] that is not the name of a member of [Object.prototype],
    records the type as the added property [p] unless a type other than the
    universal fallback is already recorded for [p]: the first such type is
    kept.  Nothing else is changed. *)
Theorem stringKey_write_keeps_first varPos argument determinedType s vd :
  ts.is_kind ts.SyntaxKind.StringLiteral argument = true ->
  Js.prototypeMember (slice_1_m1 (ts.getText argument)) = false ->
  instanceof_TypePromise (heap s) determinedType = false ->
  Js.get varPos (variablesData s) = Some vd ->
  let propName := slice_1_m1 (ts.getText argument) in
  let old := lookup_value propName (addedProperties vd) in
  recordElementWrite varPos argument determinedType s
  = Ok tt
      (with_variablesData
         (Js.set varPos
            (set_addedProperties
               (Js.set propName
                  (if truthy old && negb (eq_str old UniversalVarType)
                   then old else determinedType))
               vd))
         s).
Proof.
  intros Hkind _ Hnp Hvd. cbv zeta. unfold recordElementWrite.
  unfold bind at 1. cbn [gets]. rewrite Hkind, (as_promise_None _ _ Hnp), Hnp.
  cbn [negb andb].
  unfold bind at 1. cbn [ret].
  rewrite (bind_eq _ _ _ _ _ (variableData_eq _ _ _ Hvd)).
  set (propName := slice_1_m1 (ts.getText argument)).
  set (old := lookup_value propName (addedProperties vd)).
  rewrite (bind_eq _ _ _ _ _ (updateVariableData_eq _ _ _ _ Hvd)).
  unfold or_else.
  destruct (truthy old) eqn:Hold; cbn [andb].
  - destruct (eq_str old UniversalVarType) eqn:Hu; cbn [negb].
    + erewrite updateVariableData_eq by (cbn; apply get_set_eq).
      rewrite with_variablesData_twice. f_equal.
      unfold with_variablesData. f_equal. rewrite set_set. f_equal.
      unfold set_addedProperties. cbn. f_equal. apply set_set.
    + reflexivity.
  - cbn [eq_str]. rewrite String.eqb_refl.
    erewrite updateVariableData_eq by (cbn; apply get_set_eq).
    rewrite with_variablesData_twice. f_equal.
    unfold with_variablesData. f_equal. rewrite set_set. f_equal.
    unfold set_addedProperties. cbn. f_equal. apply set_set.
Qed.

Lemma stringKey_write_keeps_first_witness :
  recordElementWrite 18 (ts.mkNode ts.SyntaxKind.StringLiteral 28 "'x'" [])
    (VStr StringVarType)
    (mkTypeHelper [] [(18%N, newVariableInfo)] []
       [(18%N, mkVariableData None [] [] [("x", VStr NumberVarType)] None None
                 false false false)]
       [] [] [] [] [] [] [])
  = Ok tt
      (mkTypeHelper [] [(18%N, newVariableInfo)] []
         [(18%N, mkVariableData None [] [] [("x", VStr NumberVarType)] None None
                   false false false)]
         [] [] [] [] [] [] []).
Proof.
  apply (stringKey_write_keeps_first 18
           (ts.mkNode ts.SyntaxKind.StringLiteral 28 "'x'" []) (VStr StringVarType)
           (mkTypeHelper [] [(18%N, newVariableInfo)] []
              [(18%N, mkVariableData None [] [] [("x", VStr NumberVarType)] None None
                        false false false)]
              [] [] [] [] [] [] [])
           (mkVariableData None [] [] [("x", VStr NumberVarType)] None None
              false false false)); reflexivity.
Defined.

Lemma instanceof_StructType_new_dict h t v :
  instanceof_StructType (h ++ [DictType t]) v = instanceof_StructType h v.
Proof.
  unfold instanceof_StructType, object_at. destruct v as [| | | |l]; try reflexivity.
  destruct (lt_eq_lt_dec l (length h)) as [[Hlt|Heq]|Hgt].
  - rewrite lookup_app_l by exact Hlt. reflexivity.
  - subst l. rewrite lookup_app_r by lia. rewrite Nat.sub_diag. cbn.
    rewrite lookup_ge_None_2 by lia. reflexivity.
  - rewrite !lookup_ge_None_2; [reflexivity|lia|rewrite length_app; cbn; lia].
Qed.

(** The loop of the dynamic-key case: a struct candidate is met only under
    a key that is still to come; every candidate is one that was there or
    a new dict of the written type. *)
Lemma replaceStructByDict_loop varPos determinedType keys :
  forall s s' vd0 vd,
    forEach (replaceStructByDict varPos determinedType) keys s = Ok tt s' ->
    Js.get varPos (variablesData s) = Some vd ->
    (forall key at_, Js.get key (assignmentTypes vd) = Some at_ ->
       instanceof_StructType (heap s) at_ = true -> In key keys) ->
    (forall key at_, Js.get key (assignmentTypes vd) = Some at_ ->
       Js.get key (assignmentTypes vd0) = Some at_
       \/ object_at (heap s) at_ = Some (DictType determinedType)) ->
    exists vd',
      Js.get varPos (variablesData s') = Some vd'
      /\ (forall key at_, Js.get key (assignmentTypes vd') = Some at_ ->
            instanceof_StructType (heap s') at_ = false)
      /\ (forall key at_, Js.get key (assignmentTypes vd') = Some at_ ->
            Js.get key (assignmentTypes vd0) = Some at_
            \/ object_at (heap s') at_ = Some (DictType determinedType)).
Proof.
  induction keys as [|k keys IH]; intros s s' vd0 vd Hrun Hvd Hstructs Horigin;
    cbn [forEach] in Hrun.
  - inversion Hrun; subst. exists vd. split; [exact Hvd|]. split; [|exact Horigin].
    intros key at_ Hget. destruct (instanceof_StructType (heap s') at_) eqn:Hs; [|reflexivity].
    destruct (Hstructs key at_ Hget Hs).
  - apply bind_Ok in Hrun as ([] & s1 & Hstep & Hrun).
    unfold replaceStructByDict in Hstep.
    rewrite (bind_eq _ _ _ _ _ (variableData_eq _ _ _ Hvd)) in Hstep.
    unfold bind at 1 in Hstep. cbn [gets] in Hstep.
    assert (Hquiet : s1 = s ->
              (forall at_, Js.get k (assignmentTypes vd) = Some at_ ->
                 instanceof_StructType (heap s) at_ = false) ->
              exists vd',
                Js.get varPos (variablesData s') = Some vd'
                /\ (forall key at_, Js.get key (assignmentTypes vd') = Some at_ ->
                      instanceof_StructType (heap s') at_ = false)
                /\ (forall key at_, Js.get key (assignmentTypes vd') = Some at_ ->
                      Js.get key (assignmentTypes vd0) = Some at_
                      \/ object_at (heap s') at_ = Some (DictType determinedType))).
    { intros -> Hk. apply (IH s s' vd0 vd Hrun Hvd); [|exact Horigin].
      intros key at_ Hget Hs. destruct (Hstructs key at_ Hget Hs) as [<-|Hin]; [|exact Hin].
      rewrite (Hk at_ Hget) in Hs. discriminate. }
    destruct (Js.get k (assignmentTypes vd)) as [at_|] eqn:Hk;
      [|inversion Hstep; subst; apply Hquiet; [reflexivity|discriminate]].
    destruct (instanceof_StructType (heap s) at_) eqn:Hstruct;
      [|inversion Hstep; subst; apply Hquiet; [reflexivity|];
        intros a [= <-]; exact Hstruct].
    clear Hquiet.
    rewrite (bind_eq _ _ _ _ _ (updateVariableData_eq _ _ _ _ Hvd)) in Hstep.
    unfold bind at 1 in Hstep. cbn [new] in Hstep.
    apply bind_Ok in Hstep as (key & s2 & Hkey & Hstep).
    unfold getTextM in Hkey. apply bind_Ok in Hkey as (h & s3 & Hh & Hkey).
    inversion Hh; subst; clear Hh. apply defined_Ok in Hkey as [_ ->].
    erewrite updateVariableData_eq in Hstep by (cbn; apply get_set_eq).
    injection Hstep as <-.
    eapply IH; [exact Hrun|cbn; apply get_set_eq| |].
    + cbn [assignmentTypes set_assignmentTypes heap with_heap with_variablesData].
      intros key' at' Hget Hs. rewrite instanceof_StructType_new_dict in Hs.
      destruct (decide (key = key')) as [->|Hne].
      * rewrite get_set_eq in Hget. injection Hget as <-.
        unfold instanceof_StructType, object_at in Hs.
        rewrite lookup_ge_None_2 in Hs by lia. discriminate.
      * rewrite get_set_ne in Hget by exact Hne.
        destruct (decide (k = key')) as [->|Hne'].
        -- rewrite get_delete_eq in Hget. discriminate.
        -- rewrite get_delete_ne in Hget by exact Hne'.
           destruct (Hstructs key' at' Hget Hs) as [Heq|Hin]; [congruence|exact Hin].
    + cbn [assignmentTypes set_assignmentTypes heap with_heap with_variablesData].
      intros key' at' Hget.
      destruct (decide (key = key')) as [->|Hne].
      * rewrite get_set_eq in Hget. injection Hget as <-. right.
        unfold object_at. rewrite lookup_app_r by lia. rewrite Nat.sub_diag. reflexivity.
      * rewrite get_set_ne in Hget by exact Hne.
        destruct (decide (k = key')) as [->|Hne'].
        -- rewrite get_delete_eq in Hget. discriminate.
        -- rewrite get_delete_ne in Hget by exact Hne'.
           destruct (Horigin key' at' Hget) as [Hold|Hdict]; [left; exact Hold|right].
           unfold object_at in *. destruct at' as [| | | |l]; try discriminate.
           apply lookup_app_l_Some. exact Hdict.
Qed.

(** X21: a write [x[k] = e] whose key is neither a string literal nor a
    numeric literal and whose derived type is not a promise marks the
    variable [isDict] and leaves it without struct candidate: every
    candidate of its evidence is one that was there, under the same key, or
    a new dict of the derived type. *)
Theorem dynamicKey_write_replaces_structs varPos argument determinedType s s' vd :
  ts.is_kind ts.SyntaxKind.StringLiteral argument = false ->
  ts.is_kind ts.SyntaxKind.NumericLiteral argument = false ->
  instanceof_TypePromise (heap s) determinedType = false ->
  Js.get varPos (variablesData s) = Some vd ->
  recordElementWrite varPos argument determinedType s = Ok tt s' ->
  exists vd',
    Js.get varPos (variablesData s') = Some vd'
    /\ isDict vd' = true
    /\ (forall key at_, Js.get key (assignmentTypes vd') = Some at_ ->
          instanceof_StructType (heap s') at_ = false)
    /\ (forall key at_, Js.get key (assignmentTypes vd') = Some at_ ->
          Js.get key (assignmentTypes vd) = Some at_
          \/ object_at (heap s') at_ = Some (DictType determinedType)).
Proof.
  intros Hstr Hnum Hnp Hvd H. unfold recordElementWrite in H.
  unfold bind at 1 in H. cbn [gets] in H. rewrite Hstr, Hnum in H.
  rewrite (bind_eq _ _ _ _ _ (updateVariableData_eq _ _ _ _ Hvd)) in H.
  rewrite (as_promise_None _ _ Hnp) in H.
  erewrite (bind_eq (variableData varPos)) in H
    by (apply variableData_eq; cbn; apply get_set_eq).
  cbn [assignmentTypes set_isDict] in H.
  destruct (replaceStructByDict_loop varPos determinedType _ _ _ (set_isDict vd)
              (set_isDict vd) H) as (vd' & Hvd' & Hnone & Horigin).
  - cbn. apply get_set_eq.
  - cbn [assignmentTypes set_isDict]. intros key at_ Hget _. eapply get_Some_keys. exact Hget.
  - auto.
  - exists vd'. split; [exact Hvd'|]. split; [|split; [exact Hnone|exact Horigin]].
    assert (Hflag : respects
              (fun s s' => forall vd, Js.get varPos (variablesData s) = Some vd ->
                 isDict vd = true ->
                 exists vd', Js.get varPos (variablesData s') = Some vd'
                             /\ isDict vd' = true)
              (forEach (replaceStructByDict varPos determinedType)
                 (Js.keys (assignmentTypes vd)))).
    { apply respects_forEach.
      - intros s0 vd0 Hg Hd. eauto.
      - intros s1 s2 s3 H12 H23 vd1 Hg Hd.
        destruct (H12 vd1 Hg Hd) as (vd2 & Hg2 & Hd2). eauto.
      - intros key s1 [] s2 Hstep vd1 Hg Hd. unfold replaceStructByDict in Hstep.
        rewrite (bind_eq _ _ _ _ _ (variableData_eq _ _ _ Hg)) in Hstep.
        unfold bind at 1 in Hstep. cbn [gets] in Hstep.
        destruct (Js.get key (assignmentTypes vd1)); [|inversion Hstep; subst; eauto].
        destruct (instanceof_StructType (heap s1) v); [|inversion Hstep; subst; eauto].
        rewrite (bind_eq _ _ _ _ _ (updateVariableData_eq _ _ _ _ Hg)) in Hstep.
        unfold bind at 1 in Hstep. cbn [new] in Hstep.
        apply bind_Ok in Hstep as (k & s3 & Hkey & Hstep).
        unfold getTextM in Hkey. apply bind_Ok in Hkey as (h & s4 & Hh & Hkey).
        inversion Hh; subst; clear Hh. apply defined_Ok in Hkey as [_ ->].
        erewrite updateVariableData_eq in Hstep by (cbn; apply get_set_eq).
        injection Hstep as <-. eexists. split; [cbn; apply get_set_eq|exact Hd]. }
    destruct (Hflag _ _ _ H (set_isDict vd)) as (vd2 & Hvd2 & Hd2);
      [cbn; apply get_set_eq|reflexivity|].
    congruence.
Qed.

Lemma dynamicKey_write_replaces_structs_witness :
  exists vd',
    Js.get 18%N
      (variablesData
         (mkTypeHelper
            [StructType "struct a_t *" [("x", VStr NumberVarType)];
             DictType (VStr NumberVarType)]
            [(18%N, newVariableInfo)] [("a_t", 0%nat)]
            [(18%N, mkVariableData None [("DICT(int16_t)", VRef 1)] [] [] None None
                      false false true)]
            [] [] [] [] [] [] []))
    = Some vd'
    /\ isDict vd' = true.
Proof.
  destruct (dynamicKey_write_replaces_structs 18 (Example.ident 28 "k")
              (VStr NumberVarType)
              (mkTypeHelper [StructType "struct a_t *" [("x", VStr NumberVarType)]]
                 [(18%N, newVariableInfo)] [("a_t", 0%nat)]
                 [(18%N, mkVariableData None [("struct a_t *", VRef 0)] [] [] None None
                           false false false)]
                 [] [] [] [] [] [] [])
              (mkTypeHelper
                 [StructType "struct a_t *" [("x", VStr NumberVarType)];
                  DictType (VStr NumberVarType)]
                 [(18%N, newVariableInfo)] [("a_t", 0%nat)]
                 [(18%N, mkVariableData None [("DICT(int16_t)", VRef 1)] [] [] None None
                           false false true)]
                 [] [] [] [] [] [] [])
              (mkVariableData None [("struct a_t *", VRef 0)] [] [] None None
                 false false false))
    as (vd' & Hvd' & Hd & _); [reflexivity..|vm_compute; reflexivity|].
  exists vd'. auto.
Defined.

(** ** The discharge of a promise *)

Lemma typeText_promise_update h (p : loc) r ap a nd e r' ap' a' nd' e' t :
  h !! p = Some (TypePromise r ap a nd e) ->
  typeText (<[p := TypePromise r' ap' a' nd' e']> h) t = typeText h t.
Proof.
  intros Hp. destruct t as [| | | |l]; try reflexivity.
  unfold typeText, getText. rewrite length_insert.
  eapply getText_fuel_promise; [exact Hp|]. eauto 10.
Qed.

Lemma resolvePromise_start tc varPos promise s r nd e resolvedType s1 :
  heap s !! promise = Some (TypePromise r None false nd e) ->
  getCType tc nd s = Ok resolvedType s1 ->
  not_nullish resolvedType = true ->
  heap s1 !! promise = Some (TypePromise r None false nd e)
  /\ resolvePromise tc varPos promise s
     = (let s2 := with_heap (fun h => <[promise := TypePromise true None false nd e]> h) s1 in
        let h := heap s2 in
        (finalType <-
           match object_at h resolvedType with
           | Some (StructType _ properties) =>
               if truthy e then
                 match e with
                 | VStr propName => ret (lookup_value propName properties)
                 | _ => ret resolvedType
                 end
               else ret resolvedType
           | Some (ArrayType elementType _ _) =>
               if truthy e then ret elementType else ret resolvedType
           | _ => ret resolvedType
           end ;;
         (key <- typeTextM finalType ;;
          updateVariableData varPos (set_assignmentTypes (Js.set key finalType))) ;;
         ret true) s2).
Proof.
  intros Hp Hget Hnn.
  assert (Hp1 : heap s1 !! promise = Some (TypePromise r None false nd e)).
  { destruct (frame_heap _ _ (framed_getCType tc nd s _ s1 Hget)) as [ext Hext].
    rewrite Hext. apply lookup_app_l_Some. exact Hp. }
  split; [exact Hp1|].
  unfold resolvePromise. unfold bind at 1. cbn [gets]. rewrite Hp.
  unfold bind at 1. cbn [defined ret].
  rewrite (bind_eq _ _ _ _ _ Hget). rewrite Hnn.
  rewrite (bind_eq _ _ _ _ _ (updateHeap_eq _ _ _ _ Hp1)).
  cbn [mark_resolved]. unfold bind at 1. cbn [gets].
  cbv zeta. unfold bind. reflexivity.
Qed.

(** X22: the discharge of a promise that is neither [arrayOf] nor tied to a
    property, once [getCType] gives a type for its node: the promise is
    marked resolved and the variable gets as evidence, under its text, the
    type itself when the promise has no [element], and the element type of
    the type when that is an array and the promise has [element] set, as
    the promise of a [for ... of] variable has. *)
Theorem promise_discharge_records_type tc varPos promise s r nd resolvedType s1 vd :
  getCType tc nd s = Ok resolvedType s1 ->
  not_nullish resolvedType = true ->
  Js.get varPos (variablesData s1) = Some vd ->
  (forall text,
     heap s !! promise = Some (TypePromise r None false nd (VBool false)) ->
     typeText (heap s1) resolvedType = Some text ->
     resolvePromise tc varPos promise s
     = Ok true
         (with_variablesData
            (Js.set varPos (set_assignmentTypes (Js.set text resolvedType) vd))
            (with_heap
               (fun h => <[promise := TypePromise true None false nd (VBool false)]> h)
               s1)))
  /\ (forall la elementType capacity dynamic text,
        heap s !! promise = Some (TypePromise r None false nd (VBool true)) ->
        resolvedType = VRef la ->
        heap s1 !! la = Some (ArrayType elementType capacity dynamic) ->
        typeText (heap s1) elementType = Some text ->
        resolvePromise tc varPos promise s
        = Ok true
            (with_variablesData
               (Js.set varPos (set_assignmentTypes (Js.set text elementType) vd))
               (with_heap
                  (fun h => <[promise := TypePromise true None false nd (VBool true)]> h)
                  s1))).
Proof.
  intros Hget Hnn Hvd. split.
  - intros text Hp Htext.
    destruct (resolvePromise_start tc varPos promise s r nd (VBool false) resolvedType s1
                Hp Hget Hnn) as [Hp1 ->].
    cbv zeta. cbn [truthy].
    destruct (object_at _ resolvedType) as [[]|];
      unfold bind at 1; cbn [ret];
      unfold typeTextM; unfold bind at 1 2 3; cbn [gets heap with_heap];
      rewrite (typeText_promise_update _ _ _ _ _ _ _ _ _ _ _ _ _ Hp1), Htext;
      cbn [defined ret];
      erewrite updateVariableData_eq by exact Hvd; reflexivity.
  - intros la elementType capacity dynamic text Hp -> Hla Htext.
    destruct (resolvePromise_start tc varPos promise s r nd (VBool true) (VRef la) s1
                Hp Hget Hnn) as [Hp1 ->].
    cbv zeta. cbn [truthy object_at heap with_heap].
    assert (Hne : promise <> la) by (intros ->; congruence).
    rewrite list_lookup_insert_ne by exact Hne. rewrite Hla.
    unfold bind at 1. cbn [ret].
    unfold typeTextM. unfold bind at 1 2 3. cbn [gets heap with_heap].
    rewrite (typeText_promise_update _ _ _ _ _ _ _ _ _ _ _ _ _ Hp1), Htext.
    cbn [defined ret].
    erewrite updateVariableData_eq by exact Hvd. reflexivity.
Qed.

Lemma promise_discharge_records_type_witness :
  resolvePromise Example.checker 18 0
    (mkTypeHelper [TypePromise false None false (Example.num 42 "5") (VBool false)]
       [(18%N, newVariableInfo)] [] [(18%N, newVariableData)] [] [] [] [] [] [] [])
  = Ok true
      (mkTypeHelper [TypePromise true None false (Example.num 42 "5") (VBool false)]
         [(18%N, newVariableInfo)] []
         [(18%N, mkVariableData None [("int16_t", VStr NumberVarType)] [] [] None None
                   false false false)]
         [] [] [] [] [] [] []).
Proof.
  destruct (promise_discharge_records_type Example.checker 18 0%nat
              (mkTypeHelper
                 [TypePromise false None false (Example.num 42 "5") (VBool false)]
                 [(18%N, newVariableInfo)] [] [(18%N, newVariableData)]
                 [] [] [] [] [] [] [])
              false (Example.num 42 "5") (VStr NumberVarType)
              (mkTypeHelper
                 [TypePromise false None false (Example.num 42 "5") (VBool false)]
                 [(18%N, newVariableInfo)] [] [(18%N, newVariableData)]
                 [] [] [] [] [] [] [])
              newVariableData) as [H _]; [reflexivity..|].
  apply (H "int16_t"); reflexivity.
Defined.

(** ** [push] *)

Lemma arrayOfFound_true h dtString candidates :
  arrayOfFound h dtString candidates = Some true ->
  exists key at_ elementType capacity dynamic,
    In (key, at_) candidates
    /\ object_at h at_ = Some (ArrayType elementType capacity dynamic)
    /\ typeText h elementType = Some dtString.
Proof.
  induction candidates as [|[key at_] candidates IH]; cbn [arrayOfFound]; [discriminate|].
  destruct (object_at h at_) as [o|] eqn:Hat.
  - destruct o as [elementType capacity dynamic| | |];
      try (intros H; destruct (IH H) as (k & a & e & c & d & Hin & Ho & Ht);
           exists k, a, e, c, d; cbn [In]; auto).
    destruct (typeText h elementType) as [t|] eqn:Ht; [|discriminate].
    destruct (String.eqb t dtString) eqn:Heq.
    + apply String.eqb_eq in Heq. subst t. intros _.
      exists key, at_, elementType, capacity, dynamic. cbn [In]. auto.
    + intros H. destruct (IH H) as (k & a & e & c & d & Hin & Ho & Ht').
      exists k, a, e, c, d. cbn [In]. auto.
  - intros H. destruct (IH H) as (k & a & e & c & d & Hin & Ho & Ht).
    exists k, a, e, c, d. cbn [In]. auto.
Qed.

Lemma typeText_ext h ext t text :
  typeText h t = Some text -> typeText (h ++ ext) t = Some text.
Proof.
  destruct t as [| | | |l]; cbn [typeText]; try discriminate; [auto|].
  apply getText_ext.
Qed.

Lemma determineType_keeps_variablesData tc left right :
  respects (fun s s' => variablesData s' = variablesData s) (determineType tc left right).
Proof.
  intros s a s' H. apply (determineType_evidenceKept tc left right s a s' H).
Qed.

(** X23: the visit of the receiver of [x.push(e)], when the type derived
    for [e] is not a promise, marks the variable as a dynamic array and
    leaves it with an array candidate whose element type has the text of
    the derived type. *)
Theorem push_gives_array_candidate
    tc ancestors varPos node propAccess receiver nm call arg s vd determinedType s1 s' :
  ts.expression propAccess = Some receiver ->
  ts.is_kind ts.SyntaxKind.Identifier receiver = true ->
  ts.name propAccess = Some nm ->
  ts.getText nm = "push" ->
  ancestors !! 1%nat = Some call ->
  ts.is_kind ts.SyntaxKind.CallExpression call = true ->
  ts.arguments call = [arg] ->
  Js.get varPos (variablesData s) = Some vd ->
  determineType tc (Some receiver) (Some arg)
    (with_variablesData (Js.set varPos (set_isDynamicArray vd)) s)
  = Ok determinedType s1 ->
  instanceof_TypePromise (heap s1) determinedType = false ->
  visitPropertyAccessTarget tc ancestors varPos node propAccess s = Ok tt s' ->
  exists vd' key at_ elementType capacity dynamic text,
    Js.get varPos (variablesData s') = Some vd'
    /\ isDynamicArray vd' = true
    /\ In (key, at_) (assignmentTypes vd')
    /\ object_at (heap s') at_ = Some (ArrayType elementType capacity dynamic)
    /\ typeText (heap s') elementType = Some text
    /\ typeText (heap s') determinedType = Some text.
Proof.
  intros Hrecv Hident Hname Hpush Hcall Hkind Hargs Hvd Hdet Hnp H.
  unfold visitPropertyAccessTarget in H. rewrite Hrecv in H.
  unfold bind at 1 in H. cbn [defined ret] in H.
  apply bind_Ok in H as ([] & s0 & Hfirst & H).
  assert (s0 = s) as ->.
  { destruct (ts.pos receiver =? ts.pos node)%N; [|inversion Hfirst; reflexivity].
    rewrite Hcall in Hfirst. unfold bind at 1 in Hfirst. cbn [defined ret] in Hfirst.
    destruct call as [ck cp ct cch]. unfold ts.is_kind in *. cbn in Hkind |- *.
    destruct ck; try discriminate Hkind. cbn in Hfirst. inversion Hfirst. reflexivity. }
  clear Hfirst. rewrite Hident, Hname in H.
  apply bind_Ok in H as ([] & s2 & Hsecond & Hthird).
  assert (s' = s2) as ->.
  { unfold bind at 1 in Hthird. cbn [defined ret] in Hthird. rewrite Hpush in Hthird.
    cbn in Hthird. inversion Hthird. reflexivity. }
  clear Hthird. rename Hsecond into H.
  unfold bind at 1 in H. cbn [defined ret] in H. rewrite Hpush in H.
  cbn [String.eqb Ascii.eqb Bool.eqb] in H.
  rewrite (bind_eq _ _ _ _ _ (updateVariableData_eq _ _ _ _ Hvd)) in H.
  rewrite Hcall, Hkind, Hargs in H.
  rewrite (bind_eq _ _ _ _ _ Hdet) in H.
  unfold bind at 1 in H. cbn [gets] in H.
  rewrite (as_promise_None _ _ Hnp) in H.
  pose proof (determineType_keeps_variablesData _ _ _ _ _ _ Hdet) as Hdata.
  cbn [variablesData with_variablesData] in Hdata.
  assert (Hvd1 : Js.get varPos (variablesData s1) = Some (set_isDynamicArray vd)).
  { rewrite Hdata. apply get_set_eq. }
  apply bind_Ok in H as ([] & s3 & Hflag & H).
  assert (Hvd3 : variablesData s3 = variablesData s1).
  { destruct determinedType as [| | | |l]; try (inversion Hflag; reflexivity).
    destruct (instanceof_ArrayType (heap s1) (VRef l)); [|inversion Hflag; reflexivity].
    unfold updateHeap in Hflag. apply bind_Ok in Hflag as (h & s4 & Hh & Hflag).
    inversion Hh; subst; clear Hh.
    apply bind_Ok in Hflag as (o & s5 & Ho & Hflag). apply defined_Ok in Ho as [_ ->].
    inversion Hflag. reflexivity. }
  apply bind_Ok in H as (dtString & s4 & Hdt & H).
  unfold typeTextM in Hdt. apply bind_Ok in Hdt as (h & s5 & Hh & Hdt).
  inversion Hh; subst; clear Hh. apply defined_Ok in Hdt as [Hdt ->].
  rewrite <- Hvd3 in Hvd1.
  rewrite (bind_eq _ _ _ _ _ (variableData_eq _ _ _ Hvd1)) in H.
  unfold bind at 1 in H. cbn [gets] in H.
  apply bind_Ok in H as (found & s6 & Hfound & H). apply defined_Ok in Hfound as [Hfound ->].
  destruct found.
  - inversion H; subst.
    destruct (arrayOfFound_true _ _ _ Hfound) as (key & at_ & e & c & d & Hin & Ho & Ht).
    exists (set_isDynamicArray vd), key, at_, e, c, d, dtString. auto 10.
  - unfold bind at 1 in H. cbn [new] in H.
    apply bind_Ok in H as (key & s7 & Hkey & H).
    unfold getTextM in Hkey. apply bind_Ok in Hkey as (h & s8 & Hh & Hkey).
    inversion Hh; subst; clear Hh. apply defined_Ok in Hkey as [_ ->].
    erewrite updateVariableData_eq in H by (cbn; exact Hvd1).
    injection H as <-.
    eexists _, key, (VRef (length (heap s5))), determinedType, 0%N, true, dtString.
    cbn [variablesData with_variablesData heap with_heap].
    split; [apply get_set_eq|]. split; [reflexivity|].
    split; [cbn; apply get_Some_In, get_set_eq|].
    split; [unfold object_at; rewrite lookup_app_r by lia; rewrite Nat.sub_diag;
            reflexivity|].
    split; apply typeText_ext; exact Hdt.
Qed.

Lemma push_gives_array_candidate_witness :
  exists vd' key at_ elementType capacity dynamic text,
    Js.get 4%N (variablesData Example.pushVisited) = Some vd'
    /\ isDynamicArray vd' = true
    /\ In (key, at_) (assignmentTypes vd')
    /\ object_at (heap Example.pushVisited) at_
       = Some (ArrayType elementType capacity dynamic)
    /\ typeText (heap Example.pushVisited) elementType = Some text
    /\ typeText (heap Example.pushVisited) (VStr NumberVarType) = Some text.
Proof.
  apply (push_gives_array_candidate Example.checkerA
           [Example.pushAccess; Example.pushCall] 4 (Example.ident 19 "a")
           Example.pushAccess (Example.ident 19 "a") (Example.ident 21 "push")
           Example.pushCall (Example.num 26 "4") Example.beforePush newVariableData
           (VStr NumberVarType)
           (with_variablesData (Js.set 4%N (set_isDynamicArray newVariableData))
              Example.beforePush));
    try reflexivity; vm_compute; reflexivity.
Defined.


(** ** What each phase leaves to the other *)

Lemma typesLeft_refl s : typesLeft s s.
Proof.
  split; [apply keysKept_refl|]. intros k vi' Hk. rewrite Hk. auto.
Qed.

Lemma typesLeft_trans s1 s2 s3 : typesLeft s1 s2 -> typesLeft s2 s3 -> typesLeft s1 s3.
Proof.
  intros [Hk12 H12] [Hk23 H23]. split; [eapply keysKept_trans; eauto|].
  intros k v3 Hv3. specialize (H23 k v3 Hv3).
  destruct (Js.get k (variables s2)) as [v2|] eqn:Hv2.
  - specialize (H12 k v2 Hv2). destruct (Js.get k (variables s1)); intuition congruence.
  - destruct (Js.get k (variables s1)) as [v1|] eqn:Hv1; [|exact H23].
    destruct (Hk12 k) as [x Hx]; [rewrite Hv1; eauto|]. congruence.
Qed.

Lemma typesLeft_same s s' : variables s' = variables s -> typesLeft s s'.
Proof.
  intros Heq. split.
  - rewrite Heq. apply keysKept_refl.
  - intros k vi' Hk. rewrite Heq in Hk. rewrite Hk. auto.
Qed.

Lemma determineType_keeps_variables tc left right :
  respects (fun s s' => variables s' = variables s) (determineType tc left right).
Proof.
  intros s a s' H. apply (determineType_evidenceKept tc left right s a s' H).
Qed.

Ltac variables_step :=
  first
    [ apply determineType_keeps_variables
    | apply getTypeString_keeps_variables
    | kept_step variables @framed_keeps_variables ].

Lemma addTypeToVariable_keeps_variables tc varPos left right :
  respects (fun s s' => variables s' = variables s)
    (addTypeToVariable tc varPos left right).
Proof. unfold addTypeToVariable. repeat variables_step. Qed.

Lemma recordCallArguments_keeps_variables tc funcDeclPos args :
  forall i, respects (fun s s' => variables s' = variables s)
              (recordCallArguments tc funcDeclPos i args).
Proof.
  induction args as [|arg args IH]; intros i; cbn [recordCallArguments].
  - variables_step.
  - apply respects_bind; [apply (keeps_trans variables)| |intros ?; apply IH].
    unfold recordCallArgument. repeat variables_step.
Qed.

Lemma visitCallExpression_keeps_variables tc call :
  respects (fun s s' => variables s' = variables s) (visitCallExpression tc call).
Proof.
  unfold visitCallExpression.
  repeat first [ apply recordCallArguments_keeps_variables | variables_step ].
Qed.

Lemma visitReturnStatement_keeps_variables tc ancestors ret_ :
  respects (fun s s' => variables s' = variables s)
    (visitReturnStatement tc ancestors ret_).
Proof. unfold visitReturnStatement. repeat variables_step. Qed.

Lemma visitVariableDeclarationName_keeps_variables tc ancestors varPos node varDecl :
  respects (fun s s' => variables s' = variables s)
    (visitVariableDeclarationName tc ancestors varPos node varDecl).
Proof.
  unfold visitVariableDeclarationName, pushPromise.
  repeat first [ apply addTypeToVariable_keeps_variables | variables_step ].
Qed.

Lemma visitParameterName_keeps_variables tc ancestors varPos node :
  respects (fun s s' => variables s' = variables s)
    (visitParameterName tc ancestors varPos node).
Proof.
  unfold visitParameterName.
  repeat first [ apply addTypeToVariable_keeps_variables | variables_step ].
Qed.

Lemma visitAssignmentTarget_keeps_variables tc varPos node binExpr :
  respects (fun s s' => variables s' = variables s)
    (visitAssignmentTarget tc varPos node binExpr).
Proof.
  unfold visitAssignmentTarget.
  repeat first [ apply addTypeToVariable_keeps_variables | variables_step ].
Qed.

Lemma visitPropertyAccessTarget_keeps_variables tc ancestors varPos node propAccess :
  respects (fun s s' => variables s' = variables s)
    (visitPropertyAccessTarget tc ancestors varPos node propAccess).
Proof.
  unfold visitPropertyAccessTarget, pushPromise. repeat variables_step.
Qed.

Lemma recordElementWrite_keeps_variables varPos argument determinedType :
  respects (fun s s' => variables s' = variables s)
    (recordElementWrite varPos argument determinedType).
Proof.
  unfold recordElementWrite, pushPromise, refineElementType, replaceStructByDict.
  repeat variables_step.
Qed.

Lemma visitElementAccessTarget_keeps_variables tc ancestors varPos node elemAccess :
  respects (fun s s' => variables s' = variables s)
    (visitElementAccessTarget tc ancestors varPos node elemAccess).
Proof.
  unfold visitElementAccessTarget.
  repeat first [ apply recordElementWrite_keeps_variables | variables_step ].
Qed.

Lemma visitForOfTarget_keeps_variables varPos node forOfStatement :
  respects (fun s s' => variables s' = variables s)
    (visitForOfTarget varPos node forOfStatement).
Proof. unfold visitForOfTarget, pushPromise. repeat variables_step. Qed.

Lemma typesLeft_respects {A} (m : M A) :
  respects (fun s s' => variables s' = variables s) m -> respects typesLeft m.
Proof. intros Hm s a s' H. apply typesLeft_same. exact (Hm s a s' H). Qed.

Lemma visitIdentifier_typesLeft tc ancestors node :
  respects typesLeft (visitIdentifier tc ancestors node).
Proof.
  unfold visitIdentifier.
  destruct (ts.getSymbolAtLocation tc node) as [symbol|];
    [|apply respects_ret, typesLeft_refl].
  set (varPos := ts.pos (ts.valueDeclaration symbol)).
  intros s a s' H.
  apply bind_Ok in H as (known & s0 & Hknown & H). inversion Hknown; subst; clear Hknown.
  apply bind_Ok in H as ([] & s1 & Hcreate & H).
  apply bind_Ok in H as (vd & s2 & Hvd & H).
  unfold variableData in Hvd. apply bind_Ok in Hvd as (x & s3 & Hx & Hvd).
  inversion Hx; subst; clear Hx. apply defined_Ok in Hvd as [_ ->].
  apply bind_Ok in H as ([] & s4 & Hadd & H).
  assert (Hrest : variables s' = variables s4).
  { cbv beta in H.
    match type of H with
    | ?m s4 = _ =>
        assert (Hm : respects (fun s s' => variables s' = variables s) m)
    end.
    { destruct ancestors as [|parent rest]; [variables_step|].
      destruct (ts.kind parent);
        first [ apply visitVariableDeclarationName_keeps_variables
              | apply visitParameterName_keeps_variables
              | apply visitAssignmentTarget_keeps_variables
              | apply visitPropertyAccessTarget_keeps_variables
              | apply visitElementAccessTarget_keeps_variables
              | apply visitForOfTarget_keeps_variables
              | variables_step ]. }
    exact (Hm _ _ _ H). }
  destruct (updateVariableInfo_get _ _ _ _ Hadd) as (vi1 & Hvi1 & Hvi4').
  assert (Hs4 : forall k, Js.get k (variables s4)
                          = if decide (varPos = k) then Some (add_reference node vi1)
                            else Js.get k (variables s3)).
  { intros k. unfold updateVariableInfo, variableInfo in Hadd.
    apply bind_Ok in Hadd as (vi0 & s5 & Hvi & Hadd).
    apply bind_Ok in Hvi as (x & s6 & Hx & Hvi).
    inversion Hx; subst. apply defined_Ok in Hvi as [Hget ->]. inversion Hadd; subst.
    cbn. destruct (decide (varPos = k)) as [->|Hne].
    - rewrite get_set_eq. congruence.
    - apply get_set_ne. exact Hne. }
  assert (Hs3 : forall k, k <> varPos ->
                  Js.get k (variables s3) = Js.get k (variables s0)).
  { intros k Hne. destruct (Js.get varPos (variables s0)).
    - inversion Hcreate; subst. reflexivity.
    - unfold bind, modify in Hcreate. inversion Hcreate; subst. cbn.
      apply get_set_ne. congruence. }
  split.
  - intros k [vi Hk]. rewrite Hrest, Hs4.
    destruct (decide (varPos = k)) as [->|Hne]; [eauto|].
    rewrite Hs3 by congruence. rewrite Hk. eauto.
  - intros k vi' Hk. rewrite Hrest, Hs4 in Hk.
    destruct (decide (varPos = k)) as [<-|Hne].
    + injection Hk as <-. cbn [add_reference type requiresAllocation].
      destruct (Js.get varPos (variables s0)) as [vi|] eqn:Hget.
      * inversion Hcreate; subst. rewrite Hget in Hvi1. injection Hvi1 as <-. auto.
      * unfold bind, modify in Hcreate. inversion Hcreate; subst. cbn in Hvi1.
        rewrite get_set_eq in Hvi1. injection Hvi1 as <-. auto.
    + rewrite Hs3 in Hk by congruence. rewrite Hk. auto.
Qed.

Lemma visit_typesLeft tc ancestors node : respects typesLeft (visit tc ancestors node).
Proof.
  unfold visit.
  destruct (ts.kind node);
    first [ apply visitIdentifier_typesLeft
          | apply typesLeft_respects;
            repeat first [ apply visitCallExpression_keeps_variables
                         | apply visitReturnStatement_keeps_variables
                         | variables_step ] ].
Qed.

Lemma findVariablesRecursively_typesLeft tc node :
  forall ancestors, respects typesLeft (findVariablesRecursively tc ancestors node).
Proof.
  induction node as [k p t ch IH] using Node_induction.
  intros ancestors. cbn [findVariablesRecursively].
  apply respects_bind; [apply typesLeft_trans|apply visit_typesLeft|intros _].
  generalize (ts.mkNode k p t ch :: ancestors). intros path.
  induction IH as [|c cs Hc _ IHcs]; [apply respects_ret, typesLeft_refl|].
  apply respects_bind; [apply typesLeft_trans|apply Hc|intros _; exact IHcs].
Qed.

(** X24: the collection leaves the types to the resolver: over the
    collection on a tree, a variable that has an entry keeps its type and
    its [requiresAllocation], and a variable that gets an entry has no type
    and [requiresAllocation] unset. *)
Theorem collection_leaves_types tc ancestors root s s' k vi' :
  findVariablesRecursively tc ancestors root s = Ok tt s' ->
  Js.get k (variables s') = Some vi' ->
  match Js.get k (variables s) with
  | Some vi => type vi' = type vi /\ requiresAllocation vi' = requiresAllocation vi
  | None => type vi' = VUndef /\ requiresAllocation vi' = false
  end.
Proof.
  intros H. apply (findVariablesRecursively_typesLeft tc root ancestors s tt s' H).
Qed.

Lemma collection_leaves_types_witness :
  type (mkVariableInfo "a" VUndef [Example.ident 18 "a"; Example.ident 26 "a"]
          (Some Example.declA) false) = VUndef
  /\ requiresAllocation
       (mkVariableInfo "a" VUndef [Example.ident 18 "a"; Example.ident 26 "a"]
          (Some Example.declA) false) = false.
Proof.
  apply (collection_leaves_types Example.checkerF [] Example.program newTypeHelper
           Example.programCollected 18%N); vm_compute; reflexivity.
Defined.

Lemma framed_keeps_collectedTables {A} (m : M A) :
  framed m -> respects (fun s s' => collectedTables s' = collectedTables s) m.
Proof.
  intros Hm s a s' Hrun. destruct (Hm s a s' Hrun). unfold collectedTables. congruence.
Qed.

Ltac collected_step := kept_step collectedTables @framed_keeps_collectedTables.

Lemma getTypeString_keeps_collectedTables tc source :
  respects (fun s s' => collectedTables s' = collectedTables s) (getTypeString tc source).
Proof. unfold getTypeString, convertSource. repeat collected_step. Qed.

Lemma evidenceType_keeps_collectedTables tc type :
  respects (fun s s' => collectedTables s' = collectedTables s) (evidenceType tc type).
Proof. unfold evidenceType. repeat collected_step. Qed.

Lemma tryResolvePromises_keeps_collectedTables tc varPos :
  respects (fun s s' => collectedTables s' = collectedTables s)
    (tryResolvePromises tc varPos).
Proof.
  unfold tryResolvePromises, resolveParameter, resolveReturn, resolvePromise.
  repeat first [ apply evidenceType_keeps_collectedTables
               | apply getTypeString_keeps_collectedTables
               | collected_step ].
Qed.

Lemma finalizeVariable_keeps_collectedTables k :
  respects (fun s s' => collectedTables s' = collectedTables s) (finalizeVariable k).
Proof.
  unfold finalizeVariable, mergeAddedProperty. repeat collected_step.
Qed.

Lemma resolvePass_keeps_collectedTables tc ks :
  forall some, respects (fun s s' => collectedTables s' = collectedTables s)
                 (resolvePass tc some ks).
Proof.
  induction ks as [|k ks IH]; intros some; cbn [resolvePass].
  - collected_step.
  - repeat first [ apply IH
                 | apply finalizeVariable_keeps_collectedTables
                 | apply tryResolvePromises_keeps_collectedTables
                 | collected_step ].
Qed.

Lemma resolver_keeps_collectedTables tc fuel :
  forall s s', resolvePromisesAndFinalizeTypes tc fuel s = Some (Ok tt s') ->
               collectedTables s' = collectedTables s.
Proof.
  induction fuel as [|fuel IH]; intros s s' H; cbn [resolvePromisesAndFinalizeTypes] in H;
    [discriminate|].
  destruct (resolvePass tc false (Js.keys (variables s)) s) as [[|] s1|e] eqn:Hpass;
    try discriminate.
  - apply resolvePass_keeps_collectedTables in Hpass. rewrite (IH _ _ H). exact Hpass.
  - injection H as <-. exact (resolvePass_keeps_collectedTables _ _ _ _ _ _ Hpass).
Qed.

(** X25: the resolver only reads what the collection recorded about calls
    and returns: when the loop ends, the argument types of the calls, the
    returned expressions, the prototypes, the types of the object literals
    and the temporaries are as they were when it started. *)
Theorem resolver_reads_collected tc fuel s s' :
  resolvePromisesAndFinalizeTypes tc fuel s = Some (Ok tt s') ->
  functionCallsData s' = functionCallsData s
  /\ functionReturnsData s' = functionReturnsData s
  /\ functionPrototypes s' = functionPrototypes s
  /\ objectLiteralsTypes s' = objectLiteralsTypes s
  /\ temporaryVariables s' = temporaryVariables s.
Proof.
  intros H. apply resolver_keeps_collectedTables in H.
  unfold collectedTables in H. injection H as H1 H2 H3 H4 H5. auto.
Qed.

Lemma resolver_reads_collected_witness :
  functionCallsData Example.programResolved = functionCallsData Example.programCollected
  /\ functionReturnsData Example.programResolved
     = functionReturnsData Example.programCollected
  /\ functionPrototypes Example.programResolved
     = functionPrototypes Example.programCollected
  /\ objectLiteralsTypes Example.programResolved
     = objectLiteralsTypes Example.programCollected
  /\ temporaryVariables Example.programResolved
     = temporaryVariables Example.programCollected.
Proof.
  apply (resolver_reads_collected Example.checkerF 3). vm_compute. reflexivity.
Defined.

(** ** Parameters and element writes *)

Lemma evidenceType_value tc type s :
  instanceof_TypePromise (heap s) type = false -> evidenceType tc type s = Ok type s.
Proof.
  unfold evidenceType, instanceof_TypePromise, object_at, bind, gets. intros H.
  destruct type as [| | | |l]; try reflexivity.
  destruct (heap s !! l) as [[]|]; try reflexivity. discriminate.
Qed.

Lemma getTypeString_value tc type s key :
  instanceof_TypePromise (heap s) type = false ->
  truthy type = true ->
  typeText (heap s) type = Some key ->
  getTypeString tc (SourceValue type) s = Ok key s.
Proof.
  unfold instanceof_TypePromise. intros Hnp Ht Hkey.
  unfold getTypeString, convertSource.
  destruct type as [| | | |l]; cbn [typeText] in Hkey; try discriminate.
  - injection Hkey as ->. reflexivity.
  - unfold bind, ret, gets. cbn [object_at] in *.
    destruct (getText_defined _ _ _ Hkey) as [o Ho]. rewrite Ho in *.
    destruct o; try discriminate; unfold typeTextM, bind, gets, defined;
      cbn [typeText]; rewrite Hkey; reflexivity.
Qed.

(** X26: a parameter adopts the type recorded for its argument at a call:
    when the type recorded at the parameter's index for its function is
    not a promise, the first part of [tryResolvePromises] adds it to the
    evidence of the parameter under its text and reports a resolution,
    unless the evidence has an entry under that text already: then nothing
    is changed and nothing is reported. *)
Theorem parameter_adopts_argument_type tc varPos s vd funcDeclPos paramIndex callData key :
  Js.get varPos (variablesData s) = Some vd ->
  parameterFuncDeclPos vd = Some funcDeclPos ->
  funcDeclPos <> 0%N ->
  parameterIndex vd = Some paramIndex ->
  Js.get funcDeclPos (functionCallsData s) = Some callData ->
  let type := nth_value callData paramIndex in
  instanceof_TypePromise (heap s) type = false ->
  truthy type = true ->
  typeText (heap s) type = Some key ->
  resolveParameter tc varPos s
  = if truthy (lookup_value key (assignmentTypes vd)) then Ok false s
    else Ok true
           (with_variablesData
              (Js.set varPos (set_assignmentTypes (Js.set key type) vd)) s).
Proof.
  intros Hvd Hf Hf0 Hi Hcall type Hnp Ht Hkey. unfold resolveParameter.
  rewrite (bind_eq _ _ _ _ _ (variableData_eq _ _ _ Hvd)). rewrite Hf.
  apply N.eqb_neq in Hf0. rewrite Hf0.
  unfold bind at 1. cbn [gets]. rewrite Hcall, Hi. fold type.
  rewrite (bind_eq _ _ _ _ _ (evidenceType_value tc type s Hnp)). rewrite Ht.
  rewrite (bind_eq _ _ _ _ _ (variableData_eq _ _ _ Hvd)).
  rewrite (bind_eq _ _ _ _ _ (getTypeString_value tc type s key Hnp Ht Hkey)).
  destruct (truthy (lookup_value key (assignmentTypes vd))); [reflexivity|].
  rewrite (bind_eq _ _ _ _ _ (updateVariableData_eq _ _ _ _ Hvd)). reflexivity.
Qed.

Lemma parameter_adopts_argument_type_witness :
  resolveParameter Example.checkerF 11 Example.programCollected
  = Ok true
      (with_variablesData
         (Js.set 11%N
            (mkVariableData (Some Example.anyType)
               [("void *", VStr "void *"); ("int16_t", VStr "int16_t")] [] []
               (Some 0) (Some 1%N) false false false))
         Example.programCollected).
Proof.
  apply (parameter_adopts_argument_type Example.checkerF 11 Example.programCollected
           (mkVariableData (Some Example.anyType) [("void *", VStr "void *")] [] []
              (Some 0) (Some 1%N) false false false)
           1%N 0 [VStr "int16_t"] "int16_t");
    first [ lia | vm_compute; reflexivity ].
Defined.

Lemma with_heap_same s : with_heap (fun _ => heap s) s = s.
Proof. destruct s. reflexivity. Qed.

Lemma refineElementType_run determinedType at_ s :
  exists h1,
    refineElementType determinedType at_ s = Ok tt (with_heap (fun _ => h1) s)
    /\ (forall l e c d, heap s !! l = Some (ArrayType e c d) -> at_ = VRef l ->
          eq_str e UniversalVarType = true ->
          h1 !! l = Some (ArrayType determinedType c d))
    /\ (forall l, (forall e c d, heap s !! l = Some (ArrayType e c d) -> at_ = VRef l ->
                     eq_str e UniversalVarType = false) ->
          h1 !! l = heap s !! l).
Proof.
  assert (Hsame : exists h1,
             Ok tt s = Ok tt (with_heap (fun _ => h1) s) /\ h1 = heap s).
  { exists (heap s). rewrite with_heap_same. auto. }
  unfold refineElementType, bind. cbn [gets].
  destruct at_ as [| | | |l0];
    try (destruct Hsame as (h1 & Heq & ->); exists (heap s);
         split; [exact Heq|split; [discriminate|reflexivity]]).
  destruct (heap s !! l0) as [o|] eqn:Hl0.
  2:{ destruct Hsame as (h1 & Heq & ->). exists (heap s). split; [exact Heq|].
      split; [|reflexivity]. intros l e c d Hl [= ->]. congruence. }
  destruct o as [e0 c0 d0| | |];
    try (destruct Hsame as (h1 & Heq & ->); exists (heap s); split; [exact Heq|];
         split; [|reflexivity]; intros l e c d Hl [= ->]; congruence).
  destruct (eq_str e0 UniversalVarType) eqn:Hu.
  - exists (<[l0 := ArrayType determinedType c0 d0]> (heap s)).
    split; [|split].
    + rewrite (updateHeap_eq _ _ _ _ Hl0). reflexivity.
    + intros l e c d Hl [= ->] _. rewrite Hl0 in Hl. injection Hl as -> -> ->.
      apply list_lookup_insert_eq. eapply lookup_lt_Some. exact Hl0.
    + intros l Hl. destruct (decide (l = l0)) as [->|Hne].
      * specialize (Hl _ _ _ Hl0 eq_refl). congruence.
      * apply list_lookup_insert_ne. congruence.
  - destruct Hsame as (h1 & Heq & ->). exists (heap s). split; [exact Heq|].
    split; [|reflexivity].
    intros l e c d Hl [= ->] He. rewrite Hl0 in Hl. injection Hl as -> -> ->. congruence.
Qed.

Lemma refineElementType_loop determinedType types :
  forall s,
  exists h',
    forEach (refineElementType determinedType) types s
    = Ok tt (with_heap (fun _ => h') s)
    /\ (forall l e c d, heap s !! l = Some (ArrayType e c d) -> In (VRef l) types ->
          eq_str e UniversalVarType = true ->
          h' !! l = Some (ArrayType determinedType c d))
    /\ (forall l, (forall e c d, heap s !! l = Some (ArrayType e c d) ->
                     In (VRef l) types -> eq_str e UniversalVarType = false) ->
          h' !! l = heap s !! l).
Proof.
  induction types as [|at_ types IH]; intros s.
  - exists (heap s). cbn [forEach]. unfold ret. rewrite with_heap_same.
    split; [reflexivity|]. split; [intros ? ? ? ? _ []|reflexivity].
  - destruct (refineElementType_run determinedType at_ s) as (h1 & Hrun & Hhit & Hmiss).
    destruct (IH (with_heap (fun _ => h1) s)) as (h' & Hloop & Hyes & Hno).
    cbn [with_heap heap] in Hyes, Hno.
    exists h'. split; [|split].
    + cbn [forEach]. rewrite (bind_eq _ _ _ _ _ Hrun). rewrite Hloop. reflexivity.
    + intros l e c d Hl Hin He.
      destruct (decide (at_ = VRef l)) as [->|Hne].
      * pose proof (Hhit _ _ _ _ Hl eq_refl He) as Hl1.
        destruct (eq_str determinedType UniversalVarType) eqn:Hu.
        -- destruct (in_dec value_eq_dec (VRef l) types) as [Hin'|Hnin].
           ++ exact (Hyes _ _ _ _ Hl1 Hin' Hu).
           ++ rewrite Hno; [exact Hl1|]. intros ? ? ? _ Hin'. contradiction.
        -- rewrite Hno; [exact Hl1|]. intros e' c' d' Hl' _. congruence.
      * destruct Hin as [Heq|Hin]; [contradiction|].
        assert (Hl1 : h1 !! l = heap s !! l).
        { apply Hmiss. intros ? ? ? _ Heq. contradiction. }
        rewrite <- Hl1 in Hl. exact (Hyes _ _ _ _ Hl Hin He).
    + intros l Hl.
      assert (Hl1 : h1 !! l = heap s !! l).
      { apply Hmiss. intros e c d Hle Heq. apply (Hl e c d Hle). left. exact Heq. }
      rewrite <- Hl1. apply Hno. intros e c d Hle Hin. rewrite Hl1 in Hle.
      apply (Hl e c d Hle). right. exact Hin.
Qed.

(** X27: a write [x[0] = e] through a numeric literal whose derived type is
    not a promise changes objects only: every array among the candidates of
    the variable whose element type is still the universal fallback gets
    the derived type as its element type, with its capacity and its
    [isDynamicArray] kept, and every other object is left as it is. *)
Theorem numericKey_write_refines_elements varPos argument determinedType s vd :
  ts.is_kind ts.SyntaxKind.StringLiteral argument = false ->
  ts.is_kind ts.SyntaxKind.NumericLiteral argument = true ->
  instanceof_TypePromise (heap s) determinedType = false ->
  Js.get varPos (variablesData s) = Some vd ->
  let types := map snd (assignmentTypes vd) in
  exists h',
    recordElementWrite varPos argument determinedType s
    = Ok tt (with_heap (fun _ => h') s)
    /\ (forall l e c d, heap s !! l = Some (ArrayType e c d) -> In (VRef l) types ->
          eq_str e UniversalVarType = true ->
          h' !! l = Some (ArrayType determinedType c d))
    /\ (forall l, (forall e c d, heap s !! l = Some (ArrayType e c d) ->
                     In (VRef l) types -> eq_str e UniversalVarType = false) ->
          h' !! l = heap s !! l).
Proof.
  intros Hstr Hnum Hnp Hvd types.
  destruct (refineElementType_loop determinedType types s) as (h' & Hloop & Hyes & Hno).
  exists h'. split; [|split; [exact Hyes|exact Hno]].
  unfold recordElementWrite. unfold bind at 1. cbn [gets].
  rewrite Hstr, Hnum, (as_promise_None _ _ Hnp).
  rewrite (bind_eq _ _ _ _ _ (variableData_eq _ _ _ Hvd)). exact Hloop.
Qed.

Lemma numericKey_write_refines_elements_witness :
  exists h',
    recordElementWrite 5 Example.index0 (VStr NumberVarType) Example.arrayOfUniversal
    = Ok tt (with_heap (fun _ => h') Example.arrayOfUniversal)
    /\ (forall l e c d,
          heap Example.arrayOfUniversal !! l = Some (ArrayType e c d) ->
          In (VRef l) [VRef 0] ->
          eq_str e UniversalVarType = true ->
          h' !! l = Some (ArrayType (VStr NumberVarType) c d))
    /\ (forall l,
          (forall e c d,
             heap Example.arrayOfUniversal !! l = Some (ArrayType e c d) ->
             In (VRef l) [VRef 0] -> eq_str e UniversalVarType = false) ->
          h' !! l = heap Example.arrayOfUniversal !! l).
Proof.
  apply (numericKey_write_refines_elements 5 Example.index0 (VStr NumberVarType)
           Example.arrayOfUniversal
           (mkVariableData None
              [("static struct js_var * {var}[2]", VRef 0)] [] [] None None false false
              false));
    vm_compute; reflexivity.
Defined.

Lemma findParameter_spec p params : forall k i param,
  params !! i = Some param ->
  ts.pos param = p ->
  (forall j q, j < i -> params !! j = Some q -> ts.pos q <> p) ->
  findParameter p k params = Some (k + i, param).
Proof.
  induction params as [|q params IH]; intros k i param Hi Hp Hfirst; [discriminate|].
  cbn [findParameter]. destruct i as [|i].
  - injection Hi as ->. rewrite Hp, N.eqb_refl. f_equal. f_equal. lia.
  - assert (Hq : ts.pos q <> p) by (apply (Hfirst 0 q); [lia|reflexivity]).
    apply N.eqb_neq in Hq. rewrite Hq.
    rewrite (IH (S k) i param Hi Hp); [f_equal; f_equal; lia|].
    intros j r Hj Hr. apply (Hfirst (S j) r); [lia|exact Hr].
Qed.

Lemma addTypeToVariable_keeps_parameter tc varPos left right s s' vd :
  addTypeToVariable tc varPos left right s = Ok tt s' ->
  Js.get varPos (variablesData s) = Some vd ->
  exists vd',
    Js.get varPos (variablesData s') = Some vd'
    /\ parameterIndex vd' = parameterIndex vd
    /\ parameterFuncDeclPos vd' = parameterFuncDeclPos vd.
Proof.
  intros H Hvd. unfold addTypeToVariable in H.
  apply bind_Ok in H as (determinedType & s1 & Hdet & H).
  apply determineType_keeps_variablesData in Hdet. rewrite <- Hdet in Hvd.
  apply bind_Ok in H as (h & s2 & Hh & H). inversion Hh; subst; clear Hh.
  destruct (as_promise (heap s2) determinedType).
  - rewrite (updateVariableData_eq _ _ _ _ Hvd) in H. inversion H; subst.
    eexists. split; [cbn; apply get_set_eq|]. auto.
  - apply bind_Ok in H as (x & s3 & Hx & H).
    unfold variableData in Hx. apply bind_Ok in Hx as (y & s4 & Hy & Hx).
    inversion Hy; subst; clear Hy. apply defined_Ok in Hx as [_ ->].
    apply bind_Ok in H as (key & s5 & Hkey & H).
    apply getTypeString_keeps_variablesData in Hkey. rewrite <- Hkey in Hvd.
    rewrite (updateVariableData_eq _ _ _ _ Hvd) in H. inversion H; subst.
    eexists. split; [cbn; apply get_set_eq|]. auto.
Qed.

(** X28: the visit of the name of a parameter records where the parameter
    stands: its index in the parameter list of the function, the first one
    that starts at the position of the name, and the position of the
    function plus one, the key under which the calls of the function record
    the types of their arguments. *)
Theorem visitParameterName_records_position
    tc ancestors varPos node funcDecl i param s vd s' :
  ancestors !! 1%nat = Some funcDecl ->
  ts.parameters funcDecl !! i = Some param ->
  ts.pos param = ts.pos node ->
  (forall j q, j < i -> ts.parameters funcDecl !! j = Some q -> ts.pos q <> ts.pos node) ->
  Js.get varPos (variablesData s) = Some vd ->
  visitParameterName tc ancestors varPos node s = Ok tt s' ->
  exists vd',
    Js.get varPos (variablesData s') = Some vd'
    /\ parameterIndex vd' = Some i
    /\ parameterFuncDeclPos vd' = Some (ts.pos funcDecl + 1)%N.
Proof.
  intros Hf Hi Hp Hfirst Hvd H. unfold visitParameterName in H.
  unfold bind at 1 in H. rewrite Hf in H. cbn [defined ret] in H.
  rewrite (findParameter_spec _ _ 0 i param Hi Hp Hfirst) in H. cbn [Nat.add] in H.
  rewrite (bind_eq _ _ _ _ _ (updateVariableData_eq _ _ _ _ Hvd)) in H.
  apply addTypeToVariable_keeps_parameter
    with (vd := set_parameter i (ts.pos funcDecl + 1) vd) in H;
    [exact H|cbn; apply get_set_eq].
Qed.

Lemma visitParameterName_records_position_witness :
  exists vd',
    Js.get 11%N (variablesData Example.paramVisited) = Some vd'
    /\ parameterIndex vd' = Some 0
    /\ parameterFuncDeclPos vd' = Some (ts.pos Example.funcF + 1)%N.
Proof.
  apply (visitParameterName_records_position Example.checkerF
           [Example.paramP; Example.funcF] 11 (Example.ident 11 "p") Example.funcF 0
           Example.paramP Example.paramFresh newVariableData Example.paramVisited);
    try (vm_compute; reflexivity).
  intros j q Hj. lia.
Defined.

(** X29: the visit of the receiver of a write [x.p = e], where [p] is
    neither [push] nor [pop], nor [__proto__], under which
    [Object.prototype] has a setter: when the type derived for [e] is a
    promise nothing is recorded, and otherwise the type becomes the type of
    the added property [p], whatever was recorded for [p] before. *)
Theorem property_write_records
    tc ancestors varPos node propAccess receiver parent left operatorToken nm
    s vd determinedType s1 :
  ts.expression propAccess = Some receiver ->
  ts.pos receiver = ts.pos node ->
  ancestors !! 1%nat = Some parent ->
  ts.is_kind ts.SyntaxKind.BinaryExpression parent = true ->
  ts.left parent = Some left ->
  ts.pos left = ts.pos propAccess ->
  ts.operatorToken parent = Some operatorToken ->
  ts.is_kind ts.SyntaxKind.EqualsToken operatorToken = true ->
  ts.name propAccess = Some nm ->
  ts.getText nm <> "push" ->
  ts.getText nm <> "pop" ->
  Js.prototypeSetter (ts.getText nm) = false ->
  Js.get varPos (variablesData s) = Some vd ->
  determineType tc (Some nm) (ts.right parent) s = Ok determinedType s1 ->
  visitPropertyAccessTarget tc ancestors varPos node propAccess s
  = Ok tt
      (if instanceof_TypePromise (heap s1) determinedType then s1
       else with_variablesData
              (Js.set varPos
                 (set_addedProperties (Js.set (ts.getText nm) determinedType) vd))
              s1).
Proof.
  intros Hrecv Hpos Hparent Hbin Hleft Hlpos Hop Heq Hnm Hpush Hpop _ Hvd Hdet.
  pose proof (determineType_keeps_variablesData _ _ _ _ _ _ Hdet) as Hkept.
  rewrite <- Hkept in Hvd.
  apply String.eqb_neq in Hpush, Hpop.
  unfold visitPropertyAccessTarget.
  unfold bind at 1. rewrite Hrecv. cbn [defined ret].
  rewrite Hpos, N.eqb_refl, Hnm.
  assert (Hfirst :
    (parent <- defined (ancestors !! 1%nat) ;;
     if ts.is_kind ts.SyntaxKind.BinaryExpression parent then
       left <- defined (ts.left parent) ;;
       if (ts.pos left =? ts.pos propAccess)%N then
         operatorToken <- defined (ts.operatorToken parent) ;;
         if ts.is_kind ts.SyntaxKind.EqualsToken operatorToken then
           determinedType <- determineType tc (Some nm) (ts.right parent) ;;
           h <- gets heap ;;
           if instanceof_TypePromise h determinedType then ret tt
           else
             nm <- defined (Some nm) ;;
             updateVariableData varPos
               (set_addedProperties (Js.set (ts.getText nm) determinedType))
         else ret tt
       else ret tt
     else ret tt) s
    = Ok tt
        (if instanceof_TypePromise (heap s1) determinedType then s1
         else with_variablesData
                (Js.set varPos
                   (set_addedProperties (Js.set (ts.getText nm) determinedType) vd))
                s1)).
  { unfold bind at 1. rewrite Hparent. cbn [defined ret]. rewrite Hbin.
    unfold bind at 1. rewrite Hleft. cbn [defined ret]. rewrite Hlpos, N.eqb_refl.
    unfold bind at 1. rewrite Hop. cbn [defined ret]. rewrite Heq.
    rewrite (bind_eq _ _ _ _ _ Hdet). unfold bind at 1. cbn [gets].
    destruct (instanceof_TypePromise (heap s1) determinedType); [reflexivity|].
    unfold bind at 1. cbn [defined ret].
    apply (updateVariableData_eq _ _ _ _ Hvd). }
  rewrite (bind_eq _ _ _ _ _ Hfirst).
  destruct (ts.is_kind ts.SyntaxKind.Identifier receiver).
  - unfold bind at 1. unfold bind at 1. cbn [defined ret]. rewrite Hpush. cbn [ret].
    unfold bind. cbn [defined ret]. rewrite Hpop. reflexivity.
  - reflexivity.
Qed.

Lemma property_write_records_witness :
  visitPropertyAccessTarget Example.checkerA [Example.accessAx; Example.assignAx] 4
    (Example.ident 19 "a") Example.accessAx Example.beforePush
  = Ok tt
      (with_variablesData
         (Js.set 4%N
            (set_addedProperties (Js.set "x" (VStr NumberVarType)) newVariableData))
         Example.beforePush).
Proof.
  exact (property_write_records Example.checkerA [Example.accessAx; Example.assignAx] 4
           (Example.ident 19 "a") Example.accessAx (Example.ident 19 "a")
           Example.assignAx Example.accessAx
           (Example.node ts.SyntaxKind.EqualsToken 23 "=" []) (Example.ident 21 "x")
           Example.beforePush newVariableData (VStr NumberVarType) Example.beforePush
           eq_refl eq_refl eq_refl eq_refl eq_refl eq_refl eq_refl eq_refl eq_refl
           ltac:(discriminate) ltac:(discriminate) eq_refl eq_refl eq_refl).
Defined.

(** * Array literals and [push], in any state *)







